(** * Count sketch: the in-memory, streaming and map-reduce implementations

    A shallow embedding of the three functions of the count-sketch notebook
    ([countSketchInMemroy], [countSketchStreaming], [countSketchMapReduce])
    and of the numpy and Spark operations they call.

    Modelling decisions.
    - The matrices of the notebook come from [np.loadtxt] and [np.asfarray]:
      their entries are IEEE 754 binary64 numbers.  An entry is a
      [spec_float] of the Standard Library, and [+] and [*] are its
      round-to-nearest-even addition and multiplication for a precision of
      53 bits ([fadd], [fmul]).  Integer arrays are not modelled.
    - A two-dimensional numpy array is a record holding its number of rows
      and the list of its columns; numpy arrays are rectangular, which is the
      predicate [wf_ndarray].
    - numpy does not fix the order in which [np.sum] adds the numbers of a
      row (it depends on the layout of the array in memory), and its releases
      differ on [np.random.choice(a, 0)] for [a ≤ 0].  Both are fields of the
      record [numpy], an input of the model; the theorems hold for every
      order of summation.
    - Spark fixes neither the order in which a reducer receives the results
      of the map side nor the order of the keys that [collect] returns.  Both
      are fields of the record [spark], an input of the model.
    - The global random generator is an oracle: the outcome of each call to
      [np.random.choice] (or [np.random.randint]) is an input of the model,
      and the contract of the call (length and range of the sample) is the
      predicate [choice_outcome].
    - Python exceptions are the [Raise] results of an error monad.
    - The sketchers are given twice: as functions on array values, and, for
      their effect on the arrays of the caller, as programs on references
      into a store of arrays ([countSketchInMemroy_ref],
      [countSketchStreaming_ref]); the two agree.
    - The module [Exact] holds the sketch in the arithmetic of the integers,
      the reference against which the floating-point results are compared:
      [int_value] reads a binary64 number that is an integer.  A result is
      equal to its exact counterpart when no operation is rounded; the
      theorems ask for a matrix of integers whose rows add up, in absolute
      value, to less than [2^53] ([bounded_rows]), and the lemmas named
      [..._rounds] show what happens beyond. *)

From Stdlib Require Import ZArith List Lia SpecFloat.
From stdpp Require Import base list gmap.

Local Open Scope Z_scope.

(** ** Exceptions *)

Inductive exception := ValueError | IndexError | ReferenceError | Py4JJavaError.

Inductive result (A : Type) : Type :=
| Ok (a : A)
| Raise (e : exception).

Arguments Ok {A} a.
Arguments Raise {A} e.

#[global] Instance result_ret : MRet result := @Ok.
#[global] Instance result_bind : MBind result :=
  λ A B f r, match r with Ok a => f a | Raise e => Raise e end.
#[global] Instance result_fmap : FMap result :=
  λ A B f r, match r with Ok a => Ok (f a) | Raise e => Raise e end.

(** [for x in xs: st = body(x, st)], stopping at the first exception. *)
Fixpoint for_each {A S : Type} (xs : list A) (body : A → S → result S)
    (st : S) : result S :=
  match xs with
  | [] => Ok st
  | x :: xs' => st' ← body x st; for_each xs' body st'
  end.

(** [range(n)] *)
Definition range (n : Z) : list Z := Z.of_nat <$> seq 0 (Z.to_nat n).

(** ** Floating-point numbers *)

(** A [float64]: binary64, with a mantissa of 53 bits and exponents below
    1024. *)
Definition float64 : Type := spec_float.
Definition prec : Z := 53.
Definition emax : Z := 1024.

(** [x + y] and [x * y], rounded to the nearest binary64, ties to even. *)
Definition fadd : float64 → float64 → float64 := SFadd prec emax.
Definition fmul : float64 → float64 → float64 := SFmul prec emax.

(** [0.0] *)
Definition fzero : float64 := S754_zero false.

(** The conversion of an integer to [float64] (as when an [int64] meets a
    [float64] in an arithmetic operation): the nearest binary64. *)
Definition float_of_int (n : Z) : float64 := binary_normalize prec emax n 0 false.

(** The integer that a [float64] is equal to, if it is one (both zeros are
    the integer [0]; infinities and NaN are no integer). *)
Definition int_value (x : float64) : option Z :=
  match x with
  | S754_zero _ => Some 0
  | S754_finite s m e =>
      if bool_decide (0 ≤ e) then Some (cond_Zopp s (Z.pos m * 2 ^ e))
      else if bool_decide (Z.pos m mod 2 ^ (- e) = 0)
           then Some (cond_Zopp s (Z.pos m / 2 ^ (- e)))
           else None
  | _ => None
  end.

(** [m * 2^e] is the integer [n]. *)
Definition dyadic (m e n : Z) : Prop :=
  (0 ≤ e ∧ n = m * 2 ^ e) ∨ (e < 0 ∧ m = n * 2 ^ (- e)).

(** [x] is the integer [z]. *)
Abbreviation is_int := (λ (x : float64) (z : Z), int_value x = Some z).

(** ** The numpy installation *)

(** The additions that [np.sum] performs on the [k] numbers of a row: a
    tree whose leaves are the positions [0 .. k-1], each once, and any
    number of times the initial value [0.0].  (For a reduced axis that is
    contiguous in memory numpy adds pairwise, in blocks; otherwise it adds
    the numbers one after the other.) *)
Inductive plan := Start | Item (j : nat) | Plus (p q : plan).

Fixpoint run_plan (p : plan) (xs : list float64) : float64 :=
  match p with
  | Start => fzero
  | Item j => nth j xs fzero
  | Plus p q => fadd (run_plan p xs) (run_plan q xs)
  end.

Fixpoint items (p : plan) : list nat :=
  match p with
  | Start => []
  | Item j => [j]
  | Plus p q => items p ++ items q
  end.

Definition valid_plan (k : nat) (p : plan) : Prop := items p ≡ₚ seq 0 k.

(** What the code leaves to numpy: the tree along which [np.sum(X, 1)] adds
    row [r] of an array with [k] columns, and whether
    [np.random.choice(a, 0)] returns the empty sample for [a ≤ 0] (as the
    current releases do) or raises (as the releases of the time of the
    notebook do). *)
Record numpy := Numpy { sum_order : nat → nat → plan; empty_choice : bool }.

Definition valid_numpy (np : numpy) : Prop := ∀ r k, valid_plan k (sum_order np r k).

(** One order of summation: the numbers one after the other, from the
    first. *)
Fixpoint left_to_right (k : nat) : plan :=
  match k with
  | O => Start
  | S k' => match k' with O => Item 0 | S _ => Plus (left_to_right k') (Item k') end
  end.

Definition example_numpy : numpy := Numpy (λ _ k, left_to_right k) true.

(** ** numpy arrays *)

Abbreviation vector := (list float64).

Record ndarray (T : Type) := NDArray { nrows : nat; columns : list (list T) }.

Arguments NDArray {T} nrows columns.
Arguments nrows {T} _.
Arguments columns {T} _.

Definition shape {T : Type} (A : ndarray T) : nat * nat := (nrows A, length (columns A)).

Definition wf_ndarray {T : Type} (A : ndarray T) : Prop :=
  Forall (λ c : list T, length c = nrows A) (columns A).

(** Entry [A[r, j]] of a well-formed array, [0.0] outside. *)
Definition entry (A : ndarray float64) (r j : nat) : float64 :=
  nth r (nth j (columns A) []) fzero.

(** Row [r] of an array. *)
Definition row (A : ndarray float64) (r : nat) : vector :=
  (λ c : vector, nth r c fzero) <$> columns A.

Definition zeros (m : nat) : vector := replicate m fzero.

(** [v1 + v2] on one-dimensional arrays: elementwise for equal lengths; an
    array of length [1] is broadcast; other lengths raise [ValueError]. *)
Definition vadd (v1 v2 : vector) : result vector :=
  if bool_decide (length v1 = length v2) then Ok (zip_with fadd v1 v2)
  else match v1, v2 with
       | [x], _ => Ok (fadd x <$> v2)
       | _, [y] => Ok ((λ x, fadd x y) <$> v1)
       | _, _ => Raise ValueError
       end.

(** [g * a] for an integer scalar [g]. *)
Definition scale (g : Z) (a : vector) : vector := fmul (float_of_int g) <$> a.

(** An index [i] into an axis of length [len]: negative indices count from
    the end, anything outside [-len, len) raises [IndexError]. *)
Definition normalize_index (len : nat) (i : Z) : result nat :=
  if bool_decide (0 ≤ i < Z.of_nat len) then Ok (Z.to_nat i)
  else if bool_decide (- Z.of_nat len ≤ i < 0) then Ok (Z.to_nat (i + Z.of_nat len))
  else Raise IndexError.

(** [l[i]] on a one-dimensional array of integers. *)
Definition get_item (l : list Z) (i : Z) : result Z :=
  k ← normalize_index (length l) i;
  match l !! k with Some x => Ok x | None => Raise IndexError end.

(** [np.zeros([m, s])] *)
Definition np_zeros (m : nat) (s : Z) : result (ndarray float64) :=
  if bool_decide (s < 0) then Raise ValueError
  else Ok (NDArray m (replicate (Z.to_nat s) (zeros m))).

(** [np.random.choice(a, size, replace=True)]: a negative [size] raises
    [ValueError], and so does a population [a ≤ 0], unless, in the releases
    with [empty_choice], no sample is taken ([size = 0]); otherwise the call
    returns the sample [drawn] supplied by the generator. *)
Definition random_choice (np : numpy) (a size : Z) (drawn : list Z) : result (list Z) :=
  if bool_decide (size < 0) then Raise ValueError
  else if bool_decide (a ≤ 0) then
    if bool_decide (size = 0) && empty_choice np then Ok [] else Raise ValueError
  else Ok drawn.

(** What the generator may return for [np.random.choice(a, size)]: [size]
    numbers of [range(a)]. *)
Definition choice_outcome (a size : Z) (drawn : list Z) : Prop :=
  Z.of_nat (length drawn) = size ∧ Forall (λ x, 0 ≤ x < a) drawn.

(** [v.reshape(1, n)] *)
Definition reshape_row (v : list Z) (n : nat) : result (list Z) :=
  if bool_decide (length v = n) then Ok v else Raise ValueError.

(** [A * r] for a [1 × n] row [r] of integers: broadcasting multiplies
    column [j] of [A] by [r[j]] and returns a new array. *)
Definition mul_broadcast (A : ndarray float64) (r : list Z) : ndarray float64 :=
  NDArray (nrows A)
    (zip_with (λ (c : vector) g, (λ x, fmul x (float_of_int g)) <$> c) (columns A) r).

(** [v == i], elementwise. *)
Definition eq_mask (v : list Z) (i : Z) : list bool :=
  (λ h, bool_decide (h = i)) <$> v.

(** The elements of [l] at the positions where [mask] holds. *)
Definition masked {A : Type} (mask : list bool) (l : list A) : list A :=
  fst <$> filter (λ p, snd p = true) (zip l mask).

(** [A[:, idx]] for a boolean mask [idx]: a new array. *)
Definition select_columns {T : Type} (A : ndarray T) (idx : list bool)
    : result (ndarray T) :=
  if bool_decide (length idx = length (columns A))
  then Ok (NDArray (nrows A) (masked idx (columns A)))
  else Raise IndexError.

(** [np.sum(A, 1)]: the vector of the sums of the rows, each added up
    along the tree of the installation. *)
Definition np_sum_axis1 (np : numpy) (A : ndarray float64) : vector :=
  (λ r, run_plan (sum_order np r (length (columns A))) (row A r)) <$> seq 0 (nrows A).

(** [A[:, j]] *)
Definition get_column {T : Type} (A : ndarray T) (j : Z) : result (list T) :=
  k ← normalize_index (length (columns A)) j;
  match columns A !! k with Some c => Ok c | None => Raise IndexError end.

(** [C[:, i] = v]: [v] has the length of the column, or the length [1] and
    is broadcast; other lengths raise [ValueError]. *)
Definition set_column {T : Type} (C : ndarray T) (i : Z) (v : list T)
    : result (ndarray T) :=
  k ← normalize_index (length (columns C)) i;
  if bool_decide (length v = nrows C)
  then Ok (NDArray (nrows C) (<[k := v]> (columns C)))
  else match v with
       | [x] => Ok (NDArray (nrows C) (<[k := replicate (nrows C) x]> (columns C)))
       | _ => Raise ValueError
       end.

(** [C[:, h] += v]: the sum is written into column [h], so [v] has the
    length of the column, or the length [1]. *)
Definition iadd_column (C : ndarray float64) (h : Z) (v : vector)
    : result (ndarray float64) :=
  c ← get_column C h;
  if bool_decide (length v = length c) then set_column C h (zip_with fadd c v)
  else match v with
       | [y] => set_column C h ((λ x, fadd x y) <$> c)
       | _ => Raise ValueError
       end.

(** ** Outcomes of the random generator in one run *)

Record draws := Draws { drawn_buckets : list Z; drawn_bits : list Z }.

(** ** The in-memory implementation *)

Definition countSketchInMemroy (np : numpy) (matrixA : ndarray float64) (s : Z)
    (rnd : draws) : result (ndarray float64) :=
  let '(m, n) := shape matrixA in
  matrixC ← np_zeros m s;
  hashedIndices ← random_choice np s (Z.of_nat n) (drawn_buckets rnd);
  bits ← random_choice np 2 (Z.of_nat n) (drawn_bits rnd);
  let randSigns : list Z := (λ b, b * 2 - 1) <$> bits in
  signsRow ← reshape_row randSigns n;
  let matrixA := mul_broadcast matrixA signsRow in
  for_each (range s) (λ i matrixC,
    let idx := eq_mask hashedIndices i in
    selected ← select_columns matrixA idx;
    set_column matrixC i (np_sum_axis1 np selected)) matrixC.

(** ** The streaming implementation *)

Definition countSketchStreaming_step (matrixA : ndarray float64)
    (hashedIndices randSigns : list Z) (j : Z) (matrixC : ndarray float64)
    : result (ndarray float64) :=
  a ← get_column matrixA j;
  h ← get_item hashedIndices j;
  g ← get_item randSigns j;
  iadd_column matrixC h (scale g a).

Definition countSketchStreaming (np : numpy) (matrixA : ndarray float64) (s : Z)
    (rnd : draws) : result (ndarray float64) :=
  let '(m, n) := shape matrixA in
  matrixC ← np_zeros m s;
  hashedIndices ← random_choice np s (Z.of_nat n) (drawn_buckets rnd);
  bits ← random_choice np 2 (Z.of_nat n) (drawn_bits rnd);
  let randSigns : list Z := (λ b, b * 2 - 1) <$> bits in
  for_each (range (Z.of_nat n))
    (countSketchStreaming_step matrixA hashedIndices randSigns) matrixC.

(** ** The map-reduce implementation *)

(** An RDD is the list of its partitions. *)
Definition rdd (A : Type) : Type := list (list A).

(** What the code leaves to Spark: for a job with [P] map partitions, the
    order in which the reducer of key [k] receives their results, and the
    order in which [collect] lists the keys of the result. *)
Record spark := Spark { fetch_order : nat → Z → list nat; key_order : list Z → list Z }.

Definition valid_spark (sc : spark) : Prop :=
  (∀ P k, fetch_order sc P k ≡ₚ seq 0 P) ∧ (∀ keys, key_order sc keys ≡ₚ keys).

Definition example_spark : spark := Spark (λ P _, seq 0 P) id.

(** [rdd.map(f)]; an exception in [f] fails the task. *)
Definition rdd_map {A B : Type} (f : A → result B) (r : rdd A) : result (rdd B) :=
  mapM (mapM f) r.

(** [rdd.collect()], applied to the outcome of the tasks: when a task has
    failed, the caller gets Spark's [Py4JJavaError], whatever the exception
    in the task was. *)
Definition collect {A : Type} (r : result (rdd A)) : result (list A) :=
  match r with
  | Ok parts => Ok (concat parts)
  | Raise _ => Raise Py4JJavaError
  end.

(** One step of combining by key: the value of a key already present is
    replaced by [f old v], a new key is added after the others. *)
Fixpoint merge_value {V : Type} (f : V → V → result V) (k : Z) (v : V)
    (acc : list (Z * V)) : result (list (Z * V)) :=
  match acc with
  | [] => Ok [(k, v)]
  | (k', v') :: acc' =>
      if bool_decide (k' = k) then w ← f v' v; Ok ((k', w) :: acc')
      else rest ← merge_value f k v acc'; Ok ((k', v') :: rest)
  end.

(** The map side of [reduceByKey]: the pairs of one partition are combined
    in their order. *)
Definition combine_locally {V : Type} (f : V → V → result V) (part : list (Z * V))
    : result (list (Z * V)) :=
  for_each part (λ kv acc, merge_value f kv.1 kv.2 acc) [].

(** The value of key [k] in a list of pairs with distinct keys. *)
Fixpoint assoc {V : Type} (k : Z) (l : list (Z * V)) : option V :=
  match l with
  | [] => None
  | (k', v) :: l' => if bool_decide (k' = k) then Some v else assoc k l'
  end.

(** The values that the map partitions hold for key [k], in the order in
    which the reducer receives them. *)
Definition combiners_of {V : Type} (locals : list (list (Z * V))) (k : Z)
    (order : list nat) : list V :=
  omap (λ p, part ← locals !! p; assoc k part) order.

(** The reduce side: the values of one key are merged one after the
    other. *)
Definition merge_combiners {V : Type} (f : V → V → result V) (vs : list V)
    : result (option V) :=
  match vs with
  | [] => Ok None
  | v :: vs' => Some <$> for_each vs' (λ w acc, f acc w) v
  end.

(** [rdd.reduceByKey(f)]: the pairs of every partition are combined
    locally, then the local results of each key are merged. *)
Definition reduceByKey {V : Type} (sc : spark) (f : V → V → result V)
    (r : rdd (Z * V)) : result (rdd (Z * V)) :=
  locals ← mapM (combine_locally f) r;
  let keys := remove_dups (concat locals).*1 in
  merged ← mapM (λ k,
    v ← merge_combiners f (combiners_of locals k (fetch_order sc (length r) k));
    Ok (k, v)) (key_order sc keys);
  Ok [omap (λ kv : Z * option V, pair kv.1 <$> kv.2) merged].

(** [np.random.randint(low, high)]: an empty range raises [ValueError];
    otherwise the call returns the number [drawn] supplied by the
    generator. *)
Definition random_randint (low high : Z) (drawn : Z) : result Z :=
  if bool_decide (high ≤ low) then Raise ValueError else Ok drawn.

(** [np.asarray(vectList).T]: the array whose columns are the vectors of the
    list, which must have one length ([ValueError] otherwise, in the current
    releases of numpy).  (For the empty list numpy returns the empty array
    of shape [(0,)], here the array with no rows and no columns.) *)
Definition asarray_T (vectList : list vector) : result (ndarray float64) :=
  match vectList with
  | [] => Ok (NDArray 0 [])
  | v :: _ =>
      if bool_decide (Forall (λ w : vector, length w = length v) vectList)
      then Ok (NDArray (length v) vectList)
      else Raise ValueError
  end.

(** The mapper.  An element of the input RDD is a vector (one line of the
    file, one column of the matrix) together with the two numbers that the
    generator returns while this vector is mapped. *)
Definition mapper (s : Z) (x : vector * (Z * Z)) : result (Z * vector) :=
  let '(vect, (h, b)) := x in
  key ← random_randint 0 s h;
  bit ← random_randint 0 2 b;
  Ok (key, scale (bit * 2 - 1) vect).

(** [countSketchMapReduce], from the parsed RDD on (reading and parsing
    the file are not modelled).  The transformations are lazy: an RDD is the
    outcome of the tasks that compute it, observed by [collect]. *)
Definition countSketchMapReduce (sc : spark) (vectorRDD : rdd (vector * (Z * Z)))
    (s : Z) : result (ndarray float64) :=
  let pairRDD := rdd_map (mapper s) vectorRDD in
  let reducedRDD := pairRDD ≫= reduceByKey sc vadd in
  let valueRDD := reducedRDD ≫= rdd_map (λ pair : Z * vector, Ok pair.2) in
  vectList ← collect valueRDD;
  asarray_T vectList.

(** The columns of a matrix with the draws of their logical indices. *)
Definition tagged_columns {T : Type} (matrixA : ndarray T) (rnd : draws)
    : list (list T * (Z * Z)) :=
  zip (columns matrixA) (zip (drawn_buckets rnd) (drawn_bits rnd)).

(** [parts] distributes the columns of [matrixA], each with the draws of its
    logical index, over partitions. *)
Definition partitioning {T : Type} (matrixA : ndarray T) (rnd : draws)
    (parts : rdd (list T * (Z * Z))) : Prop :=
  concat parts ≡ₚ tagged_columns matrixA rnd.

(** ** Arrays as objects

    For the effect of the sketchers on the arrays of their caller, the
    two-dimensional arrays live in a store and the functions take and return
    references.  Arithmetic and boolean-mask indexing allocate a new array;
    [A[:, j]] is a view, which shares the buffer of [A]; the assignments
    [C[:, i] = v] and [C[:, h] += v] write into the buffer of [C]. *)

Abbreviation heap := (gmap nat (ndarray float64)).

Definition program (A : Type) : Type := heap → result A * heap.

#[global] Instance program_ret : MRet program := λ A a σ, (Ok a, σ).
#[global] Instance program_bind : MBind program :=
  λ A B f c σ, match c σ with
               | (Ok a, σ') => f a σ'
               | (Raise e, σ') => (Raise e, σ')
               end.

Definition lift {A : Type} (r : result A) : program A := λ σ, (r, σ).

Definition alloc (a : ndarray float64) : program nat :=
  λ σ, let l := fresh (dom σ) in (Ok l, <[l := a]> σ).

(** A reference held by a Python variable always points to a live object;
    the model raises [ReferenceError] on a location outside the store. *)
Definition load (l : nat) : program (ndarray float64) :=
  λ σ, (match σ !! l with Some a => Ok a | None => Raise ReferenceError end, σ).

Definition store (l : nat) (a : ndarray float64) : program () :=
  λ σ, (Ok (), <[l := a]> σ).

Fixpoint for_each_ref {A : Type} (xs : list A) (body : A → program ())
    : program () :=
  match xs with
  | [] => mret ()
  | x :: xs' => _ ← body x; for_each_ref xs' body
  end.

(** [np.zeros([m, s])] *)
Definition new_zeros (m : nat) (s : Z) : program nat :=
  C ← lift (np_zeros m s); alloc C.

(** [A * r] *)
Definition new_mul_broadcast (A : nat) (r : list Z) : program nat :=
  a ← load A; alloc (mul_broadcast a r).

(** [A[:, idx]] for a boolean mask *)
Definition new_select_columns (A : nat) (idx : list bool) : program nat :=
  a ← load A; x ← lift (select_columns a idx); alloc x.

(** [np.sum(X, 1)] *)
Definition sum_axis1_of (np : numpy) (X : nat) : program vector :=
  x ← load X; mret (np_sum_axis1 np x).

(** [C[:, i] = v] *)
Definition assign_column (C : nat) (i : Z) (v : vector) : program () :=
  c ← load C; c' ← lift (set_column c i v); store C c'.

(** [C[:, h] += v] *)
Definition iadd_column_at (C : nat) (h : Z) (v : vector) : program () :=
  c ← load C; c' ← lift (iadd_column c h v); store C c'.

(** The view [A[:, j]]: the array it looks into and the column. *)
Record view := View { base : nat; col : nat }.

Definition column_view (A : nat) (j : Z) : program view :=
  a ← load A;
  k ← lift (normalize_index (length (columns a)) j);
  mret (View A k).

(** [g * a] for a view [a]: reads the buffer, returns a new vector. *)
Definition scale_view (g : Z) (a : view) : program vector :=
  x ← load (base a);
  c ← lift (match columns x !! col a with
            | Some c => Ok c
            | None => Raise IndexError
            end);
  mret (scale g c).

Definition countSketchInMemroy_ref (np : numpy) (matrixA : nat) (s : Z) (rnd : draws)
    : program nat :=
  a ← load matrixA;
  let '(m, n) := shape a in
  matrixC ← new_zeros m s;
  hashedIndices ← lift (random_choice np s (Z.of_nat n) (drawn_buckets rnd));
  bits ← lift (random_choice np 2 (Z.of_nat n) (drawn_bits rnd));
  let randSigns : list Z := (λ b, b * 2 - 1) <$> bits in
  signsRow ← lift (reshape_row randSigns n);
  matrixA ← new_mul_broadcast matrixA signsRow;
  _ ← for_each_ref (range s) (λ i,
    let idx := eq_mask hashedIndices i in
    selected ← new_select_columns matrixA idx;
    v ← sum_axis1_of np selected;
    assign_column matrixC i v);
  mret matrixC.

Definition countSketchStreaming_ref (np : numpy) (matrixA : nat) (s : Z) (rnd : draws)
    : program nat :=
  a ← load matrixA;
  let '(m, n) := shape a in
  matrixC ← new_zeros m s;
  hashedIndices ← lift (random_choice np s (Z.of_nat n) (drawn_buckets rnd));
  bits ← lift (random_choice np 2 (Z.of_nat n) (drawn_bits rnd));
  let randSigns : list Z := (λ b, b * 2 - 1) <$> bits in
  _ ← for_each_ref (range (Z.of_nat n)) (λ j,
    a ← column_view matrixA j;
    h ← lift (get_item hashedIndices j);
    g ← lift (get_item randSigns j);
    ga ← scale_view g a;
    iadd_column_at matrixC h ga);
  mret matrixC.

(** ** Specification-level notions *)

(** The [m × s] array with entry [E i r] at row [r] of column [i]. *)
Definition tabulate {T : Type} (m : nat) (s : Z) (E : Z → nat → T) : ndarray T :=
  NDArray m ((λ i, E i <$> seq 0 m) <$> range s).

(** The columns of [A] selected by [mask], as a matrix of its own (what
    [A[:, mask]] returns), and the draws of these columns. *)
Definition sub_matrix {T : Type} (mask : list bool) (A : ndarray T) : ndarray T :=
  NDArray (nrows A) (masked mask (columns A)).

Definition sub_draws (mask : list bool) (rnd : draws) : draws :=
  Draws (masked mask (drawn_buckets rnd)) (masked mask (drawn_bits rnd)).

(** The signs of a run: [bits * 2 - 1]. *)
Definition signs_of (rnd : draws) : list Z := (λ b, b * 2 - 1) <$> drawn_bits rnd.

(** The contract of the generator for one run on [matrixA] with sketch
    size [s]: one bucket of [range(s)] and one bit of [range(2)] for each
    column. *)
Definition valid_draws {T : Type} (matrixA : ndarray T) (s : Z) (rnd : draws) : Prop :=
  choice_outcome s (Z.of_nat (length (columns matrixA))) (drawn_buckets rnd)
  ∧ choice_outcome 2 (Z.of_nat (length (columns matrixA))) (drawn_bits rnd).

(** The numbers that make up entry [(r, i)] of the sketch: [A[r, j] * sign]
    for the columns [j] with bucket [i], in the order of the columns. *)
Definition bucket_addends (cols : list vector) (buckets signs : list Z)
    (i : Z) (r : nat) : list float64 :=
  (λ c : vector, nth r c fzero)
    <$> masked (eq_mask buckets i)
          (zip_with (λ (c : vector) g, (λ x, fmul x (float_of_int g)) <$> c) cols signs).

(** The sum that [np.sum] returns for them. *)
Definition summed (np : numpy) (cols : list vector) (buckets signs : list Z)
    (i : Z) (r : nat) : float64 :=
  run_plan (sum_order np r (length (bucket_addends cols buckets signs i r)))
    (bucket_addends cols buckets signs i r).

(** The numbers that the streaming sketcher adds into entry [(r, i)]:
    [sign * c[r]] for the columns [c] with bucket [i] of a list of columns
    with their bucket and sign; and what adding them to [0.0] one after the
    other returns. *)
Definition addends (tagged : list (vector * (Z * Z))) (i : Z) (r : nat)
    : list float64 :=
  omap (λ x : vector * (Z * Z),
          if bool_decide (x.2.1 = i)
          then Some (fmul (float_of_int x.2.2) (nth r x.1 fzero)) else None) tagged.

Definition accumulated (tagged : list (vector * (Z * Z))) (i : Z) (r : nat)
    : float64 :=
  foldl fadd fzero (addends tagged i r).

(** [alpha * A] for a scalar [alpha]. *)
Definition np_scale (alpha : float64) (A : ndarray float64) : ndarray float64 :=
  NDArray (nrows A) (fmap (M:=list) (fmul alpha) <$> columns A).

(** What the mapper emits for a column with its draws, when [s > 0]. *)
Definition emitted (x : vector * (Z * Z)) : Z * vector :=
  (x.2.1, scale (x.2.2 * 2 - 1) x.1).

(** *** The sketch in the arithmetic of the integers *)

Module Exact.

Definition entry (A : ndarray Z) (r j : nat) : Z :=
  nth r (nth j (columns A) []) 0.

Definition row (A : ndarray Z) (r : nat) : list Z :=
  (λ c : list Z, nth r c 0) <$> columns A.

Definition Zsum (l : list Z) : Z := foldr Z.add 0 l.

Definition zeros (m : nat) : list Z := replicate m 0.

Definition vadd (v1 v2 : list Z) : list Z := zip_with Z.add v1 v2.

Definition scale (g : Z) (a : list Z) : list Z := Z.mul g <$> a.

(** The product [A · B] of an [m × n] matrix [A] and an [n × s] matrix
    [B]. *)
Definition dot (x y : list Z) : Z := Zsum (zip_with Z.mul x y).

Definition matmul (A B : ndarray Z) : ndarray Z :=
  NDArray (nrows A)
    ((λ b : list Z, (λ r, dot (row A r) b) <$> seq 0 (nrows A)) <$> columns B).

(** The [n × s] sketching matrix of an assignment: entry [(j, i)] is the
    sign of column [j] when [i] is the bucket of column [j], and [0]
    otherwise. *)
Definition sketchingMatrix (s : Z) (buckets signs : list Z) : ndarray Z :=
  NDArray (length buckets)
    ((λ i, zip_with (λ h g, if bool_decide (h = i) then g else 0) buckets signs)
       <$> range s).

(** [A + B], elementwise, for matrices of one shape. *)
Definition np_add (A B : ndarray Z) : ndarray Z :=
  NDArray (nrows A) (zip_with vadd (columns A) (columns B)).

(** [alpha * A] *)
Definition np_scale (alpha : Z) (A : ndarray Z) : ndarray Z :=
  NDArray (nrows A) (scale alpha <$> columns A).

(** Entry [(r, i)] of the sketch: the sum, over the columns [c] with bucket
    [i], of [sign * c[r]]. *)
Definition bucket_term (i : Z) (r : nat) (x : list Z * (Z * Z)) : Z :=
  if bool_decide (x.2.1 = i) then x.2.2 * nth r x.1 0 else 0.

Definition entry_sum (tagged : list (list Z * (Z * Z))) (i : Z) (r : nat) : Z :=
  Zsum (bucket_term i r <$> tagged).

Definition bucket_entry (cols : list (list Z)) (buckets signs : list Z)
    (i : Z) (r : nat) : Z :=
  entry_sum (zip cols (zip buckets signs)) i r.

Definition sketch_of (A : ndarray Z) (s : Z) (buckets signs : list Z) : ndarray Z :=
  tabulate (nrows A) s (bucket_entry (columns A) buckets signs).

(** Its terms. *)
Definition addends (tagged : list (list Z * (Z * Z))) (i : Z) (r : nat) : list Z :=
  omap (λ x : list Z * (Z * Z),
          if bool_decide (x.2.1 = i) then Some (x.2.2 * nth r x.1 0) else None) tagged.

(** The sum, at row [r], of the values of key [k] in a list of pairs. *)
Definition keyed_sum (pairs : list (Z * list Z)) (k : Z) (r : nat) : Z :=
  Zsum ((λ p : Z * list Z, if bool_decide (p.1 = k) then nth r p.2 0 else 0) <$> pairs).

End Exact.

(** *** Floating-point arrays of integers *)

(** The matrix of integers that an array is equal to, entry by entry, if
    there is one. *)
Definition int_values (A : ndarray float64) : option (ndarray Z) :=
  cols ← mapM (mapM int_value) (columns A); Some (NDArray (nrows A) cols).

(** The array of the [float64] of the entries of a matrix of integers. *)
Definition float_array (A : ndarray Z) : ndarray float64 :=
  NDArray (nrows A) (fmap (M:=list) float_of_int <$> columns A).

(** The absolute values of every row add up to less than [2^53]: no sum of
    entries of a row, with any signs, leaves the range in which binary64
    holds every integer. *)
Definition bounded_rows (A : ndarray Z) : Prop :=
  ∀ r, (r < nrows A)%nat → Exact.Zsum (Z.abs <$> Exact.row A r) < 2 ^ 53.

(** *** Vectors and pairs of integers *)

(** A vector of length [m] whose entry [i] is the integer [g i]. *)
Definition int_vector (m : nat) (v : vector) (g : nat → Z) : Prop :=
  length v = m ∧ ∀ i, (i < m)%nat → int_value (nth i v fzero) = Some (g i).

(** The integers of a vector of integers. *)
Definition ints_of (v : vector) : list Z := (λ x, default 0 (int_value x)) <$> v.

(** A pair of a key and a vector of [m] integers. *)
Definition int_pair (m : nat) (p : Z * vector) : Prop :=
  length p.2 = m ∧ Forall (λ x, is_Some (int_value x)) p.2.

Definition int_pairs (pairs : list (Z * vector)) : list (Z * list Z) :=
  (λ p : Z * vector, (p.1, ints_of p.2)) <$> pairs.

(** The sum, at row [i], of the values of key [k] in a list of pairs of
    integers, and the sum of the absolute values of row [i] of all of its
    pairs. *)
Definition key_total (pairs : list (Z * vector)) (k : Z) (i : nat) : Z :=
  Exact.keyed_sum (int_pairs pairs) k i.

Definition row_weight (pairs : list (Z * vector)) (i : nat) : Z :=
  Exact.Zsum ((λ p : Z * list Z, Z.abs (nth i p.2 0)) <$> int_pairs pairs).

(** A list of combined pairs holds, for key [k], the sums of the values of
    [k] in [pairs]. *)
Definition combined (m : nat) (k : Z) (loc pairs : list (Z * vector)) : Prop :=
  match assoc k loc with
  | Some v => k ∈ pairs.*1 ∧ int_vector m v (key_total pairs k)
  | None => k ∉ pairs.*1
  end.

(** Entry [i] of the vector of key [k] in a result of [reduceByKey], as an
    integer; a key that is absent adds nothing. *)
Definition int_entry (out : list (Z * vector)) (k : Z) (i : nat) : option Z :=
  match assoc k out with
  | Some v => int_value (nth i v fzero)
  | None => Some 0
  end.

(** *** Examples *)

(** A [2 × 3] matrix and an assignment of its columns. *)
Definition example_ints : ndarray Z := NDArray 2 [[1; 2]; [3; 4]; [5; 6]].
Definition example_matrix : ndarray float64 := float_array example_ints.
Definition example_draws : draws := Draws [1; 0; 1] [1; 0; 1].

(** The same matrix with the first two columns exchanged, with their
    draws. *)
Definition rearranged_ints : ndarray Z := NDArray 2 [[3; 4]; [1; 2]; [5; 6]].
Definition rearranged_matrix : ndarray float64 := float_array rearranged_ints.
Definition rearranged_draws : draws := Draws [0; 1; 1] [0; 1; 1].

(** A matrix with one column, assigned to bucket [1] of two with sign
    [+1], and the one-partition RDD holding it. *)
Definition single_column : ndarray float64 := float_array (NDArray 2 [[1; 2]]).
Definition single_draws : draws := Draws [1] [1].
Definition single_rdd : rdd (vector * (Z * Z)) :=
  [tagged_columns single_column single_draws].

(** Matrices with one row, whose sums binary64 cannot hold: [10^16 + 1] is
    no binary64 number. *)
Definition large_ints : ndarray Z := NDArray 1 [[10 ^ 16]; [1]].
Definition large_matrix : ndarray float64 := float_array large_ints.
Definition large_draws : draws := Draws [0; 0] [1; 1].

Definition cancelling_ints : ndarray Z := NDArray 1 [[10 ^ 16]; [1]; [- 10 ^ 16]].
Definition cancelling_matrix : ndarray float64 := float_array cancelling_ints.
Definition cancelling_draws : draws := Draws [0; 0; 0] [1; 1; 1].

Definition split_ints : ndarray Z := NDArray 1 [[1]; [10 ^ 16]; [1]].
Definition split_matrix : ndarray float64 := float_array split_ints.
Definition split_draws : draws := Draws [0; 0; 0] [1; 1; 1].

(** A row of nine numbers, and an installation in which [np.sum] adds nine
    numbers as numpy does along a contiguous axis: the first number, plus
    the sum by pairs of the other eight. *)
Definition ones_ints : ndarray Z :=
  NDArray 1 [[10 ^ 16]; [1]; [1]; [1]; [1]; [1]; [1]; [1]; [1]].
Definition ones_matrix : ndarray float64 := float_array ones_ints.
Definition ones_draws : draws := Draws (replicate 9 0) (replicate 9 1).

Definition pairwise_nine : plan :=
  Plus (Item 0)
    (Plus (Plus (Plus (Item 1) (Item 2)) (Plus (Item 3) (Item 4)))
          (Plus (Plus (Item 5) (Item 6)) (Plus (Item 7) (Item 8)))).

Definition pairwise_numpy : numpy :=
  Numpy (λ _ k, if decide (k = 9%nat) then pairwise_nine else left_to_right k) true.

(** Its columns [0] and [2], and its column [1], with their draws. *)
Definition split_outer : list (vector * (Z * Z)) :=
  [([float_of_int 1], (0, 1)); ([float_of_int 1], (0, 1))].
Definition split_middle : list (vector * (Z * Z)) :=
  [([float_of_int (10 ^ 16)], (0, 1))].

(** * Proofs *)

(** ** The error monad and loops *)

Lemma for_each_ext {A S : Type} (xs : list A) (f g : A → S → result S) st :
  (∀ x st, x ∈ xs → f x st = g x st) → for_each xs f st = for_each xs g st.
Proof.
  revert st. induction xs as [|x xs IH]; intros st H; [done|].
  simpl. rewrite H by left. destruct (g x st); simpl; [|done].
  apply IH. intros. apply H. by right.
Qed.

Lemma for_each_app {A S : Type} (xs ys : list A) (f : A → S → result S) st :
  for_each (xs ++ ys) f st = st' ← for_each xs f st; for_each ys f st'.
Proof.
  revert st. induction xs as [|x xs IH]; intros st; [done|].
  simpl. destruct (f x st); simpl; [apply IH|done].
Qed.

Lemma range_length n : length (range n) = Z.to_nat n.
Proof. unfold range. by rewrite length_fmap, length_seq. Qed.

Lemma range_succ (k : nat) : range (Z.of_nat (S k)) = range (Z.of_nat k) ++ [Z.of_nat k].
Proof.
  unfold range. rewrite !Nat2Z.id, seq_S, fmap_app. done.
Qed.

Lemma mapM_Ok {A B : Type} (f : A → result B) (g : A → B) l :
  (∀ x, x ∈ l → f x = Ok (g x)) → mapM f l = Ok (g <$> l).
Proof.
  induction l as [|x l IH]; intros H; [done|].
  simpl. rewrite H by left. simpl. rewrite IH; [done|].
  intros. apply H. by right.
Qed.

(** ** Binary64 numbers that are integers *)

Lemma dyadic_add m1 m2 e n1 n2 :
  dyadic m1 e n1 → dyadic m2 e n2 → dyadic (m1 + m2) e (n1 + n2).
Proof. intros [[? ->]|[? ->]] [[? ->]|[? ->]]; try lia; [left|right]; split; lia. Qed.

Lemma dyadic_opp m e n : dyadic m e n → dyadic (- m) e (- n).
Proof. intros [[? ->]|[? ->]]; [left|right]; split; lia. Qed.

Lemma dyadic_cond_Zopp s m e n :
  dyadic m e n → dyadic (cond_Zopp s m) e (cond_Zopp s n).
Proof. destruct s; simpl; [apply dyadic_opp|done]. Qed.

Lemma dyadic_shift d m e n :
  0 ≤ d → dyadic m e n → dyadic (m * 2 ^ d) (e - d) n.
Proof.
  intros Hd [[He ->]|[He ->]].
  - destruct (decide (0 ≤ e - d)); [left|right]; split; try lia.
    + rewrite <- Z.mul_assoc, <- Z.pow_add_r by lia. do 2 f_equal. lia.
    + rewrite <- !Z.mul_assoc, <- !Z.pow_add_r by lia. do 2 f_equal. lia.
  - right. split; [lia|].
    rewrite <- !Z.mul_assoc, <- !Z.pow_add_r by lia. do 2 f_equal. lia.
Qed.

Lemma dyadic_mul m1 e1 n1 m2 e2 n2 :
  dyadic m1 e1 n1 → dyadic m2 e2 n2 → dyadic (m1 * m2) (e1 + e2) (n1 * n2).
Proof.
  intros [[H1 ->]|[H1 ->]] [[H2 ->]|[H2 ->]].
  - left. split; [lia|]. rewrite Z.pow_add_r by lia. lia.
  - destruct (decide (0 ≤ e1 + e2)); [left|right]; split; try lia.
    + replace (2 ^ e1) with (2 ^ (e1 + e2) * 2 ^ (- e2)); [lia|].
      rewrite <- Z.pow_add_r by lia. f_equal. lia.
    + replace (2 ^ (- e2)) with (2 ^ e1 * 2 ^ (- (e1 + e2))); [lia|].
      rewrite <- Z.pow_add_r by lia. f_equal. lia.
  - destruct (decide (0 ≤ e1 + e2)); [left|right]; split; try lia.
    + replace (2 ^ e2) with (2 ^ (e1 + e2) * 2 ^ (- e1)); [lia|].
      rewrite <- Z.pow_add_r by lia. f_equal. lia.
    + replace (2 ^ (- e1)) with (2 ^ e2 * 2 ^ (- (e1 + e2))); [lia|].
      rewrite <- Z.pow_add_r by lia. f_equal. lia.
  - right. split; [lia|].
    replace (- (e1 + e2)) with (- e1 + - e2) by lia.
    rewrite Z.pow_add_r by lia. lia.
Qed.

Lemma dyadic_pos m e n : dyadic m e n → (0 < m ↔ 0 < n).
Proof.
  intros [[He ->]|[He ->]]; pose proof (Z.pow_pos_nonneg 2 e);
    pose proof (Z.pow_pos_nonneg 2 (- e)); nia.
Qed.

Lemma dyadic_zero m e n : dyadic m e n → (m = 0 ↔ n = 0).
Proof.
  intros [[He ->]|[He ->]]; pose proof (Z.pow_pos_nonneg 2 e);
    pose proof (Z.pow_pos_nonneg 2 (- e)); nia.
Qed.

(** The number of binary digits of a mantissa. *)
Lemma digits2_log2 m : Z.pos (digits2_pos m) = Z.log2 (Z.pos m) + 1.
Proof.
  induction m as [m IH|m IH|]; simpl digits2_pos.
  - rewrite Pos2Z.inj_succ, IH.
    change (Z.pos m~1) with (2 * Z.pos m + 1).
    rewrite Z.log2_succ_double by lia. lia.
  - rewrite Pos2Z.inj_succ, IH.
    change (Z.pos m~0) with (2 * Z.pos m).
    rewrite Z.log2_double by lia. lia.
  - done.
Qed.

Lemma dyadic_digits (m : positive) e n :
  dyadic (Z.pos m) e n → 0 < n → Z.pos (digits2_pos m) + e = Z.log2 n + 1.
Proof.
  intros [[He ->]|[He Hm]] Hn; rewrite digits2_log2.
  - rewrite Z.log2_mul_pow2 by lia. lia.
  - rewrite Hm, Z.log2_mul_pow2 by lia. lia.
Qed.

Lemma fexp_small n :
  0 < n < 2 ^ 53 →
  fexp prec emax (Z.log2 n + 1) = Z.log2 n - 52 ∧ -52 ≤ Z.log2 n - 52 ≤ 0.
Proof.
  intros Hn. pose proof (Z.log2_nonneg n).
  assert (Z.log2 n < 53) by (apply Z.log2_lt_pow2; lia).
  unfold fexp, emin, prec, emax. lia.
Qed.

(** Shifting a mantissa to the right loses nothing when the bits shifted
    out are zero. *)
Lemma iter_pos_nat {A : Type} (f : A → A) p x :
  SpecFloat.iter_pos f p x = Nat.iter (Pos.to_nat p) f x.
Proof.
  revert x. induction p as [p IH|p IH|]; intros x; simpl SpecFloat.iter_pos.
  - rewrite !IH, Pos2Nat.inj_xI.
    replace (S (2 * Pos.to_nat p)) with (Pos.to_nat p + (Pos.to_nat p + 1))%nat by lia.
    rewrite !Nat.iter_add. simpl. done.
  - rewrite !IH, Pos2Nat.inj_xO.
    replace (2 * Pos.to_nat p)%nat with (Pos.to_nat p + Pos.to_nat p)%nat by lia.
    by rewrite Nat.iter_add.
  - done.
Qed.

Lemma shr_1_exact (n : nat) (m : Z) :
  0 < m →
  Nat.iter n shr_1 {| shr_m := m * 2 ^ Z.of_nat n; shr_r := false; shr_s := false |}
  = {| shr_m := m; shr_r := false; shr_s := false |}.
Proof.
  intros Hm. induction n as [|n IH].
  - simpl. f_equal. lia.
  - rewrite Nat.iter_succ_r.
    replace (m * 2 ^ Z.of_nat (S n)) with (2 * (m * 2 ^ Z.of_nat n)); last first.
    { rewrite Nat2Z.inj_succ, Z.pow_succ_r by lia. lia. }
    assert (0 < m * 2 ^ Z.of_nat n) as Hpos by (apply Z.mul_pos_pos; lia).
    destruct (m * 2 ^ Z.of_nat n) as [|q|q] eqn:E; try lia.
    change (2 * Z.pos q) with (Z.pos q~0). exact IH.
Qed.

Lemma shr_fexp_stable (M : positive) e :
  fexp prec emax (Z.pos (digits2_pos M) + e) - e ≤ 0 →
  shr_fexp prec emax (Z.pos M) e loc_Exact
  = ({| shr_m := Z.pos M; shr_r := false; shr_s := false |}, e).
Proof.
  intros H. unfold shr_fexp, shr. simpl Zdigits2. simpl shr_record_of_loc.
  destruct (fexp prec emax (Z.pos (digits2_pos M) + e) - e); first [done|lia].
Qed.

Lemma shr_fexp_exact (M : positive) e n :
  0 < n < 2 ^ 53 → dyadic (Z.pos M) e n →
  ∃ (M' : positive) e',
    shr_fexp prec emax (Z.pos M) e loc_Exact
    = ({| shr_m := Z.pos M'; shr_r := false; shr_s := false |}, e')
    ∧ dyadic (Z.pos M') e' n
    ∧ fexp prec emax (Z.pos (digits2_pos M') + e') - e' ≤ 0.
Proof.
  intros Hn Hd.
  pose proof (dyadic_digits _ _ _ Hd (proj1 Hn)) as Hdig.
  destruct (fexp_small n Hn) as [Hf Hr].
  destruct (decide (fexp prec emax (Z.pos (digits2_pos M) + e) - e ≤ 0)) as [Hle|Hgt].
  - exists M, e. by rewrite shr_fexp_stable.
  - rewrite Hdig, Hf in Hgt.
    destruct Hd as [[He _]|[He HM]]; [lia|].
    unfold shr_fexp, shr. simpl Zdigits2. simpl shr_record_of_loc.
    rewrite Hdig, Hf.
    destruct (Z.log2 n - 52 - e) as [|p|p] eqn:Ep; try lia.
    rewrite iter_pos_nat.
    assert (0 < n * 2 ^ (- (Z.log2 n - 52))) as Hpos.
    { apply Z.mul_pos_pos; [lia|]. apply Z.pow_pos_nonneg; lia. }
    destruct (n * 2 ^ (- (Z.log2 n - 52))) as [|M'|] eqn:EM; try lia.
    exists M', (e + Z.pos p).
    assert (Z.pos M = Z.pos M' * 2 ^ Z.of_nat (Pos.to_nat p)) as ->.
    { rewrite HM, <- EM, <- Z.mul_assoc, <- Z.pow_add_r by lia.
      do 2 f_equal. lia. }
    rewrite shr_1_exact by lia. split; [done|].
    assert (dyadic (Z.pos M') (e + Z.pos p) n) as Hd'.
    { destruct (decide (0 ≤ e + Z.pos p)); [left|right]; split; try lia.
      - replace (e + Z.pos p) with 0 by lia.
        rewrite <- EM. replace (- (Z.log2 n - 52)) with 0 by lia. lia.
      - rewrite <- EM. do 2 f_equal. lia. }
    split; [done|].
    rewrite (dyadic_digits _ _ _ Hd' (proj1 Hn)), Hf. lia.
Qed.

Lemma int_value_finite s (M : positive) e n :
  dyadic (Z.pos M) e n → int_value (S754_finite s M e) = Some (cond_Zopp s n).
Proof.
  intros [[He ->]|[He HM]]; simpl.
  - by rewrite bool_decide_true.
  - rewrite bool_decide_false by lia.
    assert (0 < 2 ^ (- e)) by (apply Z.pow_pos_nonneg; lia).
    rewrite HM, Z.mod_mul, Z.div_mul by lia.
    by rewrite bool_decide_true.
Qed.

Lemma int_value_finite_inv s (M : positive) e a :
  int_value (S754_finite s M e) = Some a →
  ∃ n, a = cond_Zopp s n ∧ dyadic (Z.pos M) e n.
Proof.
  simpl. case_bool_decide as He.
  - intros [= <-]. eexists. split; [done|]. left. done.
  - case_bool_decide as Hm; [|done]. intros [= <-].
    eexists. split; [done|]. right. split; [lia|].
    assert (0 < 2 ^ (- e)) by (apply Z.pow_pos_nonneg; lia).
    rewrite Z.mul_comm. apply Z.div_exact; lia.
Qed.

(** Rounding a positive integer below [2^53] returns it. *)
Lemma binary_round_aux_exact s (M : positive) e n :
  0 < n < 2 ^ 53 → dyadic (Z.pos M) e n →
  int_value (binary_round_aux prec emax s (Z.pos M) e loc_Exact)
  = Some (cond_Zopp s n).
Proof.
  intros Hn Hd.
  destruct (shr_fexp_exact M e n Hn Hd) as (M' & e' & Hshr & Hd' & Hst).
  unfold binary_round_aux. rewrite Hshr. simpl.
  rewrite shr_fexp_stable by done. simpl.
  assert (e' ≤ emax - prec) as He'.
  { pose proof (dyadic_digits _ _ _ Hd' (proj1 Hn)) as Hdig.
    destruct (fexp_small n Hn) as [Hf Hr].
    rewrite Hdig, Hf in Hst.
    destruct Hd' as [[H0 Hv]|[H0 _]]; unfold emax, prec; [|lia].
    destruct (decide (e' ≤ 52)); [lia|].
    assert (2 ^ 53 ≤ 2 ^ e') by (apply Z.pow_le_mono_r; lia). nia. }
  apply Z.leb_le in He'. rewrite He'.
  by apply int_value_finite.
Qed.

Lemma shl_align_dyadic (M : positive) e e0 n :
  dyadic (Z.pos M) e n →
  dyadic (Z.pos (shl_align M e e0).1) (shl_align M e e0).2 n.
Proof.
  intros Hd. unfold shl_align.
  destruct (e0 - e) as [|d|d] eqn:E; simpl; try done.
  change (Pos.iter xO M d) with (shift_pos d M).
  rewrite shift_pos_correct, Z.mul_comm.
  replace e0 with (e - Z.pos d) by lia.
  apply dyadic_shift; [lia|done].
Qed.

Lemma shl_align_exponent (M : positive) e e0 :
  e0 ≤ e → (shl_align M e e0).2 = e0.
Proof. intros H. unfold shl_align. destruct (e0 - e) eqn:E; simpl; lia. Qed.

Lemma binary_round_exact s (M : positive) e n :
  0 < n < 2 ^ 53 → dyadic (Z.pos M) e n →
  int_value (binary_round prec emax s M e) = Some (cond_Zopp s n).
Proof.
  intros Hn Hd. unfold binary_round.
  pose proof (shl_align_dyadic M e
                (fexp prec emax (Z.pos (digits2_pos M) + e)) n Hd) as Hd'.
  destruct (shl_align M e _) as [mz ez]. simpl in Hd'.
  by apply binary_round_aux_exact.
Qed.

Lemma binary_normalize_exact m e n :
  - 2 ^ 53 < n < 2 ^ 53 → dyadic m e n →
  int_value (binary_normalize prec emax m e false) = Some n.
Proof.
  intros Hn Hd. destruct m as [|M|M]; simpl.
  - f_equal. symmetry. by apply (dyadic_zero _ _ _ Hd).
  - assert (0 < n) by (by apply (dyadic_pos _ _ _ Hd)).
    by rewrite (binary_round_exact false M e n) by (done || lia).
  - apply dyadic_opp in Hd. simpl in Hd.
    assert (0 < - n) by (by apply (dyadic_pos _ _ _ Hd)).
    rewrite (binary_round_exact true M e (- n)) by (done || lia).
    simpl. f_equal. lia.
Qed.

(** The [float64] of an integer of magnitude below [2^53] is that
    integer. *)
Lemma int_value_float_of_int n :
  - 2 ^ 53 < n < 2 ^ 53 → int_value (float_of_int n) = Some n.
Proof.
  intros Hn. apply binary_normalize_exact; [done|]. left. split; lia.
Qed.

(** A sum of magnitude below [2^53] of two integers is not rounded. *)
Lemma int_value_fadd x y a b :
  int_value x = Some a → int_value y = Some b →
  - 2 ^ 53 < a + b < 2 ^ 53 →
  int_value (fadd x y) = Some (a + b).
Proof.
  intros Hx Hy Hab.
  destruct x as [sx|?| |sx mx ex], y as [sy|?| |sy my ey]; try done.
  - simpl in *. simplify_eq. by destruct sx, sy.
  - simpl in Hx. simplify_eq. exact Hy.
  - simpl in Hy. simplify_eq. rewrite Z.add_0_r. exact Hx.
  - apply int_value_finite_inv in Hx as (n1 & -> & H1).
    apply int_value_finite_inv in Hy as (n2 & -> & H2).
    unfold fadd, SFadd.
    apply binary_normalize_exact; [done|].
    apply dyadic_add; apply dyadic_cond_Zopp.
    + pose proof (shl_align_dyadic mx ex (Z.min ex ey) n1 H1) as H.
      by rewrite shl_align_exponent in H by lia.
    + pose proof (shl_align_dyadic my ey (Z.min ex ey) n2 H2) as H.
      by rewrite shl_align_exponent in H by lia.
Qed.

Lemma cond_Zopp_mul s1 s2 a b :
  cond_Zopp s1 a * cond_Zopp s2 b = cond_Zopp (xorb s1 s2) (a * b).
Proof. destruct s1, s2; simpl; lia. Qed.

(** Nor is a product of magnitude below [2^53]. *)
Lemma int_value_fmul x y a b :
  int_value x = Some a → int_value y = Some b →
  - 2 ^ 53 < a * b < 2 ^ 53 →
  int_value (fmul x y) = Some (a * b).
Proof.
  intros Hx Hy Hab.
  destruct x as [sx|?| |sx mx ex], y as [sy|?| |sy my ey]; try done.
  - simpl in *. simplify_eq. done.
  - simpl in Hx. simplify_eq. done.
  - simpl in Hy. simplify_eq. simpl. f_equal. lia.
  - apply int_value_finite_inv in Hx as (n1 & -> & H1).
    apply int_value_finite_inv in Hy as (n2 & -> & H2).
    unfold fmul, SFmul. rewrite cond_Zopp_mul in *.
    assert (0 < n1) by (by apply (dyadic_pos _ _ _ H1)).
    assert (0 < n2) by (by apply (dyadic_pos _ _ _ H2)).
    apply binary_round_aux_exact.
    + destruct (xorb sx sy); simpl in Hab; nia.
    + rewrite Pos2Z.inj_mul. by apply dyadic_mul.
Qed.

(** Adding [0.0] changes nothing but the sign of [-0.0]. *)
Lemma fadd_zero_r x : x ≠ S754_zero true → fadd x fzero = x.
Proof. destruct x as [[]| | |]; done. Qed.

Lemma fadd_zero_l x : x ≠ S754_zero true → fadd fzero x = x.
Proof. destruct x as [[]| | |]; done. Qed.

Lemma fmul_comm x y : fmul x y = fmul y x.
Proof.
  destruct x as [sx|sx| |sx mx ex], y as [sy|sy| |sy my ey]; simpl;
    rewrite 1?(xorb_comm sx sy); try done.
  by rewrite Pos.mul_comm, Z.add_comm.
Qed.

(** ** Orders of summation *)

Lemma run_plan_no_items p xs : items p = [] → run_plan p xs = fzero.
Proof.
  induction p as [|j|p IHp q IHq]; simpl; [done|done|].
  intros H. apply app_eq_nil in H as [Hp Hq]. by rewrite IHp, IHq.
Qed.

Lemma run_plan_empty p xs : valid_plan 0 p → run_plan p xs = fzero.
Proof.
  intros H. apply run_plan_no_items. by apply Permutation_nil_r.
Qed.

Lemma run_plan_single p x :
  valid_plan 1 p → x ≠ S754_zero true → run_plan p [x] = x.
Proof.
  unfold valid_plan. simpl. intros Hp Hx.
  induction p as [|j|p IHp q IHq]; simpl in *.
  - by apply Permutation_nil_cons in Hp.
  - apply Permutation_singleton_r in Hp. by simplify_eq.
  - apply Permutation_singleton_r in Hp.
    apply app_eq_unit in Hp as [[Hp Hq]|[Hp Hq]].
    + rewrite (run_plan_no_items p) by done.
      rewrite IHq by (by rewrite Hq). by apply fadd_zero_l.
    + rewrite (run_plan_no_items q) by done.
      rewrite IHp by (by rewrite Hp). by apply fadd_zero_r.
Qed.

Lemma items_left_to_right k : items (left_to_right k) = seq 0 k.
Proof.
  induction k as [|[|k] IH]; [done|done|].
  change (items (left_to_right (S (S k))))
    with (items (left_to_right (S k)) ++ [S k]).
  rewrite IH. by rewrite (seq_S (S k)).
Qed.

Lemma example_numpy_valid : valid_numpy example_numpy.
Proof. intros r k. unfold valid_plan. simpl. by rewrite items_left_to_right. Qed.

Lemma example_spark_valid : valid_spark example_spark.
Proof. split; done. Qed.

(** ** Indexing *)

Lemma normalize_index_in_range len i :
  0 ≤ i < Z.of_nat len → normalize_index len i = Ok (Z.to_nat i).
Proof. intros H. unfold normalize_index. by rewrite bool_decide_true. Qed.

Lemma normalize_index_lt len i k : normalize_index len i = Ok k → (k < len)%nat.
Proof.
  unfold normalize_index. case_bool_decide; [|case_bool_decide]; [| |done];
    intros [= <-]; lia.
Qed.

Lemma set_column_in_range {T : Type} m (cols : list (list T)) (k : nat) v :
  (k < length cols)%nat → length v = m →
  set_column (NDArray m cols) (Z.of_nat k) v = Ok (NDArray m (<[k := v]> cols)).
Proof.
  intros Hk Hv. unfold set_column. simpl.
  rewrite normalize_index_in_range by lia. simpl.
  rewrite bool_decide_true by done. by rewrite Nat2Z.id.
Qed.

Lemma get_item_in_range (l : list Z) (k : nat) x :
  l !! k = Some x → get_item l (Z.of_nat k) = Ok x.
Proof.
  intros Hk. unfold get_item.
  rewrite normalize_index_in_range by (apply lookup_lt_Some in Hk; lia).
  simpl. by rewrite Nat2Z.id, Hk.
Qed.

Lemma get_column_in_range {T : Type} (A : ndarray T) (k : nat) c :
  columns A !! k = Some c → get_column A (Z.of_nat k) = Ok c.
Proof.
  intros Hk. unfold get_column.
  rewrite normalize_index_in_range by (apply lookup_lt_Some in Hk; lia).
  simpl. by rewrite Nat2Z.id, Hk.
Qed.

Lemma lookup_range (n : nat) (i : nat) :
  (i < n)%nat → range (Z.of_nat n) !! i = Some (Z.of_nat i).
Proof.
  intros Hi. unfold range. rewrite list_lookup_fmap, Nat2Z.id.
  by rewrite lookup_seq_lt.
Qed.

Lemma elem_of_range i n : i ∈ range n ↔ 0 ≤ i < n.
Proof.
  unfold range. rewrite list_elem_of_fmap. split.
  - intros (k & -> & Hk). apply elem_of_seq in Hk. lia.
  - intros Hi. exists (Z.to_nat i). split; [lia|]. apply elem_of_seq. lia.
Qed.

Lemma NoDup_range s : NoDup (range s).
Proof. unfold range. apply NoDup_fmap; [apply _|apply NoDup_seq]. Qed.

Lemma insert_tabulated {B : Type} (F F' : Z → B) s h :
  0 ≤ h < s → (∀ i, i ≠ h → F' i = F i) →
  <[Z.to_nat h := F' h]> (F <$> range s) = F' <$> range s.
Proof.
  intros Hh HF. apply list_eq. intros i.
  destruct (decide (i = Z.to_nat h)) as [->|Hne].
  - rewrite list_lookup_insert_eq by (rewrite length_fmap, range_length; lia).
    rewrite list_lookup_fmap. rewrite <- (Z2Nat.id s) by lia.
    rewrite lookup_range by lia. simpl. by rewrite Z2Nat.id by lia.
  - rewrite list_lookup_insert_ne by done. rewrite !list_lookup_fmap.
    destruct (range s !! i) as [x|] eqn:E; simpl; [|done].
    f_equal. symmetry. apply HF.
    unfold range in E. rewrite list_lookup_fmap in E.
    destruct (seq 0 (Z.to_nat s) !! i) as [y|] eqn:E'; simplify_eq/=.
    apply lookup_seq in E'. lia.
Qed.

Lemma get_column_tabulate {T : Type} m s (E : Z → nat → T) h :
  0 ≤ h < s → get_column (tabulate m s E) h = Ok (E h <$> seq 0 m).
Proof.
  intros Hh. unfold get_column, tabulate. simpl.
  rewrite length_fmap, range_length.
  rewrite normalize_index_in_range by lia. simpl.
  rewrite list_lookup_fmap. rewrite <- (Z2Nat.id s) by lia.
  rewrite lookup_range by lia. simpl. by rewrite Z2Nat.id by lia.
Qed.

Lemma nth_tabulate_column {T : Type} m s (E : Z → nat → T) (k : Z) :
  0 ≤ k < s → nth (Z.to_nat k) (columns (tabulate m s E)) [] = E k <$> seq 0 m.
Proof.
  intros Hk. unfold tabulate. simpl.
  rewrite nth_lookup, list_lookup_fmap.
  rewrite <- (Z2Nat.id s) by lia. rewrite lookup_range by lia. simpl.
  by rewrite Z2Nat.id by lia.
Qed.

Lemma tabulate_shape {T : Type} m s (E : Z → nat → T) :
  shape (tabulate m s E) = (m, Z.to_nat s) ∧ wf_ndarray (tabulate m s E).
Proof.
  unfold shape, wf_ndarray, tabulate. simpl. split.
  - by rewrite length_fmap, range_length.
  - apply Forall_fmap, Forall_forall. intros i _. simpl.
    by rewrite length_fmap, length_seq.
Qed.

Lemma tabulate_ext {T : Type} m s (E E' : Z → nat → T) :
  (∀ i r, 0 ≤ i < s → (r < m)%nat → E i r = E' i r) →
  tabulate m s E = tabulate m s E'.
Proof.
  intros H. unfold tabulate. f_equal.
  apply Forall_fmap_ext_1, Forall_forall. intros i Hi.
  apply elem_of_range in Hi.
  apply Forall_fmap_ext_1, Forall_forall. intros r Hr.
  apply elem_of_seq in Hr. apply H; lia.
Qed.

Lemma tabulate_loop {T : Type} m (z : list T) (F : Z → list T) (len k : nat) pre :
  (∀ i, length (F i) = m) → length pre = k →
  for_each (Z.of_nat <$> seq k len) (λ i C, set_column C i (F i))
    (NDArray m (pre ++ replicate len z))
  = Ok (NDArray m (pre ++ (F <$> (Z.of_nat <$> seq k len)))).
Proof.
  intros HF. revert k pre. induction len as [|len IH]; intros k pre Hpre.
  - simpl. done.
  - simpl. rewrite set_column_in_range; [|rewrite length_app; simpl; lia|done].
    simpl. rewrite insert_app_r_alt by lia.
    replace (k - length pre)%nat with 0%nat by lia. simpl.
    rewrite !(cons_middle (F (Z.of_nat k)) pre), !app_assoc.
    apply IH. rewrite length_app. simpl. lia.
Qed.

Lemma tabulate_zero m s :
  NDArray m (replicate (Z.to_nat s) (zeros m)) = tabulate m s (λ _ _, fzero).
Proof.
  unfold tabulate, zeros, range. f_equal.
  rewrite <- list_fmap_compose.
  apply list_eq. intros i. rewrite list_lookup_fmap.
  destruct (decide (i < Z.to_nat s)%nat).
  - rewrite lookup_replicate_2, lookup_seq_lt by done. simpl. f_equal.
    clear. induction m as [|m IHm]; [done|].
    rewrite replicate_S_end, seq_S, fmap_app, <- IHm. done.
  - rewrite lookup_seq_ge by lia. apply lookup_replicate_None. lia.
Qed.

Lemma vector_tabulate {T : Type} (d : T) (v : list T) m :
  length v = m → v = (λ r, nth r v d) <$> seq 0 m.
Proof.
  intros <-. apply list_eq. intros i. rewrite list_lookup_fmap.
  destruct (decide (i < length v)%nat) as [Hi|Hi].
  - rewrite lookup_seq_lt by done. simpl.
    destruct (lookup_lt_is_Some_2 v i Hi) as [x Hx].
    rewrite Hx. f_equal. by rewrite nth_lookup, Hx.
  - rewrite lookup_seq_ge by lia. simpl. apply lookup_ge_None. lia.
Qed.

(** ** The contract of the generator *)

Lemma valid_draws_lengths {T : Type} (matrixA : ndarray T) s rnd :
  valid_draws matrixA s rnd →
  length (drawn_buckets rnd) = length (columns matrixA)
  ∧ length (drawn_bits rnd) = length (columns matrixA)
  ∧ Forall (λ h, 0 ≤ h < s) (drawn_buckets rnd)
  ∧ Forall (λ b, 0 ≤ b < 2) (drawn_bits rnd).
Proof. intros [[? ?] [? ?]]. repeat split; (lia || done). Qed.

Lemma signs_of_lookup rnd j g :
  Forall (λ b, 0 ≤ b < 2) (drawn_bits rnd) →
  signs_of rnd !! j = Some g → g = 1 ∨ g = -1.
Proof.
  intros Hb. unfold signs_of. rewrite list_lookup_fmap.
  destruct (drawn_bits rnd !! j) as [b|] eqn:E; simpl; [|done].
  intros [= <-]. pose proof (Forall_lookup_1 _ _ _ _ Hb E) as Hr. simpl in Hr. lia.
Qed.

Lemma signs_of_Forall rnd :
  Forall (λ b, 0 ≤ b < 2) (drawn_bits rnd) →
  Forall (λ g, g = 1 ∨ g = -1) (signs_of rnd).
Proof.
  intros Hb. unfold signs_of. apply Forall_fmap.
  eapply Forall_impl; [exact Hb|]. simpl. lia.
Qed.

Lemma random_choice_drawn np a size drawn :
  0 < a → 0 ≤ size → random_choice np a size drawn = Ok drawn.
Proof.
  intros Ha Hs. unfold random_choice. by rewrite !bool_decide_false by lia.
Qed.

(** ** The in-memory implementation in closed form *)

Lemma masked_cons {A : Type} (b : bool) mask (x : A) l :
  masked (b :: mask) (x :: l) = if b then x :: masked mask l else masked mask l.
Proof.
  unfold masked. simpl. rewrite filter_cons. simpl.
  destruct b; [by rewrite decide_True|by rewrite decide_False].
Qed.

Lemma masked_nil_l {A : Type} (l : list A) : masked [] l = [].
Proof. unfold masked. by destruct l. Qed.

Lemma masked_nil_r {A : Type} mask : masked mask (@nil A) = [].
Proof. done. Qed.

Lemma masked_fmap {A B : Type} (f : A → B) mask l :
  masked mask (f <$> l) = f <$> masked mask l.
Proof.
  revert mask. induction l as [|x l IH]; intros [|b mask]; try done.
  rewrite fmap_cons, !masked_cons, IH. by destruct b.
Qed.

Lemma masked_zip {A B : Type} mask (l : list A) (k : list B) :
  masked mask (zip l k) = zip (masked mask l) (masked mask k).
Proof.
  revert mask k. induction l as [|x l IH]; intros mask k.
  - done.
  - destruct k as [|y k].
    { simpl. rewrite masked_nil_r. by destruct (masked mask (x :: l)). }
    destruct mask as [|b mask]. { by rewrite !masked_nil_l. }
    simpl. rewrite !masked_cons, IH. by destruct b.
Qed.

Lemma masked_length {A B : Type} mask (l : list A) (k : list B) :
  length l = length k → length (masked mask l) = length (masked mask k).
Proof.
  revert mask k. induction l as [|x l IH]; intros mask [|y k] Hl;
    simplify_eq/=; [done|].
  destruct mask as [|b mask]. { by rewrite !masked_nil_l. }
  rewrite !masked_cons. destruct b; simpl; auto.
Qed.

Lemma masked_Forall {A : Type} (P : A → Prop) mask l :
  Forall P l → Forall P (masked mask l).
Proof.
  intros H. revert mask. induction H as [|x l Hx Hl IH]; intros [|b mask];
    try by constructor.
  rewrite masked_cons. destruct b; [constructor|]; auto.
Qed.

Lemma np_sum_axis1_selected np m (cols : list vector) hs gs i :
  np_sum_axis1 np
    (NDArray m (masked (eq_mask hs i)
       (zip_with (λ (c : vector) g, (λ x, fmul x (float_of_int g)) <$> c) cols gs)))
  = summed np cols hs gs i <$> seq 0 m.
Proof.
  unfold np_sum_axis1, summed, bucket_addends, row. simpl.
  apply list_fmap_ext. intros _ r _. by rewrite length_fmap.
Qed.

(** The in-memory sketcher computes the sums of the addends of every
    entry. *)
Lemma countSketchInMemroy_closed np matrixA s rnd :
  0 < s →
  length (drawn_buckets rnd) = length (columns matrixA) →
  length (drawn_bits rnd) = length (columns matrixA) →
  countSketchInMemroy np matrixA s rnd
  = Ok (tabulate (nrows matrixA) s
          (summed np (columns matrixA) (drawn_buckets rnd) (signs_of rnd))).
Proof.
  intros Hs Hh Hb. unfold countSketchInMemroy, shape, np_zeros.
  rewrite bool_decide_false by lia. simpl.
  rewrite !random_choice_drawn by lia. simpl.
  unfold reshape_row. rewrite bool_decide_true by (by rewrite length_fmap). simpl.
  rewrite (for_each_ext _ _ (λ i C, set_column C i
     (summed np (columns matrixA) (drawn_buckets rnd) (signs_of rnd) i
        <$> seq 0 (nrows matrixA)))).
  - unfold range.
    apply (tabulate_loop (nrows matrixA) (zeros (nrows matrixA))
             (λ i, summed np (columns matrixA) (drawn_buckets rnd) (signs_of rnd) i
                     <$> seq 0 (nrows matrixA)) (Z.to_nat s) 0 []); [|done].
    intros i. by rewrite length_fmap, length_seq.
  - intros i C _. unfold select_columns, eq_mask, mul_broadcast. simpl.
    rewrite bool_decide_true; last first.
    { rewrite length_fmap, length_zip_with, length_fmap. lia. }
    simpl. f_equal. apply np_sum_axis1_selected.
Qed.

(** ** The streaming implementation in closed form *)

Lemma iadd_column_tabulate m s E h (v : vector) :
  0 ≤ h < s → length v = m →
  iadd_column (tabulate m s E) h v
  = Ok (tabulate m s
          (λ i r, if bool_decide (h = i) then fadd (E i r) (nth r v fzero) else E i r)).
Proof.
  intros Hh Hv. unfold iadd_column. rewrite get_column_tabulate by done. simpl.
  rewrite bool_decide_true by (by rewrite length_fmap, length_seq).
  unfold set_column, tabulate. simpl.
  rewrite length_fmap, range_length.
  rewrite normalize_index_in_range by lia. simpl.
  rewrite bool_decide_true; last first.
  { rewrite length_zip_with, length_fmap, length_seq. lia. }
  f_equal. f_equal.
  rewrite <- (insert_tabulated (λ i, E i <$> seq 0 m)
                (λ i, (λ r, if bool_decide (h = i) then fadd (E i r) (nth r v fzero)
                            else E i r) <$> seq 0 m)) with (h := h); [|done|].
  - f_equal. rewrite (vector_tabulate fzero v m) at 1 by done.
    rewrite zip_with_fmap_l, zip_with_fmap_r, zip_with_diag.
    apply list_fmap_ext. intros _ r _.
    by rewrite bool_decide_true.
  - intros i Hi. apply list_fmap_ext. intros _ r _.
    by rewrite bool_decide_false.
Qed.

Lemma addends_snoc tagged x i r :
  addends (tagged ++ [x]) i r
  = addends tagged i r
    ++ (if bool_decide (x.2.1 = i)
        then [fmul (float_of_int x.2.2) (nth r x.1 fzero)] else []).
Proof.
  unfold addends. rewrite omap_app. f_equal. simpl. by case_bool_decide.
Qed.

Lemma nth_scale g (a : vector) r :
  (r < length a)%nat → nth r (scale g a) fzero = fmul (float_of_int g) (nth r a fzero).
Proof.
  intros Hr. unfold scale. rewrite !nth_lookup, list_lookup_fmap.
  destruct (lookup_lt_is_Some_2 a r Hr) as [x ->]. done.
Qed.

(** The accumulator after the first [k] columns. *)
Lemma countSketchStreaming_prefix matrixA s hs gs (k : nat) :
  0 < s → wf_ndarray matrixA →
  length hs = length (columns matrixA) →
  length gs = length (columns matrixA) →
  Forall (λ h, 0 ≤ h < s) hs →
  (k ≤ length (columns matrixA))%nat →
  for_each (range (Z.of_nat k)) (countSketchStreaming_step matrixA hs gs)
    (tabulate (nrows matrixA) s (λ _ _, fzero))
  = Ok (tabulate (nrows matrixA) s
          (accumulated (take k (zip (columns matrixA) (zip hs gs))))).
Proof.
  intros Hs Hwf Hh Hg Hrange. induction k as [|k IH]; intros Hk.
  - simpl. done.
  - rewrite range_succ, for_each_app, IH by lia. simpl.
    destruct (lookup_lt_is_Some_2 (columns matrixA) k) as [a Ha]; [lia|].
    destruct (lookup_lt_is_Some_2 hs k) as [h Hhk]; [lia|].
    destruct (lookup_lt_is_Some_2 gs k) as [g Hgk]; [lia|].
    unfold countSketchStreaming_step.
    rewrite (get_column_in_range _ _ _ Ha). simpl.
    rewrite (get_item_in_range _ _ _ Hhk). simpl.
    rewrite (get_item_in_range _ _ _ Hgk). simpl.
    pose proof (Forall_lookup_1 _ _ _ _ Hrange Hhk) as Hhs. simpl in Hhs.
    pose proof (Forall_lookup_1 _ _ _ _ Hwf Ha) as Hla. simpl in Hla.
    rewrite iadd_column_tabulate; [|done|by unfold scale; rewrite length_fmap].
    simpl. f_equal. apply tabulate_ext. intros i r Hi Hr.
    rewrite (take_S_r _ _ (a, (h, g))).
    + unfold accumulated. rewrite addends_snoc. simpl.
      case_bool_decide.
      * rewrite foldl_app. simpl. by rewrite nth_scale by lia.
      * by rewrite app_nil_r.
    + rewrite lookup_zip_with, Ha. simpl.
      rewrite lookup_zip_with, Hhk. simpl. by rewrite Hgk.
Qed.

(** The streaming sketcher adds the addends of every entry one after the
    other. *)
Lemma countSketchStreaming_closed np matrixA s rnd :
  0 < s → wf_ndarray matrixA →
  length (drawn_buckets rnd) = length (columns matrixA) →
  length (drawn_bits rnd) = length (columns matrixA) →
  Forall (λ h, 0 ≤ h < s) (drawn_buckets rnd) →
  countSketchStreaming np matrixA s rnd
  = Ok (tabulate (nrows matrixA) s
          (accumulated (zip (columns matrixA) (zip (drawn_buckets rnd) (signs_of rnd))))).
Proof.
  intros Hs Hwf Hh Hb Hr. unfold countSketchStreaming, shape, np_zeros.
  rewrite bool_decide_false by lia. simpl.
  rewrite !random_choice_drawn by lia. simpl.
  rewrite tabulate_zero. fold (signs_of rnd).
  rewrite countSketchStreaming_prefix;
    [|done..|by unfold signs_of; rewrite length_fmap|done|done].
  rewrite take_ge; [done|].
  unfold signs_of. rewrite !length_zip_with, length_fmap. lia.
Qed.

(** ** Sums of integers *)

#[local] Arguments Exact.Zsum : simpl never.

Section exact_sums.
Import Exact.

Lemma Zsum_nil : Zsum [] = 0.
Proof. reflexivity. Qed.

Lemma Zsum_cons x l : Zsum (x :: l) = x + Zsum l.
Proof. reflexivity. Qed.

Lemma Zsum_app l1 l2 : Zsum (l1 ++ l2) = Zsum l1 + Zsum l2.
Proof.
  induction l1 as [|x l1 IH]; [done|].
  rewrite <- app_comm_cons, !Zsum_cons, IH. lia.
Qed.

Lemma Zsum_Permutation l1 l2 : l1 ≡ₚ l2 → Zsum l1 = Zsum l2.
Proof. induction 1; rewrite ?Zsum_cons; lia. Qed.

Lemma Zsum_abs l : Z.abs (Zsum l) ≤ Zsum (Z.abs <$> l).
Proof.
  induction l as [|x l IH]; [done|]. rewrite fmap_cons, !Zsum_cons. lia.
Qed.

Lemma Zsum_abs_nonneg l : 0 ≤ Zsum (Z.abs <$> l).
Proof.
  induction l as [|x l IH]; [done|]. rewrite fmap_cons, !Zsum_cons. lia.
Qed.

Lemma entry_sum_snoc tagged x i r :
  entry_sum (tagged ++ [x]) i r = entry_sum tagged i r + bucket_term i r x.
Proof.
  unfold entry_sum. rewrite fmap_app, Zsum_app. simpl.
  rewrite Zsum_cons, Zsum_nil. lia.
Qed.

Lemma entry_sum_cons x tagged i r :
  entry_sum (x :: tagged) i r = bucket_term i r x + entry_sum tagged i r.
Proof. reflexivity. Qed.

(** The terms of an entry add up to it, and they are entries of the row,
    up to their sign. *)
Lemma exact_addends_cons x tagged i r :
  addends (x :: tagged) i r
  = (if bool_decide (x.2.1 = i) then [x.2.2 * nth r x.1 0] else [])
    ++ addends tagged i r.
Proof. unfold addends. simpl. by case_bool_decide. Qed.

Lemma Zsum_addends tagged i r : Zsum (addends tagged i r) = entry_sum tagged i r.
Proof.
  induction tagged as [|x l IH]; [done|].
  rewrite entry_sum_cons, <- IH, exact_addends_cons. unfold bucket_term.
  case_bool_decide; simpl; rewrite ?Zsum_cons; lia.
Qed.

Lemma Zsum_abs_addends tagged i r :
  Forall (λ x : list Z * (Z * Z), x.2.2 = 1 ∨ x.2.2 = -1) tagged →
  Zsum (Z.abs <$> addends tagged i r)
  ≤ Zsum (Z.abs <$> ((λ x : list Z * (Z * Z), nth r x.1 0) <$> tagged)).
Proof.
  induction 1 as [|x l Hx Hl IH]; [done|].
  rewrite exact_addends_cons, !fmap_cons, Zsum_cons.
  case_bool_decide.
  - rewrite fmap_app, Zsum_app, fmap_cons, fmap_nil, Zsum_cons, Zsum_nil.
    destruct Hx as [-> | ->]; lia.
  - rewrite app_nil_l. lia.
Qed.

End exact_sums.

(** ** Integer values of floating-point computations *)

Lemma int_value_nth (xs : vector) (zs : list Z) j :
  Forall2 is_int xs zs → int_value (nth j xs fzero) = Some (nth j zs 0).
Proof.
  intros H. revert j. induction H as [|x z xs zs Hx H IH]; intros [|j]; simpl; auto.
Qed.

(** A sum along a tree of additions is exact when the absolute values of its
    terms add up to less than [2^53]. *)
Lemma run_plan_items p xs zs :
  Forall2 is_int xs zs →
  Exact.Zsum (Z.abs <$> ((λ j, nth j zs 0) <$> items p)) < 2 ^ 53 →
  int_value (run_plan p xs) = Some (Exact.Zsum ((λ j, nth j zs 0) <$> items p)).
Proof.
  intros Hxs. induction p as [|j|p IHp q IHq]; simpl.
  - done.
  - intros _. rewrite (int_value_nth _ _ _ Hxs), Zsum_cons, Zsum_nil. f_equal. lia.
  - rewrite !fmap_app, !Zsum_app. intros Hb.
    pose proof (Zsum_abs_nonneg ((λ j, nth j zs 0) <$> items p)).
    pose proof (Zsum_abs_nonneg ((λ j, nth j zs 0) <$> items q)).
    pose proof (Zsum_abs ((λ j, nth j zs 0) <$> items p)).
    pose proof (Zsum_abs ((λ j, nth j zs 0) <$> items q)).
    apply int_value_fadd; [apply IHp|apply IHq|]; lia.
Qed.

Lemma nth_seq_tabulate (zs : list Z) : (λ j, nth j zs 0) <$> seq 0 (length zs) = zs.
Proof. symmetry. by apply vector_tabulate. Qed.

Lemma run_plan_exact p xs zs :
  valid_plan (length xs) p → Forall2 is_int xs zs →
  Exact.Zsum (Z.abs <$> zs) < 2 ^ 53 →
  int_value (run_plan p xs) = Some (Exact.Zsum zs).
Proof.
  intros Hp Hxs Hb. unfold valid_plan in Hp.
  rewrite (Forall2_length _ _ _ Hxs) in Hp.
  assert ((λ j, nth j zs 0) <$> items p ≡ₚ zs) as Hperm.
  { rewrite Hp. by rewrite nth_seq_tabulate. }
  rewrite <- (Zsum_Permutation _ _ Hperm).
  apply run_plan_items; [done|].
  by rewrite (Zsum_Permutation _ _ (fmap_Permutation Z.abs _ _ Hperm)).
Qed.

(** So is a sum taken one term after the other. *)
Lemma foldl_fadd_exact xs zs acc a :
  Forall2 is_int xs zs → int_value acc = Some a →
  Z.abs a + Exact.Zsum (Z.abs <$> zs) < 2 ^ 53 →
  int_value (foldl fadd acc xs) = Some (a + Exact.Zsum zs).
Proof.
  intros H. revert acc a. induction H as [|x z xs zs Hx H IH]; intros acc a Ha Hb.
  - simpl. rewrite Ha, Zsum_nil. f_equal. lia.
  - rewrite fmap_cons, !Zsum_cons in *. simpl. pose proof (Zsum_abs_nonneg zs).
    rewrite (IH (fadd acc x) (a + z)).
    + f_equal. lia.
    + apply int_value_fadd; [done..|lia].
    + lia.
Qed.

(** Multiplying by a sign is exact. *)
Lemma int_value_sign x z g :
  int_value x = Some z → (g = 1 ∨ g = -1) → Z.abs z < 2 ^ 53 →
  int_value (fmul x (float_of_int g)) = Some (z * g)
  ∧ int_value (fmul (float_of_int g) x) = Some (g * z).
Proof.
  intros Hx Hg Hz.
  assert (int_value (float_of_int g) = Some g) as Hgv.
  { apply int_value_float_of_int. destruct Hg as [-> | ->]; lia. }
  split; apply int_value_fmul; try done; destruct Hg as [-> | ->]; lia.
Qed.

Lemma bucket_addends_cons (c : vector) cols h hs g gs i r :
  bucket_addends (c :: cols) (h :: hs) (g :: gs) i r
  = (if bool_decide (h = i)
     then [nth r ((λ x, fmul x (float_of_int g)) <$> c) fzero] else [])
    ++ bucket_addends cols hs gs i r.
Proof.
  unfold bucket_addends, eq_mask. simpl. rewrite masked_cons.
  by case_bool_decide.
Qed.

(** The addends of an entry of the sketch of an array of integers are the
    terms of the entry of the exact sketch. *)
Lemma bucket_addends_exact (cols : list vector) (zcols : list (list Z)) hs gs i r :
  Forall2 (Forall2 is_int) cols zcols →
  length hs = length cols → length gs = length cols →
  Forall (λ g, g = 1 ∨ g = -1) gs →
  Exact.Zsum (Z.abs <$> ((λ c : list Z, nth r c 0) <$> zcols)) < 2 ^ 53 →
  Forall2 is_int (bucket_addends cols hs gs i r)
    (Exact.addends (zip zcols (zip hs gs)) i r).
Proof.
  intros Hc. revert hs gs.
  induction Hc as [|c zc cols zcols Hcz Hc IH]; intros [|h hs] [|g gs] Hh Hg Hs Hb;
    try discriminate; [constructor|].
  injection Hh as Hh. injection Hg as Hg.
  apply Forall_cons in Hs as [Hgs Hs].
  rewrite !fmap_cons, Zsum_cons in Hb.
  pose proof (Zsum_abs_nonneg ((λ c : list Z, nth r c 0) <$> zcols)).
  rewrite bucket_addends_cons.
  change (zip (zc :: zcols) (zip (h :: hs) (g :: gs)))
    with ((zc, (h, g)) :: zip zcols (zip hs gs)).
  rewrite exact_addends_cons. cbn [fst snd].
  apply Forall2_app; [|apply IH; (done || lia)].
  case_bool_decide; constructor; [|constructor].
  rewrite !nth_lookup, list_lookup_fmap.
  destruct (c !! r) as [x|] eqn:Ex.
  - destruct (Forall2_lookup_l _ _ _ _ _ Hcz Ex) as (z & Ez & Hxz).
    rewrite nth_lookup, Ez in Hb. rewrite Ez. simpl in *.
    rewrite Z.mul_comm. apply int_value_sign; [done|done|lia].
  - apply lookup_ge_None in Ex. rewrite (Forall2_length _ _ _ Hcz) in Ex.
    rewrite (lookup_ge_None_2 zc r) by lia. simpl. f_equal. lia.
Qed.

Lemma summed_exact np (cols : list vector) (zcols : list (list Z)) hs gs i r :
  valid_numpy np →
  Forall2 (Forall2 is_int) cols zcols →
  length hs = length cols → length gs = length cols →
  Forall (λ g, g = 1 ∨ g = -1) gs →
  Exact.Zsum (Z.abs <$> ((λ c : list Z, nth r c 0) <$> zcols)) < 2 ^ 53 →
  int_value (summed np cols hs gs i r) = Some (Exact.bucket_entry zcols hs gs i r).
Proof.
  intros Hnp Hc Hh Hg Hs Hb. unfold summed, Exact.bucket_entry.
  rewrite <- Zsum_addends.
  apply run_plan_exact; [apply Hnp|by apply bucket_addends_exact|].
  eapply Z.le_lt_trans; [|exact Hb].
  etrans; [apply Zsum_abs_addends|].
  - apply Forall_forall. intros [c [h g]] Hin. simpl.
    apply elem_of_zip_r, elem_of_zip_r in Hin.
    by apply (proj1 (Forall_forall _ _) Hs).
  - replace ((λ x : list Z * (Z * Z), nth r x.1 0) <$> zip zcols (zip hs gs))
      with ((λ c : list Z, nth r c 0) <$> zcols); [done|].
    rewrite <- (fst_zip zcols (zip hs gs)) at 1.
    + by rewrite <- list_fmap_compose.
    + rewrite length_zip_with, <- (Forall2_length _ _ _ Hc). lia.
Qed.

Lemma addends_cons x tagged i r :
  addends (x :: tagged) i r
  = (if bool_decide (x.2.1 = i)
     then [fmul (float_of_int x.2.2) (nth r x.1 fzero)] else [])
    ++ addends tagged i r.
Proof. unfold addends. simpl. by case_bool_decide. Qed.

Lemma addends_exact (tagged : list (vector * (Z * Z))) (ztagged : list (list Z * (Z * Z)))
    i r :
  Forall2 (λ x z, Forall2 is_int x.1 z.1 ∧ x.2 = z.2) tagged ztagged →
  Forall (λ z : list Z * (Z * Z), z.2.2 = 1 ∨ z.2.2 = -1) ztagged →
  Exact.Zsum (Z.abs <$> ((λ z : list Z * (Z * Z), nth r z.1 0) <$> ztagged)) < 2 ^ 53 →
  Forall2 is_int (addends tagged i r) (Exact.addends ztagged i r).
Proof.
  intros H. induction H as [|[c [h g]] [zc [h' g']] l zl [Hc Hd] H IH];
    intros Hs Hb; [constructor|].
  cbn [fst snd] in Hc, Hd. injection Hd as <- <-.
  apply Forall_cons in Hs as [Hg Hs]. cbn [fst snd] in Hg.
  rewrite !fmap_cons, Zsum_cons in Hb. cbn [fst snd] in Hb.
  pose proof (Zsum_abs_nonneg ((λ z : list Z * (Z * Z), nth r z.1 0) <$> zl)).
  rewrite addends_cons, exact_addends_cons. cbn [fst snd].
  apply Forall2_app; [|apply IH; (done || lia)].
  case_bool_decide; constructor; [|constructor].
  apply int_value_sign; [by apply int_value_nth|done|lia].
Qed.

Lemma accumulated_exact (tagged : list (vector * (Z * Z)))
    (ztagged : list (list Z * (Z * Z))) i r :
  Forall2 (λ x z, Forall2 is_int x.1 z.1 ∧ x.2 = z.2) tagged ztagged →
  Forall (λ z : list Z * (Z * Z), z.2.2 = 1 ∨ z.2.2 = -1) ztagged →
  Exact.Zsum (Z.abs <$> ((λ z : list Z * (Z * Z), nth r z.1 0) <$> ztagged)) < 2 ^ 53 →
  int_value (accumulated tagged i r) = Some (Exact.entry_sum ztagged i r).
Proof.
  intros H Hs Hb. unfold accumulated. rewrite <- Zsum_addends.
  rewrite (foldl_fadd_exact _ (Exact.addends ztagged i r) fzero 0);
    [f_equal; lia|by apply addends_exact|done|].
  pose proof (Zsum_abs_addends ztagged i r Hs). simpl. lia.
Qed.

(** ** Arrays of integers *)

Lemma int_values_inv (A : ndarray float64) (Z : ndarray Z) :
  int_values A = Some Z →
  nrows A = nrows Z ∧ Forall2 (Forall2 is_int) (columns A) (columns Z).
Proof.
  unfold int_values. intros H.
  destruct (mapM (mapM int_value) (columns A)) as [cols|] eqn:E; [|done].
  simpl in H. injection H as <-. simpl. split; [done|].
  apply mapM_Some_1 in E. eapply Forall2_impl; [exact E|].
  intros c zc Hc. by apply mapM_Some_1 in Hc.
Qed.

Lemma int_values_intro (A : ndarray float64) (Z : ndarray Z) :
  nrows A = nrows Z → Forall2 (Forall2 is_int) (columns A) (columns Z) →
  int_values A = Some Z.
Proof.
  intros Hn Hc. unfold int_values.
  rewrite (mapM_Some_2 (mapM int_value) (columns A) (columns Z)).
  - simpl. rewrite Hn. by destruct Z.
  - eapply Forall2_impl; [exact Hc|]. intros c zc H. by apply mapM_Some_2.
Qed.

Lemma int_values_tabulate m s (E : Z → nat → float64) (EZ : Z → nat → Z) :
  (∀ i r, 0 ≤ i < s → (r < m)%nat → int_value (E i r) = Some (EZ i r)) →
  int_values (tabulate m s E) = Some (tabulate m s EZ).
Proof.
  intros H. apply int_values_intro; [done|]. simpl.
  apply Forall2_fmap, Forall_Forall2_diag, Forall_forall. intros i Hi.
  apply elem_of_range in Hi.
  apply Forall2_fmap, Forall_Forall2_diag, Forall_forall. intros r Hr.
  apply elem_of_seq in Hr. apply H; lia.
Qed.

Lemma int_values_wf (A : ndarray float64) (Z : ndarray Z) :
  int_values A = Some Z → wf_ndarray A → wf_ndarray Z.
Proof.
  intros H Hwf. apply int_values_inv in H as [Hn Hc].
  unfold wf_ndarray in *. rewrite <- Hn.
  induction Hc as [|c zc cols zcols Hcz Hc IH]; [constructor|].
  apply Forall_cons in Hwf as [Hl Hwf]. constructor; [|by apply IH].
  by rewrite <- (Forall2_length _ _ _ Hcz).
Qed.

Lemma int_values_tagged (cols : list vector) (zcols : list (list Z)) (ds : list (Z * Z)) :
  Forall2 (Forall2 is_int) cols zcols →
  Forall2 (λ (x : vector * (Z * Z)) (z : list Z * (Z * Z)),
             Forall2 is_int x.1 z.1 ∧ x.2 = z.2)
    (zip cols ds) (zip zcols ds).
Proof.
  intros H. revert ds. induction H as [|c zc cols zcols Hc H IH]; intros [|d ds];
    simpl; constructor; auto.
Qed.

(** ** The sketchers on arrays of integers *)

(** On an array of integers whose rows are bounded, the in-memory sketcher
    returns the exact sketch. *)
Lemma countSketchInMemroy_exact np matrixA A s rnd :
  valid_numpy np → 0 < s → valid_draws matrixA s rnd →
  int_values matrixA = Some A → bounded_rows A →
  ∃ C, countSketchInMemroy np matrixA s rnd = Ok C
       ∧ int_values C = Some (Exact.sketch_of A s (drawn_buckets rnd) (signs_of rnd)).
Proof.
  intros Hnp Hs Hv HA Hb.
  destruct (valid_draws_lengths _ _ _ Hv) as (Hh & Hbits & _ & Hrange).
  apply int_values_inv in HA as [Hn Hc].
  eexists. split; [by apply countSketchInMemroy_closed|].
  unfold Exact.sketch_of. rewrite <- Hn.
  apply int_values_tabulate. intros i r Hi Hr.
  apply summed_exact; try done.
  - unfold signs_of. by rewrite length_fmap.
  - by apply signs_of_Forall.
  - apply Hb. lia.
Qed.

Lemma tagged_signs (zcols : list (list Z)) hs gs :
  Forall (λ g, g = 1 ∨ g = -1) gs →
  Forall (λ z : list Z * (Z * Z), z.2.2 = 1 ∨ z.2.2 = -1) (zip zcols (zip hs gs)).
Proof.
  intros Hg. apply Forall_forall. intros [c [h g]] Hin. simpl.
  apply elem_of_zip_r, elem_of_zip_r in Hin.
  by apply (proj1 (Forall_forall _ _) Hg).
Qed.

Lemma Zsum_abs_take (l : list Z) k :
  Exact.Zsum (Z.abs <$> take k l) ≤ Exact.Zsum (Z.abs <$> l).
Proof.
  revert k. induction l as [|x l IH]; intros [|k]; [done|done|..].
  - apply Zsum_abs_nonneg.
  - specialize (IH k). rewrite firstn_cons, !fmap_cons, !Zsum_cons. lia.
Qed.

Lemma tagged_row (zcols : list (list Z)) (ds : list (Z * Z)) r :
  length zcols = length ds →
  (λ z : list Z * (Z * Z), nth r z.1 0) <$> zip zcols ds
  = (λ c : list Z, nth r c 0) <$> zcols.
Proof.
  intros Hl. rewrite <- (fst_zip zcols ds) at 2 by lia.
  by rewrite <- list_fmap_compose.
Qed.

(** Likewise the streaming sketcher, after every prefix of the columns. *)
Lemma countSketchStreaming_prefix_exact matrixA A s hs gs (k : nat) :
  0 < s → wf_ndarray matrixA →
  length hs = length (columns matrixA) →
  length gs = length (columns matrixA) →
  Forall (λ h, 0 ≤ h < s) hs → Forall (λ g, g = 1 ∨ g = -1) gs →
  (k ≤ length (columns matrixA))%nat →
  int_values matrixA = Some A → bounded_rows A →
  ∃ Ck, for_each (range (Z.of_nat k)) (countSketchStreaming_step matrixA hs gs)
          (tabulate (nrows matrixA) s (λ _ _, fzero)) = Ok Ck
        ∧ int_values Ck
          = Some (Exact.sketch_of (NDArray (nrows A) (take k (columns A))) s
                    (take k hs) (take k gs)).
Proof.
  intros Hs Hwf Hh Hg Hrange Hsigns Hk HA Hb.
  apply int_values_inv in HA as [Hn Hc].
  eexists. split; [by apply countSketchStreaming_prefix|].
  unfold Exact.sketch_of, Exact.bucket_entry. cbn [nrows columns]. rewrite <- Hn.
  apply int_values_tabulate. intros i r Hi Hr.
  rewrite <- !zip_with_take.
  apply accumulated_exact.
  - apply Forall2_take. by apply int_values_tagged.
  - apply Forall_take. by apply tagged_signs.
  - rewrite fmap_take.
    eapply Z.le_lt_trans; [apply Zsum_abs_take|].
    rewrite tagged_row.
    + apply Hb. lia.
    + rewrite length_zip_with, <- (Forall2_length _ _ _ Hc). lia.
Qed.

Lemma countSketchStreaming_exact np matrixA A s rnd :
  0 < s → wf_ndarray matrixA → valid_draws matrixA s rnd →
  int_values matrixA = Some A → bounded_rows A →
  ∃ C, countSketchStreaming np matrixA s rnd = Ok C
       ∧ int_values C = Some (Exact.sketch_of A s (drawn_buckets rnd) (signs_of rnd)).
Proof.
  intros Hs Hwf Hv HA Hb.
  destruct (valid_draws_lengths _ _ _ Hv) as (Hh & Hbits & Hrange & Hbr).
  assert (length (signs_of rnd) = length (columns matrixA)) as Hg.
  { unfold signs_of. by rewrite length_fmap. }
  destruct (countSketchStreaming_prefix_exact matrixA A s (drawn_buckets rnd)
              (signs_of rnd) (length (columns matrixA)))
    as (C & HC & HCv); try done.
  { by apply signs_of_Forall. }
  exists C. split.
  - rewrite countSketchStreaming_closed by done.
    rewrite countSketchStreaming_prefix in HC by done.
    rewrite take_ge in HC; [done|].
    rewrite !length_zip_with. lia.
  - rewrite HCv. apply int_values_inv in HA as [Hn Hc].
    pose proof (Forall2_length _ _ _ Hc) as Hlen.
    rewrite !take_ge by lia. by destruct A.
Qed.

(** ** The exact sketch *)

Section exact_sketch.
Import Exact.

Lemma exact_vadd_tabulate (f g : nat → Z) (l : list nat) :
  vadd (f <$> l) (g <$> l) = (λ r, f r + g r) <$> l.
Proof. unfold vadd. induction l; simpl; [done|]. by f_equal. Qed.

Lemma exact_scale_tabulate a (f : nat → Z) (l : list nat) :
  scale a (f <$> l) = (λ r, a * f r) <$> l.
Proof. unfold scale. by rewrite <- list_fmap_compose. Qed.

Lemma exact_nth_scale g (a : list Z) r : nth r (scale g a) 0 = g * nth r a 0.
Proof.
  unfold scale. rewrite !nth_lookup, list_lookup_fmap.
  destruct (a !! r); simpl; lia.
Qed.

(** The sketch as a matrix product. *)
Lemma dot_sketching_column (cols : list (list Z)) hs gs i r :
  dot ((λ c : list Z, nth r c 0) <$> cols)
      (zip_with (λ h g, if bool_decide (h = i) then g else 0) hs gs)
  = bucket_entry cols hs gs i r.
Proof.
  unfold bucket_entry.
  revert hs gs. induction cols as [|c cols IH]; intros [|h hs] [|g gs]; try done.
  change (zip (c :: cols) (zip (h :: hs) (g :: gs)))
    with ((c, (h, g)) :: zip cols (zip hs gs)).
  rewrite entry_sum_cons, <- IH. unfold dot, bucket_term.
  rewrite fmap_cons. cbn [zip_with fst snd]. rewrite Zsum_cons.
  case_bool_decide; lia.
Qed.

Lemma matmul_sketchingMatrix A s hs gs :
  matmul A (sketchingMatrix s hs gs) = sketch_of A s hs gs.
Proof.
  unfold matmul, sketchingMatrix, sketch_of, tabulate, row. simpl.
  f_equal. rewrite <- list_fmap_compose.
  apply list_fmap_ext. intros _ i _. simpl.
  apply list_fmap_ext. intros _ r _. apply dot_sketching_column.
Qed.

Lemma zeros_tabulated s : zeros (Z.to_nat s) = (λ _ : Z, 0) <$> range s.
Proof.
  unfold zeros, range. rewrite <- list_fmap_compose.
  induction (Z.to_nat s) as [|n IH]; [done|].
  by rewrite replicate_S_end, seq_S, fmap_app, <- IH.
Qed.

Lemma sketchingMatrix_row s hs gs (j : nat) h g :
  0 ≤ h < s → hs !! j = Some h → gs !! j = Some g →
  row (sketchingMatrix s hs gs) j = <[Z.to_nat h := g]> (zeros (Z.to_nat s)).
Proof.
  intros Hh Hj Hg. unfold row, sketchingMatrix. simpl.
  rewrite zeros_tabulated, <- list_fmap_compose.
  transitivity ((λ i, if bool_decide (h = i) then g else 0) <$> range s).
  - apply list_fmap_ext. intros _ i _. simpl.
    rewrite nth_lookup, lookup_zip_with, Hj. simpl. by rewrite Hg.
  - rewrite <- (insert_tabulated (λ _, 0) (λ i, if bool_decide (h = i) then g else 0)
                  s h Hh).
    + simpl. by rewrite bool_decide_true.
    + intros i Hi. by rewrite bool_decide_false.
Qed.

(** Linearity. *)
Lemma entry_sum_scale alpha tagged i r :
  entry_sum (prod_map (scale alpha) id <$> tagged) i r = alpha * entry_sum tagged i r.
Proof.
  induction tagged as [|[c [h g]] l IH].
  - unfold entry_sum. rewrite !fmap_nil, Zsum_nil. lia.
  - rewrite fmap_cons, !entry_sum_cons, IH. unfold bucket_term.
    cbn [prod_map fst snd id]. rewrite exact_nth_scale. case_bool_decide; lia.
Qed.

Lemma sketch_of_scale alpha A s hs gs :
  sketch_of (np_scale alpha A) s hs gs = np_scale alpha (sketch_of A s hs gs).
Proof.
  unfold sketch_of, np_scale, tabulate. simpl. f_equal.
  rewrite <- list_fmap_compose. apply list_fmap_ext. intros _ i _. simpl.
  rewrite exact_scale_tabulate. apply list_fmap_ext. intros _ r _.
  unfold bucket_entry.
  rewrite <- entry_sum_scale, prod_map_zip, list_fmap_id. done.
Qed.

(** Splitting the columns by a mask. *)
Lemma entry_sum_masked mask tagged i r :
  length mask = length tagged →
  entry_sum tagged i r
  = entry_sum (masked mask tagged) i r + entry_sum (masked (negb <$> mask) tagged) i r.
Proof.
  revert mask. induction tagged as [|x l IH]; intros [|b mask] Hl;
    try discriminate; [done|].
  injection Hl as Hl. rewrite fmap_cons, !masked_cons.
  destruct b; simpl; rewrite !entry_sum_cons, (IH mask) by done; lia.
Qed.

Lemma np_add_tabulate m s E1 E2 :
  np_add (tabulate m s E1) (tabulate m s E2) = tabulate m s (λ i r, E1 i r + E2 i r).
Proof.
  unfold np_add, tabulate. simpl. f_equal.
  induction (range s) as [|i l IH]; [done|].
  simpl. rewrite exact_vadd_tabulate. f_equal. apply IH.
Qed.

Lemma sketch_of_masked mask A s hs gs :
  length mask = length (columns A) →
  length hs = length (columns A) → length gs = length (columns A) →
  sketch_of A s hs gs
  = np_add (sketch_of (sub_matrix mask A) s (masked mask hs) (masked mask gs))
           (sketch_of (sub_matrix (negb <$> mask) A) s
              (masked (negb <$> mask) hs) (masked (negb <$> mask) gs)).
Proof.
  intros Hm Hh Hg. unfold sketch_of. cbn [sub_matrix nrows columns].
  rewrite np_add_tabulate. apply tabulate_ext. intros i r _ _.
  unfold bucket_entry. rewrite <- !masked_zip.
  apply entry_sum_masked. rewrite !length_zip_with. lia.
Qed.

Lemma entry_tabulate m s E (k : Z) (r : nat) :
  0 ≤ k < s → (r < m)%nat → entry (tabulate m s E) r (Z.to_nat k) = E k r.
Proof.
  intros Hk Hr. unfold entry. rewrite nth_tabulate_column by done.
  rewrite nth_lookup, list_lookup_fmap, lookup_seq_lt by done. done.
Qed.

End exact_sketch.

(** ** The sketchers on references *)

Lemma fresh_lookup (σ : heap) : σ !! fresh (dom σ) = None.
Proof. apply not_elem_of_dom, is_fresh. Qed.

Lemma alloc_extends (σ0 σ : heap) a :
  σ0 ⊆ σ → σ0 ⊆ <[fresh (dom σ) := a]> σ.
Proof.
  intros H. etrans; [exact H|]. apply insert_subseteq, fresh_lookup.
Qed.

Lemma store_extends (σ0 σ : heap) l a :
  σ0 !! l = None → σ0 ⊆ σ → σ0 ⊆ <[l := a]> σ.
Proof. intros. by apply insert_subseteq_r. Qed.

Lemma fresh_ne (σ : heap) l a : σ !! l = Some a → l ≠ fresh (dom σ).
Proof. intros H ->. by rewrite fresh_lookup in H. Qed.

Lemma run_bind {A B : Type} (c : program A) (f : A → program B) (σ : heap) :
  (c ≫= f) σ = match c σ with
               | (Ok a, σ') => f a σ'
               | (Raise e, σ') => (Raise e, σ')
               end.
Proof. reflexivity. Qed.

Lemma run_load (σ : heap) l a : σ !! l = Some a → load l σ = (Ok a, σ).
Proof. intros H. unfold load. by rewrite H. Qed.

Lemma run_new_zeros (σ : heap) m s :
  new_zeros m s σ = match np_zeros m s with
                    | Ok c => (Ok (fresh (dom σ)), <[fresh (dom σ) := c]> σ)
                    | Raise e => (Raise e, σ)
                    end.
Proof. unfold new_zeros. rewrite run_bind. unfold lift. by destruct (np_zeros m s). Qed.

Lemma run_new_mul_broadcast (σ : heap) A a r :
  σ !! A = Some a →
  new_mul_broadcast A r σ
  = (Ok (fresh (dom σ)), <[fresh (dom σ) := mul_broadcast a r]> σ).
Proof. intros H. unfold new_mul_broadcast. by rewrite run_bind, (run_load _ _ _ H). Qed.

Lemma run_new_select_columns (σ : heap) A a idx :
  σ !! A = Some a →
  new_select_columns A idx σ
  = match select_columns a idx with
    | Ok x => (Ok (fresh (dom σ)), <[fresh (dom σ) := x]> σ)
    | Raise e => (Raise e, σ)
    end.
Proof.
  intros H. unfold new_select_columns. rewrite run_bind, (run_load _ _ _ H).
  rewrite run_bind. unfold lift. by destruct (select_columns a idx).
Qed.

Lemma run_sum_axis1_of np (σ : heap) X x :
  σ !! X = Some x → sum_axis1_of np X σ = (Ok (np_sum_axis1 np x), σ).
Proof. intros H. unfold sum_axis1_of. by rewrite run_bind, (run_load _ _ _ H). Qed.

Lemma run_assign_column (σ : heap) C c i v :
  σ !! C = Some c →
  assign_column C i v σ
  = match set_column c i v with
    | Ok c' => (Ok (), <[C := c']> σ)
    | Raise e => (Raise e, σ)
    end.
Proof.
  intros H. unfold assign_column. rewrite run_bind, (run_load _ _ _ H).
  rewrite run_bind. unfold lift. by destruct (set_column c i v).
Qed.

Lemma run_iadd_column_at (σ : heap) C c h v :
  σ !! C = Some c →
  iadd_column_at C h v σ
  = match iadd_column c h v with
    | Ok c' => (Ok (), <[C := c']> σ)
    | Raise e => (Raise e, σ)
    end.
Proof.
  intros H. unfold iadd_column_at. rewrite run_bind, (run_load _ _ _ H).
  rewrite run_bind. unfold lift. by destruct (iadd_column c h v).
Qed.

Lemma run_lift {A : Type} (r : result A) (σ : heap) : lift r σ = (r, σ).
Proof. reflexivity. Qed.

Lemma run_column_view (σ : heap) A a j :
  σ !! A = Some a →
  column_view A j σ = (View A <$> normalize_index (length (columns a)) j, σ).
Proof.
  intros H. unfold column_view.
  rewrite run_bind, (run_load _ _ _ H), run_bind, run_lift.
  by destruct (normalize_index (length (columns a)) j).
Qed.

Lemma run_scale_view (σ : heap) a g v :
  σ !! base v = Some a →
  scale_view g v σ
  = (match columns a !! col v with
     | Some c => Ok (scale g c)
     | None => Raise IndexError
     end, σ).
Proof.
  intros H. unfold scale_view.
  rewrite run_bind, (run_load _ _ _ H), run_bind, run_lift.
  by destruct (columns a !! col v).
Qed.

(** The loop of the in-memory sketcher: the store only grows, apart from
    the buffer of [matrixC], which steps as in [countSketchInMemroy]. *)
Lemma countSketchInMemroy_ref_loop np (σ0 : heap) matrixC matrixA hashedIndices a xs :
  σ0 !! matrixC = None → matrixC ≠ matrixA →
  ∀ (σ : heap) c,
    σ0 ⊆ σ → σ !! matrixC = Some c → σ !! matrixA = Some a →
    ∃ r σ',
      for_each_ref xs (λ i,
        let idx := eq_mask hashedIndices i in
        selected ← new_select_columns matrixA idx;
        v ← sum_axis1_of np selected;
        assign_column matrixC i v) σ = (r, σ')
      ∧ σ0 ⊆ σ'
      ∧ match for_each xs (λ i matrixC,
                let idx := eq_mask hashedIndices i in
                selected ← select_columns a idx;
                set_column matrixC i (np_sum_axis1 np selected)) c with
        | Ok c' => r = Ok () ∧ σ' !! matrixC = Some c'
        | Raise e => r = Raise e
        end.
Proof.
  intros HC Hne. induction xs as [|i xs IH]; intros σ c Hsub Hc Ha.
  - simpl. eexists _, _. split; [reflexivity|]. by split.
  - cbn [for_each_ref for_each]. cbv zeta.
    rewrite !run_bind, (run_new_select_columns _ _ _ _ Ha).
    destruct (select_columns a (eq_mask hashedIndices i)) as [x|e] eqn:Hsel.
    2:{ eexists _, _. split; [reflexivity|]. simpl. by split. }
    cbv beta iota.
    rewrite run_bind, (run_sum_axis1_of _ _ _ x) by apply lookup_insert_eq.
    cbv beta iota.
    rewrite (run_assign_column _ _ c); last first.
    { rewrite lookup_insert_ne by (symmetry; by eapply fresh_ne). done. }
    simpl (Ok x ≫= _).
    destruct (set_column c i (np_sum_axis1 np x)) as [c'|e] eqn:Hset.
    2:{ eexists _, _. split; [reflexivity|]. simpl.
        split; [|done]. by apply alloc_extends. }
    destruct (IH (<[matrixC := c']> (<[fresh (dom σ) := x]> σ)) c')
      as (r & σ' & Hrun & Hsub' & Hres).
    + apply store_extends; [done|]. by apply alloc_extends.
    + by rewrite lookup_insert_eq.
    + rewrite lookup_insert_ne by done.
      rewrite lookup_insert_ne by (symmetry; by eapply fresh_ne). done.
    + exists r, σ'. split; [exact Hrun|]. split; [done|]. simpl. exact Hres.
Qed.

(** The in-memory sketcher on references returns a reference to a new
    array holding the result of [countSketchInMemroy], raises what it
    raises, and only extends the store. *)
Lemma countSketchInMemroy_ref_spec np (σ : heap) matrixA a s rnd :
  σ !! matrixA = Some a →
  ∃ r σ',
    countSketchInMemroy_ref np matrixA s rnd σ = (r, σ')
    ∧ σ ⊆ σ'
    ∧ match countSketchInMemroy np a s rnd with
      | Ok c => ∃ matrixC, r = Ok matrixC ∧ σ' !! matrixC = Some c
                           ∧ σ !! matrixC = None
      | Raise e => r = Raise e
      end.
Proof.
  intros Ha. unfold countSketchInMemroy_ref, countSketchInMemroy.
  rewrite run_bind, (run_load _ _ _ Ha). cbv beta iota.
  destruct (shape a) as [m n].
  rewrite run_bind, run_new_zeros.
  destruct (np_zeros m s) as [c0|e]; simpl (_ ≫= _).
  2:{ eexists _, _. split; [reflexivity|]. by split. }
  rewrite run_bind, run_lift.
  destruct (random_choice np s (Z.of_nat n) (drawn_buckets rnd)) as [hashedIndices|e];
    simpl (_ ≫= _).
  2:{ eexists _, _. split; [reflexivity|]. split; [|done].
      apply insert_subseteq, fresh_lookup. }
  rewrite run_bind, run_lift.
  destruct (random_choice np 2 (Z.of_nat n) (drawn_bits rnd)) as [bits|e];
    simpl (_ ≫= _).
  2:{ eexists _, _. split; [reflexivity|]. split; [|done].
      apply insert_subseteq, fresh_lookup. }
  rewrite run_bind, run_lift.
  destruct (reshape_row ((λ b, b * 2 - 1) <$> bits) n) as [signsRow|e];
    simpl (_ ≫= _).
  2:{ eexists _, _. split; [reflexivity|]. split; [|done].
      apply insert_subseteq, fresh_lookup. }
  set (matrixC := fresh (dom σ)).
  set (σ1 := <[matrixC := c0]> σ).
  assert (σ1 !! matrixA = Some a) as Ha1.
  { unfold σ1. rewrite lookup_insert_ne; [done|]. symmetry. by eapply fresh_ne. }
  rewrite run_bind, (run_new_mul_broadcast _ _ _ _ Ha1). cbv beta iota.
  set (matrixA' := fresh (dom σ1)).
  set (σ2 := <[matrixA' := mul_broadcast a signsRow]> σ1).
  assert (σ ⊆ σ2) as Hsub.
  { unfold σ2. apply alloc_extends. unfold σ1. apply insert_subseteq, fresh_lookup. }
  destruct (countSketchInMemroy_ref_loop np σ matrixC matrixA' hashedIndices
              (mul_broadcast a signsRow) (range s) (fresh_lookup σ)) with (σ := σ2) (c := c0)
    as (r & σ' & Hrun & Hsub' & Hres).
  - unfold matrixA'. eapply fresh_ne. unfold σ1. apply lookup_insert_eq.
  - done.
  - unfold σ2. rewrite lookup_insert_ne.
    + unfold σ1. apply lookup_insert_eq.
    + unfold matrixA'. symmetry. eapply fresh_ne. unfold σ1. apply lookup_insert_eq.
  - unfold σ2. apply lookup_insert_eq.
  - rewrite run_bind. cbv zeta in Hrun. rewrite Hrun.
    cbv zeta in Hres.
    destruct (for_each (range s) _ c0) as [c|e].
    + destruct Hres as [-> Hc]. eexists _, _. split; [reflexivity|].
      split; [done|]. exists matrixC. repeat split; [done|]. apply fresh_lookup.
    + subst r. eexists _, _. split; [reflexivity|]. by split.
Qed.

(** One iteration of the streaming sketcher writes the buffer of
    [matrixC] and nothing else. *)
Lemma countSketchStreaming_ref_step (σ : heap) matrixC matrixA a c
    hashedIndices randSigns j :
  σ !! matrixC = Some c → σ !! matrixA = Some a →
  (a ← column_view matrixA j;
   h ← lift (get_item hashedIndices j);
   g ← lift (get_item randSigns j);
   ga ← scale_view g a;
   iadd_column_at matrixC h ga) σ
  = match countSketchStreaming_step a hashedIndices randSigns j c with
    | Ok c' => (Ok (), <[matrixC := c']> σ)
    | Raise e => (Raise e, σ)
    end.
Proof.
  intros Hc Ha. unfold countSketchStreaming_step, get_column.
  rewrite !run_bind, (run_column_view _ _ _ _ Ha).
  destruct (normalize_index (length (columns a)) j) as [k|e] eqn:Hk;
    cbn [fmap result_fmap mbind result_bind]; [|done].
  destruct (lookup_lt_is_Some_2 (columns a) k (normalize_index_lt _ _ _ Hk))
    as [x Hx].
  rewrite Hx, run_bind, run_lift.
  destruct (get_item hashedIndices j) as [h|e];
    cbn [mbind result_bind]; [|done].
  rewrite run_bind, run_lift.
  destruct (get_item randSigns j) as [g|e];
    cbn [mbind result_bind]; [|done].
  rewrite run_bind, (run_scale_view _ a) by done. cbn [col]. rewrite Hx.
  by rewrite (run_iadd_column_at _ _ c).
Qed.

(** The loop of the streaming sketcher. *)
Lemma countSketchStreaming_ref_loop (σ0 : heap) matrixC matrixA a
    hashedIndices randSigns xs :
  σ0 !! matrixC = None → matrixC ≠ matrixA →
  ∀ (σ : heap) c,
    σ0 ⊆ σ → σ !! matrixC = Some c → σ !! matrixA = Some a →
    ∃ r σ',
      for_each_ref xs (λ j,
        a ← column_view matrixA j;
        h ← lift (get_item hashedIndices j);
        g ← lift (get_item randSigns j);
        ga ← scale_view g a;
        iadd_column_at matrixC h ga) σ = (r, σ')
      ∧ σ0 ⊆ σ'
      ∧ match for_each xs (countSketchStreaming_step a hashedIndices randSigns) c with
        | Ok c' => r = Ok () ∧ σ' !! matrixC = Some c'
        | Raise e => r = Raise e
        end.
Proof.
  intros HC Hne. induction xs as [|j xs IH]; intros σ c Hsub Hc Ha.
  - simpl. eexists _, _. split; [reflexivity|]. by split.
  - cbn [for_each_ref for_each].
    rewrite run_bind, (countSketchStreaming_ref_step _ _ _ _ _ _ _ _ Hc Ha).
    destruct (countSketchStreaming_step a hashedIndices randSigns j c) as [c'|e];
      cbn [mbind result_bind].
    2:{ eexists _, _. split; [reflexivity|]. by split. }
    destruct (IH (<[matrixC := c']> σ) c') as (r & σ' & Hrun & Hsub' & Hres).
    + by apply store_extends.
    + by rewrite lookup_insert_eq.
    + by rewrite lookup_insert_ne.
    + exists r, σ'. split; [exact Hrun|]. by split.
Qed.

(** The same for the streaming sketcher. *)
Lemma countSketchStreaming_ref_spec np (σ : heap) matrixA a s rnd :
  σ !! matrixA = Some a →
  ∃ r σ',
    countSketchStreaming_ref np matrixA s rnd σ = (r, σ')
    ∧ σ ⊆ σ'
    ∧ match countSketchStreaming np a s rnd with
      | Ok c => ∃ matrixC, r = Ok matrixC ∧ σ' !! matrixC = Some c
                           ∧ σ !! matrixC = None
      | Raise e => r = Raise e
      end.
Proof.
  intros Ha. unfold countSketchStreaming_ref, countSketchStreaming.
  rewrite run_bind, (run_load _ _ _ Ha). cbv beta iota.
  destruct (shape a) as [m n].
  rewrite run_bind, run_new_zeros.
  destruct (np_zeros m s) as [c0|e]; simpl (_ ≫= _).
  2:{ eexists _, _. split; [reflexivity|]. by split. }
  rewrite run_bind, run_lift.
  destruct (random_choice np s (Z.of_nat n) (drawn_buckets rnd)) as [hashedIndices|e];
    simpl (_ ≫= _).
  2:{ eexists _, _. split; [reflexivity|]. split; [|done].
      apply insert_subseteq, fresh_lookup. }
  rewrite run_bind, run_lift.
  destruct (random_choice np 2 (Z.of_nat n) (drawn_bits rnd)) as [bits|e];
    simpl (_ ≫= _).
  2:{ eexists _, _. split; [reflexivity|]. split; [|done].
      apply insert_subseteq, fresh_lookup. }
  set (matrixC := fresh (dom σ)).
  set (σ1 := <[matrixC := c0]> σ).
  destruct (countSketchStreaming_ref_loop σ matrixC matrixA a hashedIndices
              ((λ b, b * 2 - 1) <$> bits) (range (Z.of_nat n)) (fresh_lookup σ))
    with (σ := σ1) (c := c0) as (r & σ' & Hrun & Hsub' & Hres).
  - unfold matrixC. symmetry. by eapply fresh_ne.
  - unfold σ1. apply insert_subseteq, fresh_lookup.
  - unfold σ1. apply lookup_insert_eq.
  - unfold σ1. rewrite lookup_insert_ne; [done|]. symmetry. by eapply fresh_ne.
  - rewrite run_bind, Hrun.
    destruct (for_each (range (Z.of_nat n)) _ c0) as [c|e].
    + destruct Hres as [-> Hc]. eexists _, _. split; [reflexivity|].
      split; [done|]. exists matrixC. repeat split; [done|]. apply fresh_lookup.
    + subst r. eexists _, _. split; [reflexivity|]. by split.
Qed.

(** ** The map-reduce implementation on one vector and on none *)

Lemma mapM_all_raise {A B : Type} (f : A → result B) e l :
  (∀ x, f x = Raise e) → l ≠ [] → mapM f l = Raise e.
Proof. intros H Hl. destruct l as [|x l]; [done|]. cbn [mapM]. by rewrite H. Qed.

Lemma rdd_map_all_raise {A B : Type} (f : A → result B) e (parts : rdd A) :
  (∀ x, f x = Raise e) → concat parts ≠ [] → rdd_map f parts = Raise e.
Proof.
  intros H. unfold rdd_map. induction parts as [|part parts IH]; [done|].
  intros Hne. cbn [mapM]. destruct part as [|x part].
  - cbn [mapM mret result_ret mbind result_bind]. by rewrite IH.
  - by rewrite (mapM_all_raise f e (x :: part)).
Qed.

Lemma mapper_raises s x : s ≤ 0 → mapper s x = Raise ValueError.
Proof.
  intros Hs. destruct x as [c [h b]]. unfold mapper, random_randint.
  by rewrite (bool_decide_true (s ≤ 0)) by lia.
Qed.

Lemma mapper_emitted s x : 0 < s → mapper s x = Ok (emitted x).
Proof.
  intros Hs. destruct x as [c [h b]]. unfold mapper, random_randint, emitted.
  by rewrite !bool_decide_false by lia.
Qed.

Lemma rdd_map_emitted s parts :
  0 < s → rdd_map (mapper s) parts = Ok (fmap (M:=list) emitted <$> parts).
Proof.
  intros Hs. unfold rdd_map. apply mapM_Ok. intros part _.
  apply mapM_Ok. intros x _. by apply mapper_emitted.
Qed.

Lemma combine_locally_short (part : list (Z * vector)) :
  (length part ≤ 1)%nat → combine_locally vadd part = Ok part.
Proof. destruct part as [|[k v] [|? ?]]; simpl; (done || lia). Qed.

Lemma omap_lookup_seq {A B : Type} (f : A → option B) (l : list A) :
  omap (λ p, x ← l !! p; f x) (seq 0 (length l)) = omap f l.
Proof.
  induction l as [|x l IH] using rev_ind; [done|].
  rewrite length_app, Nat.add_1_r, seq_S, !omap_app. f_equal.
  - rewrite <- IH. apply list_omap_ext, Forall_Forall2_diag, Forall_forall.
    intros p Hp. apply elem_of_seq in Hp. by rewrite lookup_app_l by lia.
  - simpl. rewrite list_lookup_middle by done. done.
Qed.

Lemma concat_nil_replicate {A : Type} (parts : list (list A)) :
  concat parts = [] → parts = replicate (length parts) [].
Proof.
  induction parts as [|p parts IH]; [done|]. simpl.
  intros H. apply app_eq_nil in H as [-> H]. by rewrite <- IH.
Qed.

Lemma concat_singleton {A : Type} (parts : list (list A)) x :
  concat parts = [x] →
  ∃ a b, parts = replicate a [] ++ [x] :: replicate b [].
Proof.
  induction parts as [|p parts IH]; [done|]. simpl. intros H.
  apply app_eq_unit in H as [[-> H]|[-> H]].
  - destruct (IH H) as (a & b & ->). by exists (S a), b.
  - exists 0%nat, (length parts). simpl. by rewrite <- concat_nil_replicate.
Qed.

Lemma omap_replicate_None {A B : Type} (f : A → option B) x n :
  f x = None → omap f (replicate n x) = [].
Proof. intros H. induction n as [|n IH]; [done|]. simpl. by rewrite H. Qed.

(** The reducer on RDDs whose partitions hold at most one pair, all of
    one key. *)
Lemma reduceByKey_single sc a b k (v : vector) :
  valid_spark sc →
  reduceByKey sc vadd (replicate a [] ++ [(k, v)] :: replicate b []) = Ok [[(k, v)]].
Proof.
  intros [Hfetch Hkeys]. unfold reduceByKey.
  set (r := replicate a [] ++ [(k, v)] :: replicate b []).
  rewrite (mapM_Ok _ id); last first.
  { intros part Hpart. apply combine_locally_short.
    unfold r in Hpart. apply elem_of_app in Hpart as [Hpart|Hpart].
    - apply elem_of_replicate in Hpart as [-> _]. simpl. lia.
    - apply elem_of_cons in Hpart as [->|Hpart]; [done|].
      apply elem_of_replicate in Hpart as [-> _]. simpl. lia. }
  rewrite list_fmap_id. cbn [mbind result_bind].
  assert (concat r = [(k, v)]) as Hcat.
  { unfold r. rewrite concat_app. simpl.
    assert (∀ n, concat (replicate n (@nil (Z * vector))) = []) as Hn.
    { intros n. induction n; [done|]. done. }
    by rewrite !Hn. }
  rewrite Hcat. cbn [fmap list_fmap fst].
  assert (remove_dups [k] = [k]) as -> by done.
  assert (key_order sc [k] = [k]) as ->.
  { apply Permutation_singleton_r, Hkeys. }
  cbn [mapM].
  assert (combiners_of r k (fetch_order sc (length r) k) = [v]) as ->.
  { apply Permutation_singleton_r. unfold combiners_of.
    rewrite (Hfetch (length r) k), omap_lookup_seq.
    unfold r. rewrite omap_app. simpl.
    rewrite !omap_replicate_None by done.
    by rewrite bool_decide_true. }
  done.
Qed.

Lemma reduceByKey_nothing {V : Type} sc (f : V → V → result V) n :
  valid_spark sc → reduceByKey sc f (replicate n []) = Ok [[]].
Proof.
  intros [Hfetch Hkeys]. unfold reduceByKey.
  rewrite (mapM_Ok _ id); last first.
  { intros part Hpart. by apply elem_of_replicate in Hpart as [-> _]. }
  rewrite list_fmap_id. cbn [mbind result_bind].
  assert (concat (replicate n (@nil (Z * V))) = []) as ->.
  { induction n; [done|]. done. }
  cbn [fmap list_fmap]. change (remove_dups (@nil Z)) with (@nil Z).
  assert (key_order sc [] = []) as ->.
  { apply Permutation_nil_r, Hkeys. }
  done.
Qed.

(** The map-reduce sketcher on one vector: the result has one column. *)
Lemma countSketchMapReduce_single sc parts x s :
  valid_spark sc → 0 < s → concat parts ≡ₚ [x] →
  countSketchMapReduce sc parts s = Ok (NDArray (length x.1) [(emitted x).2]).
Proof.
  intros Hsc Hs Hx. apply Permutation_singleton_r in Hx.
  destruct (concat_singleton _ _ Hx) as (a & b & ->).
  unfold countSketchMapReduce. rewrite rdd_map_emitted by done.
  cbn [mbind result_bind].
  rewrite fmap_app, fmap_cons, !fmap_replicate. simpl (emitted <$> [x]).
  simpl (emitted <$> []).
  destruct (emitted x) as [k v] eqn:E.
  rewrite reduceByKey_single by done. simpl.
  rewrite bool_decide_true by (by repeat constructor).
  do 2 f_equal. unfold emitted in E. injection E as _ <-.
  unfold scale. by rewrite length_fmap.
Qed.

(** The map-reduce sketcher on no vector: the result has no column. *)
Lemma countSketchMapReduce_no_vector sc parts s :
  valid_spark sc → concat parts = [] →
  countSketchMapReduce sc parts s = Ok (NDArray 0 []).
Proof.
  intros Hsc Hnil. rewrite (concat_nil_replicate _ Hnil).
  unfold countSketchMapReduce, rdd_map.
  rewrite (mapM_Ok _ (λ _, [])); last first.
  { intros part Hpart. by apply elem_of_replicate in Hpart as [-> _]. }
  rewrite fmap_replicate. cbn [mbind result_bind].
  by rewrite reduceByKey_nothing.
Qed.

(** ** Empty buckets and buckets with one column *)

Lemma summed_none np cols hs gs i r :
  valid_numpy np → bucket_addends cols hs gs i r = [] →
  summed np cols hs gs i r = fzero.
Proof.
  intros Hnp H. unfold summed. rewrite H. apply run_plan_empty, Hnp.
Qed.

Lemma summed_one np cols hs gs i r x :
  valid_numpy np → bucket_addends cols hs gs i r = [x] → x ≠ S754_zero true →
  summed np cols hs gs i r = x.
Proof.
  intros Hnp H Hx. unfold summed. rewrite H. apply run_plan_single; [apply Hnp|done].
Qed.

Lemma masked_absent {A : Type} hs i (l : list A) :
  i ∉ hs → masked (eq_mask hs i) l = [].
Proof.
  revert l. induction hs as [|h hs IH]; intros l Hi.
  - apply masked_nil_l.
  - apply not_elem_of_cons in Hi as [Hne Hi]. destruct l as [|x l]; [done|].
    unfold eq_mask. rewrite fmap_cons, masked_cons.
    rewrite bool_decide_false by done. by apply IH.
Qed.

Lemma bucket_addends_absent cols hs gs i r :
  i ∉ hs → bucket_addends cols hs gs i r = [].
Proof. intros Hi. unfold bucket_addends. by rewrite masked_absent. Qed.

Lemma addends_absent (cols : list vector) hs gs i r :
  i ∉ hs → addends (zip cols (zip hs gs)) i r = [].
Proof.
  revert hs gs. induction cols as [|c cols IH]; intros [|h hs] [|g gs] Hi; try done.
  apply not_elem_of_cons in Hi as [Hne Hi].
  change (zip (c :: cols) (zip (h :: hs) (g :: gs)))
    with ((c, (h, g)) :: zip cols (zip hs gs)).
  rewrite addends_cons. cbn [fst snd]. rewrite bool_decide_false by done.
  by apply IH.
Qed.

Lemma zeros_tabulate m : zeros m = (λ _ : nat, fzero) <$> seq 0 m.
Proof.
  unfold zeros. induction m as [|m IH]; [done|].
  by rewrite replicate_S_end, seq_S, fmap_app, <- IH.
Qed.

(** A bucket without columns is a zero column of the in-memory sketch. *)
Lemma countSketchInMemroy_empty_bucket np matrixA s rnd i :
  valid_numpy np → 0 < s → valid_draws matrixA s rnd →
  0 ≤ i < s → i ∉ drawn_buckets rnd →
  ∃ C, countSketchInMemroy np matrixA s rnd = Ok C
       ∧ get_column C i = Ok (zeros (nrows matrixA)).
Proof.
  intros Hnp Hs Hv Hi Hempty.
  destruct (valid_draws_lengths _ _ _ Hv) as (Hh & Hb & _ & _).
  eexists. split; [by apply countSketchInMemroy_closed|].
  rewrite get_column_tabulate by done. f_equal.
  rewrite zeros_tabulate. apply list_fmap_ext. intros _ r _.
  apply summed_none; [done|]. by apply bucket_addends_absent.
Qed.

(** And of the streaming sketch. *)
Lemma countSketchStreaming_empty_bucket np matrixA s rnd i :
  0 < s → wf_ndarray matrixA → valid_draws matrixA s rnd →
  0 ≤ i < s → i ∉ drawn_buckets rnd →
  ∃ C, countSketchStreaming np matrixA s rnd = Ok C
       ∧ get_column C i = Ok (zeros (nrows matrixA)).
Proof.
  intros Hs Hwf Hv Hi Hempty.
  destruct (valid_draws_lengths _ _ _ Hv) as (Hh & Hb & Hr & _).
  eexists. split; [by apply countSketchStreaming_closed|].
  rewrite get_column_tabulate by done. f_equal.
  rewrite zeros_tabulate. apply list_fmap_ext. intros _ r _.
  unfold accumulated. by rewrite addends_absent.
Qed.

(** The in-memory sketch has [m] rows and [s] columns, and is the zero
    array when the matrix has no column. *)
Lemma countSketchInMemroy_shape np matrixA s rnd :
  0 < s → valid_draws matrixA s rnd →
  ∃ C, countSketchInMemroy np matrixA s rnd = Ok C
       ∧ shape C = (nrows matrixA, Z.to_nat s)
       ∧ wf_ndarray C
       ∧ (valid_numpy np → columns matrixA = [] →
          C = NDArray (nrows matrixA) (replicate (Z.to_nat s) (zeros (nrows matrixA)))).
Proof.
  intros Hs Hv.
  destruct (valid_draws_lengths _ _ _ Hv) as (Hh & Hb & _ & _).
  eexists. split; [by apply countSketchInMemroy_closed|].
  split; [apply tabulate_shape|]. split; [apply tabulate_shape|].
  intros Hnp Hn. rewrite tabulate_zero. apply tabulate_ext. intros i r _ _.
  apply summed_none; [done|]. unfold bucket_addends. by rewrite Hn.
Qed.

Lemma example_valid_draws : valid_draws example_matrix 2 example_draws.
Proof. repeat split; simpl; repeat constructor; lia. Qed.

Lemma example_wf : wf_ndarray example_matrix.
Proof. repeat constructor. Qed.

Lemma single_valid_draws : valid_draws single_column 2 single_draws.
Proof. repeat split; simpl; repeat constructor; lia. Qed.

Lemma single_wf : wf_ndarray single_column.
Proof. repeat constructor. Qed.

Lemma single_partitioning : partitioning single_column single_draws single_rdd.
Proof. unfold partitioning, single_rdd. simpl. reflexivity. Qed.

(** The in-memory sketch of the one-column example, for every order of
    summation. *)
Lemma countSketchInMemroy_single np :
  valid_numpy np →
  countSketchInMemroy np single_column 2 single_draws
  = Ok (float_array (NDArray 2 [[0; 0]; [1; 2]])).
Proof.
  intros Hnp. rewrite countSketchInMemroy_closed by (done || lia).
  set (E := summed np (columns single_column) (drawn_buckets single_draws)
              (signs_of single_draws)).
  change (tabulate (nrows single_column) 2 E)
    with (NDArray 2 [[E 0 0%nat; E 0 1%nat]; [E 1 0%nat; E 1 1%nat]]).
  change (float_array (NDArray 2 [[0; 0]; [1; 2]]))
    with (NDArray 2 [[fzero; fzero]; [float_of_int 1; float_of_int 2]]).
  unfold E. rewrite !(summed_none np _ _ _ 0) by done.
  rewrite (summed_one np _ _ _ 1 0 (float_of_int 1)) by done.
  by rewrite (summed_one np _ _ _ 1 1 (float_of_int 2)) by done.
Qed.

(** ** The example matrix *)

Lemma example_int_values : int_values example_matrix = Some example_ints.
Proof. reflexivity. Qed.

Lemma example_bounded : bounded_rows example_ints.
Proof. intros [|[|r]] Hr; [by vm_compute..|simpl in Hr; lia]. Qed.

(** ** Scaling a matrix of integers *)

Lemma Zsum_abs_elem x l : x ∈ l → Z.abs x ≤ Exact.Zsum (Z.abs <$> l).
Proof.
  induction 1 as [x l|x y l _ IH]; rewrite fmap_cons, Zsum_cons;
    pose proof (Zsum_abs_nonneg l); lia.
Qed.

Lemma Zsum_abs_scale alpha l :
  Exact.Zsum (Z.abs <$> (Z.mul alpha <$> l)) = Z.abs alpha * Exact.Zsum (Z.abs <$> l).
Proof.
  induction l as [|x l IH]; [rewrite !fmap_nil, Zsum_nil; lia|].
  rewrite !fmap_cons, !Zsum_cons, IH. lia.
Qed.

Lemma exact_row_scale alpha A r :
  Exact.row (Exact.np_scale alpha A) r = Z.mul alpha <$> Exact.row A r.
Proof.
  unfold Exact.row, Exact.np_scale. simpl. rewrite <- !list_fmap_compose.
  apply list_fmap_ext. intros _ c _. simpl. apply exact_nth_scale.
Qed.

(** The entries of a rectangular matrix with bounded rows are bounded. *)
Lemma entries_bounded (A : ndarray Z) :
  wf_ndarray A → bounded_rows A →
  Forall (Forall (λ z, Z.abs z < 2 ^ 53)) (columns A).
Proof.
  intros Hwf Hb. apply Forall_forall. intros c Hc.
  apply Forall_lookup_2. intros r z Hz.
  pose proof (proj1 (Forall_forall _ _) Hwf c Hc) as Hl. simpl in Hl.
  assert (r < nrows A)%nat as Hr by (apply lookup_lt_Some in Hz; lia).
  eapply Z.le_lt_trans; [|exact (Hb r Hr)].
  apply Zsum_abs_elem. unfold Exact.row. apply list_elem_of_fmap.
  exists c. split; [|done]. by rewrite nth_lookup, Hz.
Qed.

(** So are the entries of its exact sketch. *)
Lemma bucket_entry_bound (cols : list (list Z)) hs gs i r :
  length hs = length cols → length gs = length cols →
  Forall (λ g, g = 1 ∨ g = -1) gs →
  Z.abs (Exact.bucket_entry cols hs gs i r)
  ≤ Exact.Zsum (Z.abs <$> ((λ c : list Z, nth r c 0) <$> cols)).
Proof.
  intros Hh Hg Hs. unfold Exact.bucket_entry. rewrite <- Zsum_addends.
  etrans; [apply Zsum_abs|].
  etrans; [apply Zsum_abs_addends; by apply tagged_signs|].
  rewrite tagged_row; [done|]. rewrite length_zip_with. lia.
Qed.

Lemma int_values_np_scale matrixA A alpha :
  int_values matrixA = Some A → Z.abs alpha < 2 ^ 53 →
  Forall (Forall (λ z, Z.abs (alpha * z) < 2 ^ 53)) (columns A) →
  int_values (np_scale (float_of_int alpha) matrixA) = Some (Exact.np_scale alpha A).
Proof.
  intros HA Ha Hb. apply int_values_inv in HA as [Hn Hc].
  apply int_values_intro; [done|]. simpl.
  apply Forall2_fmap.
  induction Hc as [|c zc cols zcols Hcz Hc IH]; [constructor|].
  apply Forall_cons in Hb as [Hbc Hb]. constructor; [|by apply IH].
  unfold Exact.scale. apply Forall2_fmap.
  induction Hcz as [|x z c zc Hxz Hcz IHc]; [constructor|].
  apply Forall_cons in Hbc as [Hz Hbc]. constructor; [|by apply IHc].
  apply int_value_fmul; [apply int_value_float_of_int; lia|done|lia].
Qed.

Lemma np_scale_columns alpha (A : ndarray float64) :
  length (columns (np_scale alpha A)) = length (columns A).
Proof. unfold np_scale. simpl. by rewrite length_fmap. Qed.

(** ** [reduceByKey] on vectors of integers *)

Lemma assoc_Some_elem {V : Type} k (l : list (Z * V)) v :
  assoc k l = Some v → (k, v) ∈ l.
Proof.
  induction l as [|[k' v'] l IH]; [done|]. simpl.
  case_bool_decide as Hk.
  - intros [= ->]. subst. left.
  - intros H. right. by apply IH.
Qed.

Lemma assoc_None {V : Type} k (l : list (Z * V)) :
  assoc k l = None ↔ k ∉ l.*1.
Proof.
  induction l as [|[k' v'] l IH]; simpl.
  - split; [intros _; apply not_elem_of_nil|done].
  - case_bool_decide as Hk.
    + subst. split; [done|]. intros H. destruct H. left.
    + rewrite IH, not_elem_of_cons. split; [intros ?; split; [congruence|done]|by intros [_ ?]].
Qed.

Lemma assoc_is_Some {V : Type} k (l : list (Z * V)) :
  is_Some (assoc k l) ↔ k ∈ l.*1.
Proof.
  destruct (assoc k l) as [v|] eqn:E.
  - split; [intros _|by eauto]. apply assoc_Some_elem in E.
    apply list_elem_of_fmap. by exists (k, v).
  - split; [by intros [? ?]|]. intros H. by apply assoc_None in E.
Qed.

Lemma merge_value_Some {V : Type} (f : V → V → result V) k v acc v' w :
  assoc k acc = Some v' → f v' v = Ok w →
  ∃ acc', merge_value f k v acc = Ok acc'
          ∧ assoc k acc' = Some w
          ∧ ∀ k', k' ≠ k → assoc k' acc' = assoc k' acc.
Proof.
  intros Ha Hf. induction acc as [|[k1 v1] acc IH]; [done|].
  simpl in Ha |- *. case_bool_decide as Hk.
  - injection Ha as ->. subst k1. rewrite Hf. simpl. eexists. split; [done|].
    simpl. rewrite bool_decide_true by done. split; [done|].
    intros k' Hk'. by rewrite !bool_decide_false by done.
  - destruct (IH Ha) as (acc' & -> & Hw & Hother). simpl.
    eexists. split; [done|]. simpl. rewrite bool_decide_false by done.
    split; [done|]. intros k' Hk'. case_bool_decide; [done|]. by apply Hother.
Qed.

Lemma merge_value_None {V : Type} (f : V → V → result V) k v acc :
  assoc k acc = None →
  ∃ acc', merge_value f k v acc = Ok acc'
          ∧ assoc k acc' = Some v
          ∧ ∀ k', k' ≠ k → assoc k' acc' = assoc k' acc.
Proof.
  intros Ha. induction acc as [|[k1 v1] acc IH].
  - simpl. eexists. split; [done|]. simpl. rewrite bool_decide_true by done.
    split; [done|]. intros k' Hk'. by rewrite bool_decide_false by done.
  - simpl in Ha |- *. case_bool_decide as Hk; [done|].
    destruct (IH Ha) as (acc' & -> & Hw & Hother). simpl.
    eexists. split; [done|]. simpl. rewrite bool_decide_false by done.
    split; [done|]. intros k' Hk'. case_bool_decide; [done|]. by apply Hother.
Qed.

(** *** Sums of pairs *)

Lemma key_total_nil k i : key_total [] k i = 0.
Proof. done. Qed.

Lemma key_total_app p1 p2 k i :
  key_total (p1 ++ p2) k i = key_total p1 k i + key_total p2 k i.
Proof.
  unfold key_total, Exact.keyed_sum, int_pairs. by rewrite !fmap_app, Zsum_app.
Qed.

Lemma key_total_cons p pairs k i :
  key_total (p :: pairs) k i
  = (if bool_decide (p.1 = k) then nth i (ints_of p.2) 0 else 0) + key_total pairs k i.
Proof. unfold key_total, Exact.keyed_sum, int_pairs. by rewrite !fmap_cons, Zsum_cons. Qed.

Lemma key_total_absent pairs k i : k ∉ pairs.*1 → key_total pairs k i = 0.
Proof.
  induction pairs as [|p pairs IH]; [done|]. rewrite fmap_cons, not_elem_of_cons.
  intros [Hk Hin]. rewrite key_total_cons, IH by done.
  by rewrite bool_decide_false by done.
Qed.

Lemma key_total_Permutation p1 p2 k i : p1 ≡ₚ p2 → key_total p1 k i = key_total p2 k i.
Proof.
  intros H. unfold key_total, Exact.keyed_sum, int_pairs.
  apply Zsum_Permutation. by rewrite H.
Qed.

Lemma row_weight_nil i : row_weight [] i = 0.
Proof. done. Qed.

Lemma row_weight_app p1 p2 i : row_weight (p1 ++ p2) i = row_weight p1 i + row_weight p2 i.
Proof. unfold row_weight, int_pairs. by rewrite !fmap_app, Zsum_app. Qed.

Lemma row_weight_cons p pairs i :
  row_weight (p :: pairs) i = Z.abs (nth i (ints_of p.2) 0) + row_weight pairs i.
Proof. unfold row_weight, int_pairs. by rewrite !fmap_cons, Zsum_cons. Qed.

Lemma row_weight_nonneg pairs i : 0 ≤ row_weight pairs i.
Proof.
  induction pairs as [|p pairs IH]; [done|]. rewrite row_weight_cons. lia.
Qed.

Lemma row_weight_Permutation p1 p2 i : p1 ≡ₚ p2 → row_weight p1 i = row_weight p2 i.
Proof.
  intros H. unfold row_weight, int_pairs. apply Zsum_Permutation. by rewrite H.
Qed.

Lemma key_total_abs pairs k i : Z.abs (key_total pairs k i) ≤ row_weight pairs i.
Proof.
  induction pairs as [|p pairs IH]; [done|].
  rewrite key_total_cons, row_weight_cons. case_bool_decide; lia.
Qed.

Lemma row_weight_part (r : list (list (Z * vector))) part i :
  part ∈ r → row_weight part i ≤ row_weight (concat r) i.
Proof.
  intros Hp. apply list_elem_of_split in Hp as (l1 & l2 & ->).
  rewrite concat_app, concat_cons, !row_weight_app.
  pose proof (row_weight_nonneg (concat l1) i).
  pose proof (row_weight_nonneg (concat l2) i). lia.
Qed.

(** *** Vectors of integers *)

Lemma int_vector_ext m v g h :
  int_vector m v g → (∀ i, (i < m)%nat → g i = h i) → int_vector m v h.
Proof.
  intros [Hl Hv] Hgh. split; [done|]. intros i Hi. rewrite <- Hgh by done. by apply Hv.
Qed.

Lemma int_vector_ints_of m (p : Z * vector) :
  int_pair m p → int_vector m p.2 (λ i, nth i (ints_of p.2) 0).
Proof.
  intros [Hl Hint]. split; [done|]. intros i Hi.
  destruct (lookup_lt_is_Some_2 p.2 i) as [x Hx]; [lia|].
  pose proof (proj1 (Forall_lookup _ _) Hint i x Hx) as [z Hz].
  unfold ints_of. rewrite !nth_lookup, list_lookup_fmap, Hx. simpl. by rewrite Hz.
Qed.

(** [v1 + v2] on two vectors of [m] integers whose sums stay below
    [2^53]. *)
Lemma vadd_exact m v w g h :
  int_vector m v g → int_vector m w h →
  (∀ i, (i < m)%nat → Z.abs (g i + h i) < 2 ^ 53) →
  ∃ u, vadd v w = Ok u ∧ int_vector m u (λ i, g i + h i).
Proof.
  intros [Hlv Hv] [Hlw Hw] Hb. unfold vadd.
  rewrite bool_decide_true by congruence. eexists. split; [done|].
  split; [rewrite length_zip_with; lia|]. intros i Hi.
  destruct (lookup_lt_is_Some_2 v i) as [x Hx]; [lia|].
  destruct (lookup_lt_is_Some_2 w i) as [y Hy]; [lia|].
  specialize (Hv i Hi). specialize (Hw i Hi). specialize (Hb i Hi).
  rewrite nth_lookup in Hv, Hw. rewrite Hx in Hv. rewrite Hy in Hw. simpl in Hv, Hw.
  rewrite nth_lookup, lookup_zip_with, Hx, Hy. simpl.
  apply int_value_fadd; [done..|lia].
Qed.

(** *** The map side *)

Lemma combined_snoc m k acc acc' pre (p : Z * vector) :
  combined m k acc pre → p.1 ≠ k → assoc k acc' = assoc k acc →
  combined m k acc' (pre ++ [p]).
Proof.
  unfold combined. intros H Hk ->.
  assert (∀ i, key_total (pre ++ [p]) k i = key_total pre k i) as Hsum.
  { intros i. rewrite key_total_app, key_total_cons, key_total_nil.
    rewrite bool_decide_false by done. lia. }
  rewrite fmap_app. simpl.
  destruct (assoc k acc) as [v|].
  - destruct H as [Hin Hv]. split; [apply elem_of_app; by left|].
    eapply int_vector_ext; [done|]. intros i _. by rewrite Hsum.
  - rewrite not_elem_of_app, not_elem_of_cons. split; [done|].
    split; [done|apply not_elem_of_nil].
Qed.

Lemma combine_locally_from m part : ∀ acc pre,
  Forall (int_pair m) part →
  (∀ k, combined m k acc pre) →
  (∀ i, (i < m)%nat → row_weight (pre ++ part) i < 2 ^ 53) →
  ∃ loc, for_each part (λ kv acc, merge_value vadd kv.1 kv.2 acc) acc = Ok loc
         ∧ ∀ k, combined m k loc (pre ++ part).
Proof.
  induction part as [|[k0 v] part IH]; intros acc pre Hpart Hacc Hb.
  { exists acc. split; [done|]. by rewrite app_nil_r. }
  apply Forall_cons in Hpart as [Hp Hpart].
  pose proof (int_vector_ints_of m (k0, v) Hp) as Hv. simpl in Hv.
  assert (∀ i, (i < m)%nat → row_weight (pre ++ [(k0, v)]) i < 2 ^ 53) as Hb1.
  { intros i Hi. specialize (Hb i Hi).
    rewrite row_weight_app, row_weight_cons in Hb.
    rewrite row_weight_app, row_weight_cons, row_weight_nil.
    pose proof (row_weight_nonneg part i). simpl in *. lia. }
  assert (∃ acc', merge_value vadd k0 v acc = Ok acc'
                  ∧ ∀ k, combined m k acc' (pre ++ [(k0, v)])) as (acc' & Hm & Hacc').
  { pose proof (Hacc k0) as H0. unfold combined in H0.
    destruct (assoc k0 acc) as [v'|] eqn:E.
    - destruct H0 as [Hin Hv'].
      destruct (vadd_exact m v' v _ _ Hv' Hv) as (w & Hw & Hwv).
      { intros i Hi. specialize (Hb1 i Hi).
        rewrite row_weight_app, row_weight_cons, row_weight_nil in Hb1. simpl in Hb1.
        pose proof (key_total_abs pre k0 i). lia. }
      destruct (merge_value_Some vadd k0 v acc v' w E Hw) as (acc' & Hm & Hk0 & Hother).
      exists acc'. split; [done|]. intros k.
      destruct (decide (k0 = k)) as [<-|Hk].
      + unfold combined. rewrite Hk0. split.
        * rewrite fmap_app. apply elem_of_app. by left.
        * eapply int_vector_ext; [done|]. intros i _. simpl.
          rewrite key_total_app, key_total_cons, key_total_nil. simpl.
          rewrite bool_decide_true by done. lia.
      + apply combined_snoc with acc; [done|done|]. apply Hother. congruence.
    - destruct (merge_value_None vadd k0 v acc E) as (acc' & Hm & Hk0 & Hother).
      exists acc'. split; [done|]. intros k.
      destruct (decide (k0 = k)) as [<-|Hk].
      + unfold combined. rewrite Hk0. split.
        * rewrite fmap_app. apply elem_of_app. right. simpl. left.
        * eapply int_vector_ext; [done|]. intros i _. simpl.
          rewrite key_total_app, key_total_cons, key_total_nil. simpl.
          rewrite bool_decide_true by done. rewrite (key_total_absent pre) by done. lia.
      + apply combined_snoc with acc; [done|done|]. apply Hother. congruence. }
  destruct (IH acc' (pre ++ [(k0, v)])) as (loc & Hloc & Hcomb); [done|done| |].
  { intros i Hi. rewrite <- app_assoc. simpl. by apply Hb. }
  exists loc. simpl. rewrite Hm. simpl. split; [done|].
  intros k. specialize (Hcomb k). by rewrite <- app_assoc in Hcomb.
Qed.

Lemma combine_locally_exact m part :
  Forall (int_pair m) part →
  (∀ i, (i < m)%nat → row_weight part i < 2 ^ 53) →
  ∃ loc, combine_locally vadd part = Ok loc ∧ ∀ k, combined m k loc part.
Proof.
  intros Hpart Hb. apply (combine_locally_from m part [] []); [done| |done].
  intros k. unfold combined. simpl. apply not_elem_of_nil.
Qed.

(** *** The reduce side *)

Lemma elem_of_concat {A : Type} (x : A) (ls : list (list A)) :
  x ∈ concat ls ↔ ∃ l, x ∈ l ∧ l ∈ ls.
Proof.
  induction ls as [|l ls IH]; simpl.
  - split; [by intros ?%elem_of_nil|by intros (? & _ & ?%elem_of_nil)].
  - rewrite elem_of_app, IH. split.
    + intros [H|(l' & H & Hl')]; [exists l; split; [done|left]|].
      exists l'. split; [done|by right].
    + intros (l' & H & [->|Hl']%elem_of_cons); [by left|]. right. by exists l'.
Qed.

Lemma Zsum_fmap_Permutation {A : Type} (F : A → Z) l1 l2 :
  l1 ≡ₚ l2 → Exact.Zsum (F <$> l1) = Exact.Zsum (F <$> l2).
Proof. intros H. apply Zsum_Permutation. by rewrite H. Qed.

Lemma sum_over_partitions {A : Type} (F : list A → Z) (r : list (list A)) :
  Exact.Zsum ((λ p, F (default [] (r !! p))) <$> seq 0 (length r)) = Exact.Zsum (F <$> r).
Proof.
  induction r as [|x r IH] using rev_ind; [done|].
  rewrite length_app, Nat.add_1_r, seq_S, !fmap_app, !Zsum_app. f_equal.
  - rewrite <- IH. f_equal. apply list_fmap_ext. intros j p Hp.
    apply lookup_seq in Hp as [-> Hp]. simpl. by rewrite lookup_app_l by lia.
  - simpl. by rewrite list_lookup_middle by done.
Qed.

Lemma key_total_concat (r : list (list (Z * vector))) k i :
  key_total (concat r) k i = Exact.Zsum ((λ part, key_total part k i) <$> r).
Proof.
  induction r as [|part r IH]; [done|].
  rewrite concat_cons, key_total_app, fmap_cons, Zsum_cons, IH. done.
Qed.

Lemma row_weight_concat (r : list (list (Z * vector))) i :
  row_weight (concat r) i = Exact.Zsum ((λ part, row_weight part i) <$> r).
Proof.
  induction r as [|part r IH]; [done|].
  rewrite concat_cons, row_weight_app, fmap_cons, Zsum_cons, IH. done.
Qed.

Section reduce_side.
Variables (m : nat) (k : Z) (locals r : list (list (Z * vector))).
Hypothesis Hlocals : Forall2 (combined m k) locals r.

(** What partition [p] holds for the key. *)
Lemma combiner_case p :
  match locals !! p ≫= assoc k with
  | Some w => int_vector m w (key_total (default [] (r !! p)) k)
  | None => ∀ i, key_total (default [] (r !! p)) k i = 0
  end.
Proof.
  destruct (locals !! p) as [loc|] eqn:El.
  - destruct (Forall2_lookup_l _ _ _ _ _ Hlocals El) as (part & Hpart & Hc).
    rewrite Hpart. simpl.
    unfold combined in Hc. destruct (assoc k loc) as [w|]; [by destruct Hc|].
    intros i. by apply key_total_absent.
  - apply lookup_ge_None in El. rewrite (Forall2_length _ _ _ Hlocals) in El.
    apply lookup_ge_None in El. rewrite El. done.
Qed.

Lemma combiners_of_cons p order :
  combiners_of locals k (p :: order)
  = match locals !! p ≫= assoc k with
    | Some w => w :: combiners_of locals k order
    | None => combiners_of locals k order
    end.
Proof. done. Qed.

Lemma merge_from order : ∀ v0 g0,
  int_vector m v0 g0 →
  (∀ i, (i < m)%nat →
     Z.abs (g0 i)
     + Exact.Zsum ((λ p, row_weight (default [] (r !! p)) i) <$> order) < 2 ^ 53) →
  ∃ v, for_each (combiners_of locals k order) (λ w acc, vadd acc w) v0 = Ok v
       ∧ int_vector m v
           (λ i, g0 i
                 + Exact.Zsum ((λ p, key_total (default [] (r !! p)) k i) <$> order)).
Proof.
  induction order as [|p order IH]; intros v0 g0 Hv0 Hb.
  { exists v0. split; [done|]. eapply int_vector_ext; [done|].
    intros i _. rewrite fmap_nil, Zsum_nil. lia. }
  rewrite combiners_of_cons. pose proof (combiner_case p) as Hp.
  assert (∀ i, (i < m)%nat →
            Z.abs (g0 i) + row_weight (default [] (r !! p)) i
            + Exact.Zsum ((λ p, row_weight (default [] (r !! p)) i) <$> order)
            < 2 ^ 53) as Hb'.
  { intros i Hi. specialize (Hb i Hi). rewrite fmap_cons, Zsum_cons in Hb. lia. }
  assert (∀ i, 0 ≤ Exact.Zsum ((λ p, row_weight (default [] (r !! p)) i) <$> order))
    as Hnn.
  { intros i. clear. induction order as [|q order IH]; [done|].
    rewrite fmap_cons, Zsum_cons. pose proof (row_weight_nonneg (default [] (r !! q)) i).
    lia. }
  destruct (locals !! p ≫= assoc k) as [w|].
  - destruct (vadd_exact m v0 w _ _ Hv0 Hp) as (u & Hu & Huv).
    { intros i Hi. specialize (Hb' i Hi). specialize (Hnn i).
      pose proof (key_total_abs (default [] (r !! p)) k i). lia. }
    destruct (IH u _ Huv) as (v & Hv & Hvv).
    { intros i Hi. specialize (Hb' i Hi).
      pose proof (key_total_abs (default [] (r !! p)) k i). lia. }
    exists v. split; [cbn [for_each]; by rewrite Hu|].
    eapply int_vector_ext; [done|]. intros i _. cbv beta.
    rewrite fmap_cons, Zsum_cons. lia.
  - destruct (IH v0 g0 Hv0) as (v & Hv & Hvv).
    { intros i Hi. specialize (Hb' i Hi).
      pose proof (row_weight_nonneg (default [] (r !! p)) i). lia. }
    exists v. split; [done|]. eapply int_vector_ext; [done|]. intros i _. cbv beta.
    rewrite fmap_cons, Zsum_cons, Hp. lia.
Qed.

Lemma merge_combiners_from order :
  (∀ i, (i < m)%nat →
     Exact.Zsum ((λ p, row_weight (default [] (r !! p)) i) <$> order) < 2 ^ 53) →
  (∃ p, p ∈ order ∧ is_Some (locals !! p ≫= assoc k)) →
  ∃ v, merge_combiners vadd (combiners_of locals k order) = Ok (Some v)
       ∧ int_vector m v
           (λ i, Exact.Zsum ((λ p, key_total (default [] (r !! p)) k i) <$> order)).
Proof.
  induction order as [|p order IH]; intros Hb (q & Hq & Hsome).
  { by apply elem_of_nil in Hq. }
  rewrite combiners_of_cons. pose proof (combiner_case p) as Hp.
  destruct (locals !! p ≫= assoc k) as [w|] eqn:E.
  - destruct (merge_from order w _ Hp) as (v & Hv & Hvv).
    { intros i Hi. specialize (Hb i Hi). rewrite fmap_cons, Zsum_cons in Hb.
      pose proof (key_total_abs (default [] (r !! p)) k i). lia. }
    exists v. split; [cbn [merge_combiners]; by rewrite Hv|].
    eapply int_vector_ext; [done|]. intros i _. cbv beta.
    by rewrite fmap_cons, Zsum_cons.
  - destruct IH as (v & Hv & Hvv).
    + intros i Hi. specialize (Hb i Hi). rewrite fmap_cons, Zsum_cons in Hb.
      pose proof (row_weight_nonneg (default [] (r !! p)) i). lia.
    + exists q. split; [|done]. apply elem_of_cons in Hq as [->|Hq]; [|done].
      rewrite E in Hsome. by destruct Hsome.
    + exists v. split; [done|]. eapply int_vector_ext; [done|]. intros i _. cbv beta.
      rewrite fmap_cons, Zsum_cons, Hp. lia.
Qed.

(** The reducer of the key, whatever the order in which it receives the
    results of the partitions. *)
Lemma merge_combiners_exact order :
  order ≡ₚ seq 0 (length r) →
  (∀ i, (i < m)%nat → row_weight (concat r) i < 2 ^ 53) →
  k ∈ (concat r).*1 →
  ∃ v, merge_combiners vadd (combiners_of locals k order) = Ok (Some v)
       ∧ int_vector m v (key_total (concat r) k).
Proof.
  intros Horder Hb Hk.
  destruct (merge_combiners_from order) as (v & Hv & Hvv).
  - intros i Hi. rewrite (Zsum_fmap_Permutation _ _ _ Horder).
    rewrite (sum_over_partitions (λ part, row_weight part i)).
    rewrite <- row_weight_concat. by apply Hb.
  - apply list_elem_of_fmap in Hk as ([k' w] & Hk' & Hin). simpl in Hk'. subst k'.
    apply elem_of_concat in Hin as (part & Hin & Hpart).
    apply list_elem_of_lookup in Hpart as [p Hp].
    destruct (Forall2_lookup_r _ _ _ _ _ Hlocals Hp) as (loc & Hloc & Hc).
    exists p. split.
    + rewrite Horder. apply elem_of_seq. apply lookup_lt_Some in Hp. lia.
    + rewrite Hloc. simpl.
      unfold combined in Hc. destruct (assoc k loc) as [u|] eqn:E; [done|].
      exfalso. apply Hc. apply list_elem_of_fmap. by exists (k, w).
  - exists v. split; [done|]. eapply int_vector_ext; [done|]. intros i _. cbv beta.
    rewrite (Zsum_fmap_Permutation _ _ _ Horder).
    rewrite (sum_over_partitions (λ part, key_total part k i)).
    by rewrite key_total_concat.
Qed.
End reduce_side.

(** *** The whole of [reduceByKey] *)

Lemma mapM_result {A B : Type} (f : A → result B) (P : A → B → Prop) l :
  (∀ x, x ∈ l → ∃ y, f x = Ok y ∧ P x y) →
  ∃ ys, mapM f l = Ok ys ∧ Forall2 P l ys.
Proof.
  induction l as [|x l IH]; intros H.
  { exists []. by split. }
  destruct (H x) as (y & Hy & HP); [left|].
  destruct IH as (ys & Hys & HF); [intros; apply H; by right|].
  exists (y :: ys). simpl. rewrite Hy. simpl. rewrite Hys. by split; [|constructor].
Qed.

Lemma keys_concat {V : Type} k (ls : list (list (Z * V))) :
  k ∈ (concat ls).*1 ↔ ∃ l, l ∈ ls ∧ k ∈ l.*1.
Proof.
  split.
  - intros ([k' v] & -> & Hin)%list_elem_of_fmap.
    apply elem_of_concat in Hin as (l & Hin & Hl). exists l. split; [done|].
    apply list_elem_of_fmap. by exists (k', v).
  - intros (l & Hl & ([k' v] & -> & Hin)%list_elem_of_fmap).
    apply list_elem_of_fmap. exists (k', v). split; [done|].
    apply elem_of_concat. by exists l.
Qed.

Lemma merged_values {V : Type} (Q : Z → V → Prop) ks (merged : list (Z * option V)) :
  Forall2 (λ k kv, ∃ v, kv = (k, Some v) ∧ Q k v) ks merged →
  (omap (λ kv : Z * option V, pair kv.1 <$> kv.2) merged).*1 = ks
  ∧ Forall (λ kv, Q kv.1 kv.2) (omap (λ kv : Z * option V, pair kv.1 <$> kv.2) merged).
Proof.
  induction 1 as [|k kv ks merged (v & -> & HQ) _ [IH1 IH2]]; [done|].
  cbn [omap list_omap fst snd fmap option_fmap option_map]. split.
  - rewrite fmap_cons. simpl. by f_equal.
  - by constructor.
Qed.

(** On pairs of vectors of [m] integers whose rows add up, in absolute
    value, to less than [2^53], [reduceByKey] with [v1 + v2] returns, for
    every key of the pairs and whatever the partitions and the order of
    Spark, the vector of the sums of the values of the key. *)
Lemma reduceByKey_exact sc m (r : rdd (Z * vector)) :
  valid_spark sc →
  Forall (int_pair m) (concat r) →
  (∀ i, (i < m)%nat → row_weight (concat r) i < 2 ^ 53) →
  ∃ out, reduceByKey sc vadd r = Ok [out]
         ∧ out.*1 ≡ₚ remove_dups (concat r).*1
         ∧ Forall (λ kv : Z * vector, int_vector m kv.2 (key_total (concat r) kv.1)) out.
Proof.
  intros [Hfetch Hkeys] Hint Hb. unfold reduceByKey.
  destruct (mapM_result (combine_locally vadd)
              (λ part loc, ∀ k, combined m k loc part) r) as (locals & -> & Hlocals).
  { intros part Hpart. apply combine_locally_exact.
    - apply Forall_forall. intros x Hx. apply (proj1 (Forall_forall _ _) Hint).
      apply elem_of_concat. by exists part.
    - intros i Hi. eapply Z.le_lt_trans; [by apply row_weight_part|by apply Hb]. }
  cbn [mbind result_bind].
  assert (∀ k, k ∈ (concat locals).*1 ↔ k ∈ (concat r).*1) as Hsame.
  { intros k. rewrite !keys_concat. split.
    - intros (loc & Hloc & Hk). apply list_elem_of_lookup in Hloc as [p Hp].
      destruct (Forall2_lookup_r _ _ _ _ _ Hlocals Hp) as (part & Hpart & Hc).
      exists part. split; [by eapply list_elem_of_lookup_2|].
      specialize (Hc k). unfold combined in Hc.
      destruct (assoc k loc) as [v|] eqn:E; [by destruct Hc|].
      by apply assoc_None in E.
    - intros (part & Hpart & Hk). apply list_elem_of_lookup in Hpart as [p Hp].
      destruct (Forall2_lookup_l _ _ _ _ _ Hlocals Hp) as (loc & Hloc & Hc).
      exists loc. split; [by eapply list_elem_of_lookup_2|].
      specialize (Hc k). unfold combined in Hc.
      destruct (assoc k loc) as [v|] eqn:E; [|done].
      apply assoc_is_Some. by rewrite E. }
  destruct (mapM_result
              (λ k, v ← merge_combiners vadd
                          (combiners_of locals k (fetch_order sc (length r) k));
                    Ok (k, v))
              (λ k kv, ∃ v, kv = (k, Some v) ∧ int_vector m v (key_total (concat r) k))
              (key_order sc (remove_dups (concat locals).*1)))
    as (merged & -> & Hmerged).
  { intros k Hk.
    assert (k ∈ (concat r).*1) as Hkr.
    { apply Hsame, elem_of_remove_dups.
      by apply (elem_of_Permutation_proper _ _ _ (Hkeys _)). }
    destruct (merge_combiners_exact m k locals r) with (order := fetch_order sc (length r) k)
      as (v & Hv & Hvv); [|apply Hfetch|done|done|].
    { apply Forall2_flip. eapply Forall2_impl; [exact Hlocals|].
      intros part loc Hc. apply Hc. }
    rewrite Hv. eexists. split; [done|]. by exists v. }
  cbn [mbind result_bind].
  destruct (merged_values (λ k v, int_vector m v (key_total (concat r) k)) _ _ Hmerged)
    as [Hfst Hall].
  eexists. split; [done|]. split; [|exact Hall].
  rewrite Hfst, (Hkeys _).
  apply NoDup_Permutation; [apply NoDup_remove_dups..|].
  intros k. by rewrite !elem_of_remove_dups.
Qed.

(** The same, entry by entry. *)
Lemma reduceByKey_entries sc m (r : rdd (Z * vector)) :
  valid_spark sc →
  Forall (int_pair m) (concat r) →
  (∀ i, (i < m)%nat → row_weight (concat r) i < 2 ^ 53) →
  ∃ out, reduceByKey sc vadd r = Ok [out]
         ∧ out.*1 ≡ₚ remove_dups (concat r).*1
         ∧ ∀ k i, (i < m)%nat → int_entry out k i = Some (key_total (concat r) k i).
Proof.
  intros Hsc Hint Hb.
  destruct (reduceByKey_exact sc m r Hsc Hint Hb) as (out & Hout & Hk & Hall).
  exists out. split; [done|]. split; [done|]. intros k i Hi. unfold int_entry.
  destruct (assoc k out) as [v|] eqn:E.
  - apply assoc_Some_elem in E.
    pose proof (proj1 (Forall_forall _ _) Hall _ E) as [_ Hv]. by apply Hv.
  - apply assoc_None in E. rewrite key_total_absent; [done|].
    intros Hin. apply E. apply (elem_of_Permutation_proper _ _ _ Hk).
    by apply elem_of_remove_dups.
Qed.

(** ** The pairs of the mapper *)

Lemma ints_of_exact (c : vector) (zc : list Z) :
  Forall2 is_int c zc → ints_of c = zc.
Proof.
  induction 1 as [|x z c zc Hx _ IH]; [done|].
  unfold ints_of in *. rewrite fmap_cons, IH, Hx. done.
Qed.

Lemma scale_sign_exact (c : vector) (zc : list Z) g :
  Forall2 is_int c zc → Forall (λ z, Z.abs z < 2 ^ 53) zc → g = 1 ∨ g = -1 →
  Forall2 is_int (scale g c) (Exact.scale g zc).
Proof.
  intros Hc Hb Hg. unfold scale, Exact.scale.
  induction Hc as [|x z c zc Hx _ IH]; [constructor|].
  apply Forall_cons in Hb as [Hz Hb]. rewrite !fmap_cons. constructor; [|by apply IH].
  by apply int_value_sign.
Qed.

Lemma int_pair_emitted m (c : vector) (zc : list Z) h b :
  length c = m → Forall2 is_int c zc → Forall (λ z, Z.abs z < 2 ^ 53) zc →
  0 ≤ b < 2 → int_pair m (emitted (c, (h, b))).
Proof.
  intros Hl Hc Hb Hbit. unfold int_pair, emitted. simpl. split.
  - unfold scale. by rewrite length_fmap.
  - assert (Forall2 is_int (scale (b * 2 - 1) c) (Exact.scale (b * 2 - 1) zc)) as H
      by (apply scale_sign_exact; [done..|lia]).
    eapply Forall2_Forall_l; [exact H|]. apply Forall_forall.
    intros z _ x Hx. by exists z.
Qed.

(** The pairs emitted for the columns of a matrix of integers with bounded
    entries, and their sums. *)
Lemma emitted_tagged m (cols : list vector) (zcols : list (list Z)) k i :
  Forall2 (Forall2 is_int) cols zcols →
  Forall (λ c : vector, length c = m) cols →
  Forall (Forall (λ z, Z.abs z < 2 ^ 53)) zcols →
  ∀ hs bits, Forall (λ b, 0 ≤ b < 2) bits →
    Forall (int_pair m) (emitted <$> zip cols (zip hs bits))
    ∧ key_total (emitted <$> zip cols (zip hs bits)) k i
      = Exact.entry_sum (zip zcols (zip hs ((λ b, b * 2 - 1) <$> bits))) k i
    ∧ row_weight (emitted <$> zip cols (zip hs bits)) i
      ≤ Exact.Zsum (Z.abs <$> ((λ c : list Z, nth i c 0) <$> zcols)).
Proof.
  induction 1 as [|c zc cols zcols Hc Hcols IH]; intros Hlen Hb hs bits Hbits.
  { repeat split; [constructor|done]. }
  apply Forall_cons in Hlen as [Hl Hlen]. apply Forall_cons in Hb as [Hzc Hb].
  rewrite !fmap_cons, Zsum_cons.
  pose proof (Zsum_abs_nonneg ((λ c : list Z, nth i c 0) <$> zcols)) as Hnn.
  destruct hs as [|h hs].
  { simpl. split; [constructor|]. split; [done|]. rewrite row_weight_nil. lia. }
  destruct bits as [|b bits].
  { simpl. split; [constructor|]. split; [done|]. rewrite row_weight_nil. lia. }
  apply Forall_cons in Hbits as [Hbit Hbits].
  destruct (IH Hlen Hb hs bits Hbits) as (IH1 & IH2 & IH3).
  cbn [zip zip_with]. rewrite !fmap_cons. cbn [zip zip_with].
  assert (ints_of (emitted (c, (h, b))).2 = Exact.scale (b * 2 - 1) zc) as Hints.
  { apply ints_of_exact. unfold emitted. simpl. apply scale_sign_exact; [done..|lia]. }
  split; [|split].
  - constructor; [by eapply int_pair_emitted|done].
  - rewrite key_total_cons, entry_sum_cons, IH2, Hints. unfold Exact.bucket_term.
    cbn [fst snd emitted]. by rewrite exact_nth_scale.
  - rewrite row_weight_cons, Hints, exact_nth_scale.
    assert (b * 2 - 1 = 1 ∨ b * 2 - 1 = -1) as [-> | ->] by lia; lia.
Qed.

Lemma remove_dups_Permutation (l1 l2 : list Z) :
  l1 ≡ₚ l2 → remove_dups l1 ≡ₚ remove_dups l2.
Proof.
  intros H. apply NoDup_Permutation; [apply NoDup_remove_dups..|].
  intros k. rewrite !elem_of_remove_dups. by rewrite H.
Qed.

(** The pairs emitted for the columns of a matrix of integers with bounded
    rows. *)
Lemma emitted_columns matrixA A s rnd :
  wf_ndarray matrixA → valid_draws matrixA s rnd →
  int_values matrixA = Some A → bounded_rows A →
  Forall (int_pair (nrows matrixA)) (emitted <$> tagged_columns matrixA rnd)
  ∧ (∀ k i, key_total (emitted <$> tagged_columns matrixA rnd) k i
            = Exact.bucket_entry (columns A) (drawn_buckets rnd) (signs_of rnd) k i)
  ∧ (∀ i, (i < nrows matrixA)%nat →
       row_weight (emitted <$> tagged_columns matrixA rnd) i < 2 ^ 53)
  ∧ (emitted <$> tagged_columns matrixA rnd).*1 = drawn_buckets rnd.
Proof.
  intros Hwf Hv HA Hb.
  destruct (valid_draws_lengths _ _ _ Hv) as (Hh & Hbl & _ & Hbits).
  pose proof (int_values_wf _ _ HA Hwf) as HwfA.
  pose proof (entries_bounded A HwfA Hb) as Hentries.
  apply int_values_inv in HA as [Hn Hcols].
  pose proof (λ k i, emitted_tagged (nrows matrixA) (columns matrixA) (columns A) k i
                       Hcols Hwf Hentries (drawn_buckets rnd) (drawn_bits rnd) Hbits) as H.
  split; [apply (H 0 0%nat)|]. split; [intros k i; apply (H k i)|]. split.
  - intros i Hi. eapply Z.le_lt_trans; [apply (H 0 i)|]. apply Hb. lia.
  - unfold tagged_columns. rewrite <- list_fmap_compose.
    assert (∀ l : list (vector * (Z * Z)), fst ∘ emitted <$> l = l.*2.*1) as ->.
    { intros l. rewrite <- list_fmap_compose. apply list_fmap_ext. by intros ? [? [? ?]]. }
    rewrite snd_zip, fst_zip; [done|lia|].
    rewrite length_zip_with. lia.
Qed.

Lemma concat_fmap {A B : Type} (f : A → B) (ls : list (list A)) :
  concat (fmap (M:=list) f <$> ls) = f <$> concat ls.
Proof.
  induction ls as [|l ls IH]; [done|]. rewrite fmap_cons. simpl. by rewrite fmap_app, IH.
Qed.

Lemma remove_dups_length_le (l k : list Z) :
  (∀ x, x ∈ l → x ∈ k) → (length (remove_dups l) ≤ length k)%nat.
Proof.
  intros H. apply submseteq_length, NoDup_submseteq; [apply NoDup_remove_dups|].
  intros x Hx. apply H. by apply elem_of_remove_dups.
Qed.

(** ** A part of the columns *)

Lemma masked_Forall2 {A B : Type} (P : A → B → Prop) mask l k :
  Forall2 P l k → Forall2 P (masked mask l) (masked mask k).
Proof.
  intros H. revert mask. induction H as [|x y l k Hxy H IH]; intros mask.
  { rewrite !masked_nil_r. constructor. }
  destruct mask as [|b mask]; [rewrite !masked_nil_l; constructor|].
  rewrite !masked_cons. destruct b; [constructor|]; auto.
Qed.

Lemma Zsum_abs_masked mask (l : list Z) :
  Exact.Zsum (Z.abs <$> masked mask l) ≤ Exact.Zsum (Z.abs <$> l).
Proof.
  revert mask. induction l as [|x l IH]; intros mask.
  { by rewrite masked_nil_r. }
  destruct mask as [|b mask].
  { rewrite masked_nil_l, fmap_nil, Zsum_nil. apply Zsum_abs_nonneg. }
  rewrite masked_cons, fmap_cons, Zsum_cons. specialize (IH mask).
  destruct b; [rewrite fmap_cons, Zsum_cons|]; lia.
Qed.

Lemma sub_matrix_exact mask matrixA A :
  int_values matrixA = Some A → bounded_rows A →
  int_values (sub_matrix mask matrixA) = Some (sub_matrix mask A)
  ∧ bounded_rows (sub_matrix mask A).
Proof.
  intros HA Hb. apply int_values_inv in HA as [Hn Hcols]. split.
  - apply int_values_intro; [done|]. simpl. by apply masked_Forall2.
  - intros r Hr. eapply Z.le_lt_trans; [|exact (Hb r Hr)].
    unfold Exact.row, sub_matrix. cbn [columns]. rewrite <- masked_fmap.
    apply Zsum_abs_masked.
Qed.

Lemma sub_draws_valid {T : Type} mask (matrixA : ndarray T) s rnd :
  valid_draws matrixA s rnd →
  valid_draws (sub_matrix mask matrixA) s (sub_draws mask rnd).
Proof.
  intros Hv. destruct (valid_draws_lengths _ _ _ Hv) as (Hh & Hb & Hrange & Hbits).
  unfold valid_draws, choice_outcome, sub_matrix, sub_draws. simpl.
  repeat split; try by apply masked_Forall.
  - f_equal. by apply masked_length.
  - f_equal. by apply masked_length.
Qed.

Lemma signs_of_sub_draws mask rnd :
  signs_of (sub_draws mask rnd) = masked mask (signs_of rnd).
Proof. unfold signs_of, sub_draws. simpl. by rewrite masked_fmap. Qed.

(** * The claims *)

(** C1.  For every [float64] matrix [A], every [s > 0] and every
    assignment, entry [(r, i)] of the in-memory sketch is the sum that
    [np.sum] returns for the numbers [A[r, j] * sign_j] of the columns [j]
    with bucket [i].  When [A] is a matrix of integers and the absolute
    values of each of its rows add up to less than [2^53], the sketch is the
    product [A · S], where [S] is the [n × s] matrix whose row [j] is zero
    except for the sign of column [j], which stands at the bucket of column
    [j]. *)
Theorem countSketchInMemroy_product np matrixA s rnd :
  valid_numpy np → 0 < s → valid_draws matrixA s rnd →
  let S := Exact.sketchingMatrix s (drawn_buckets rnd) (signs_of rnd) in
  (∃ C, countSketchInMemroy np matrixA s rnd = Ok C
        ∧ C = tabulate (nrows matrixA) s
                (summed np (columns matrixA) (drawn_buckets rnd) (signs_of rnd))
        ∧ ∀ A, int_values matrixA = Some A → bounded_rows A →
               int_values C = Some (Exact.matmul A S))
  ∧ shape S = (length (columns matrixA), Z.to_nat s)
  ∧ ∀ (j : nat) h g,
      drawn_buckets rnd !! j = Some h → signs_of rnd !! j = Some g →
      (g = 1 ∨ g = -1)
      ∧ Exact.row S j = <[Z.to_nat h := g]> (Exact.zeros (Z.to_nat s)).
Proof.
  intros Hnp Hs Hv S.
  destruct (valid_draws_lengths _ _ _ Hv) as (Hh & Hb & Hrange & Hbits).
  split; [|split].
  - eexists. split; [by apply countSketchInMemroy_closed|]. split; [done|].
    intros A HA HbA.
    destruct (countSketchInMemroy_exact np matrixA A s rnd) as (C & HC & HCv);
      try done.
    rewrite countSketchInMemroy_closed in HC by done. injection HC as <-.
    unfold S. by rewrite matmul_sketchingMatrix.
  - unfold S, shape, Exact.sketchingMatrix. simpl.
    by rewrite length_fmap, range_length, Hh.
  - intros j h g Hj Hg. split; [by eapply signs_of_lookup|].
    apply sketchingMatrix_row; [|done|done].
    exact (Forall_lookup_1 _ _ _ _ Hrange Hj).
Qed.

Lemma countSketchInMemroy_product_witness :
  ∃ C, countSketchInMemroy example_numpy example_matrix 2 example_draws = Ok C
       ∧ int_values C = Some (NDArray 2 [[-3; -4]; [6; 8]]).
Proof.
  destruct (countSketchInMemroy_product example_numpy example_matrix 2 example_draws)
    as [(C & HC & _ & HCv) _];
    [exact example_numpy_valid|lia|exact example_valid_draws|].
  exists C. split; [exact HC|].
  exact (HCv example_ints example_int_values example_bounded).
Defined.

(** The matrix with the row [10^16, 1] and one bucket: the sketch is
    [10^16], the product [A · S] is [10^16 + 1]. *)
Lemma countSketchInMemroy_product_rounds :
  int_values large_matrix = Some large_ints
  ∧ countSketchInMemroy example_numpy large_matrix 1 large_draws
    = Ok (float_array (NDArray 1 [[10 ^ 16]]))
  ∧ int_values (float_array (NDArray 1 [[10 ^ 16]])) = Some (NDArray 1 [[10 ^ 16]])
  ∧ Exact.matmul large_ints
      (Exact.sketchingMatrix 1 (drawn_buckets large_draws) (signs_of large_draws))
    = NDArray 1 [[10 ^ 16 + 1]].
Proof. by vm_compute. Qed.

(** C2.  The three sketchers on one column with bucket [1] of two: the
    in-memory and the streaming sketcher return the same [2 × 2] matrix,
    and the map-reduce sketcher, however the column is partitioned, returns
    a [2 × 1] matrix. *)
Theorem countSketchMapReduce_disagrees np sc parts :
  valid_numpy np → valid_spark sc →
  partitioning single_column single_draws parts →
  countSketchInMemroy np single_column 2 single_draws
  = Ok (float_array (NDArray 2 [[0; 0]; [1; 2]]))
  ∧ countSketchStreaming np single_column 2 single_draws
    = Ok (float_array (NDArray 2 [[0; 0]; [1; 2]]))
  ∧ countSketchMapReduce sc parts 2 = Ok (float_array (NDArray 2 [[1; 2]])).
Proof.
  intros Hnp Hsc Hparts. split; [by apply countSketchInMemroy_single|].
  split; [reflexivity|].
  by rewrite (countSketchMapReduce_single sc parts _ 2 Hsc ltac:(lia) Hparts).
Qed.

Lemma countSketchMapReduce_disagrees_witness :
  countSketchMapReduce example_spark single_rdd 2
  = Ok (float_array (NDArray 2 [[1; 2]])).
Proof.
  apply (countSketchMapReduce_disagrees example_numpy example_spark single_rdd).
  - exact example_numpy_valid.
  - exact example_spark_valid.
  - exact single_partitioning.
Defined.

(** C3.  The map-reduce sketcher on one column and [s = 2] returns a matrix
    with one column, not two; on no column at all it returns an array
    without rows and columns, not the zero [m × 2] matrix.  The in-memory
    sketcher returns two columns on the same input. *)
Theorem countSketchMapReduce_shape np sc :
  valid_numpy np → valid_spark sc →
  (shape <$> countSketchMapReduce sc single_rdd 2) = Ok (2%nat, 1%nat)
  ∧ (shape <$> countSketchMapReduce sc [[]] 2) = Ok (0%nat, 0%nat)
  ∧ (shape <$> countSketchInMemroy np single_column 2 single_draws) = Ok (2%nat, 2%nat).
Proof.
  intros Hnp Hsc. split; [|split].
  - by rewrite (countSketchMapReduce_single sc single_rdd _ 2 Hsc ltac:(lia)
                  single_partitioning).
  - by rewrite countSketchMapReduce_no_vector.
  - by rewrite countSketchInMemroy_single.
Qed.

Lemma countSketchMapReduce_shape_witness :
  (shape <$> countSketchMapReduce example_spark single_rdd 2) = Ok (2%nat, 1%nat)
  ∧ (shape <$> countSketchInMemroy example_numpy single_column 2 single_draws)
    = Ok (2%nat, 2%nat).
Proof.
  destruct (countSketchMapReduce_shape example_numpy example_spark)
    as (H1 & _ & H3); [exact example_numpy_valid|exact example_spark_valid|].
  split; [exact H1|exact H3].
Defined.

(** C4.  No column is assigned to bucket [0], and column [0] of the
    map-reduce sketch is not the zero vector; column [0] of the in-memory
    sketch is. *)
Theorem countSketchMapReduce_empty_bucket np sc :
  valid_numpy np → valid_spark sc →
  (0 ∉ drawn_buckets single_draws)
  ∧ ((λ C, columns C !! 0%nat) <$> countSketchMapReduce sc single_rdd 2)
    = Ok (Some (float_of_int <$> [1; 2]))
  ∧ ((λ C, columns C !! 0%nat) <$> countSketchInMemroy np single_column 2 single_draws)
    = Ok (Some (zeros 2)).
Proof.
  intros Hnp Hsc. split; [|split].
  - simpl. rewrite list_elem_of_singleton. done.
  - by rewrite (countSketchMapReduce_single sc single_rdd _ 2 Hsc ltac:(lia)
                  single_partitioning).
  - by rewrite countSketchInMemroy_single.
Qed.

Lemma countSketchMapReduce_empty_bucket_witness :
  ((λ C, columns C !! 0%nat) <$> countSketchMapReduce example_spark single_rdd 2)
  = Ok (Some (float_of_int <$> [1; 2]))
  ∧ ((λ C, columns C !! 0%nat)
       <$> countSketchInMemroy example_numpy single_column 2 single_draws)
    = Ok (Some (zeros 2)).
Proof.
  destruct (countSketchMapReduce_empty_bucket example_numpy example_spark)
    as (_ & H2 & H3); [exact example_numpy_valid|exact example_spark_valid|].
  split; [exact H2|exact H3].
Defined.

(** C5.  In the streaming sketcher, after any prefix of [k] columns the
    accumulator holds, at row [r] of column [i], what adding the numbers
    [sign_j * A[r, j]] of the processed columns [j < k] with bucket [i] to
    [0.0], one after the other, returns; processing the remaining columns
    from that state gives the result of the uninterrupted run; and for a
    matrix of integers whose rows are bounded the accumulator is the exact
    sketch of the first [k] columns. *)
Theorem countSketchStreaming_checkpoint np matrixA s rnd (k : nat) :
  0 < s → wf_ndarray matrixA → valid_draws matrixA s rnd →
  (k ≤ length (columns matrixA))%nat →
  let step := countSketchStreaming_step matrixA (drawn_buckets rnd) (signs_of rnd) in
  let tagged := zip (columns matrixA) (zip (drawn_buckets rnd) (signs_of rnd)) in
  ∃ C0 Ck,
    np_zeros (nrows matrixA) s = Ok C0
    ∧ for_each (range (Z.of_nat k)) step C0 = Ok Ck
    ∧ Ck = tabulate (nrows matrixA) s (accumulated (take k tagged))
    ∧ for_each (Z.of_nat <$> seq k (length (columns matrixA) - k)) step Ck
      = countSketchStreaming np matrixA s rnd
    ∧ ∀ A, int_values matrixA = Some A → bounded_rows A →
           int_values Ck
           = Some (Exact.sketch_of (NDArray (nrows A) (take k (columns A))) s
                     (take k (drawn_buckets rnd)) (take k (signs_of rnd))).
Proof.
  intros Hs Hwf Hv Hk step tagged.
  destruct (valid_draws_lengths _ _ _ Hv) as (Hh & Hb & Hrange & Hbits).
  assert (length (signs_of rnd) = length (columns matrixA)) as Hg.
  { unfold signs_of. by rewrite length_fmap. }
  eexists _, _. split; [|split; [|split; [|split]]].
  - unfold np_zeros. rewrite bool_decide_false by lia. reflexivity.
  - rewrite tabulate_zero. unfold step.
    apply countSketchStreaming_prefix; done.
  - done.
  - unfold countSketchStreaming, shape, np_zeros.
    rewrite bool_decide_false by lia. simpl.
    rewrite !random_choice_drawn by lia. simpl.
    rewrite tabulate_zero. fold (signs_of rnd). subst step.
    replace (range (Z.of_nat (length (columns matrixA))))
      with (range (Z.of_nat k)
              ++ (Z.of_nat <$> seq k (length (columns matrixA) - k))).
    + rewrite for_each_app.
      rewrite countSketchStreaming_prefix by done. done.
    + unfold range. rewrite !Nat2Z.id, <- fmap_app. f_equal.
      rewrite <- seq_app. f_equal. lia.
  - intros A HA HbA.
    destruct (countSketchStreaming_prefix_exact matrixA A s (drawn_buckets rnd)
                (signs_of rnd) k) as (Ck & HCk & HCv); try done.
    { by apply signs_of_Forall. }
    rewrite countSketchStreaming_prefix in HCk by done. by injection HCk as <-.
Qed.

Lemma countSketchStreaming_checkpoint_witness :
  ∃ C0 Ck,
    np_zeros 2 2 = Ok C0
    ∧ for_each (range 2)
        (countSketchStreaming_step example_matrix [1; 0; 1] [1; -1; 1]) C0 = Ok Ck
    ∧ int_values Ck = Some (NDArray 2 [[-3; -4]; [1; 2]])
    ∧ for_each [2]
        (countSketchStreaming_step example_matrix [1; 0; 1] [1; -1; 1]) Ck
      = countSketchStreaming example_numpy example_matrix 2 example_draws.
Proof.
  destruct (countSketchStreaming_checkpoint example_numpy example_matrix 2
              example_draws 2)
    as (C0 & Ck & H0 & H1 & H2 & H3 & H4);
    [lia|exact example_wf|exact example_valid_draws|simpl; lia|].
  exists C0, Ck. split; [exact H0|]. split; [exact H1|].
  split; [exact (H4 example_ints example_int_values example_bounded)|exact H3].
Defined.

(** The matrix with the row [10^16, 1, -10^16] and one bucket: after the
    three columns the accumulator is [0.0], the sum of the three numbers is
    [1]. *)
Lemma countSketchStreaming_checkpoint_rounds :
  int_values cancelling_matrix = Some cancelling_ints
  ∧ for_each (range 3)
      (countSketchStreaming_step cancelling_matrix (drawn_buckets cancelling_draws)
         (signs_of cancelling_draws)) (NDArray 1 [zeros 1])
    = Ok (NDArray 1 [[fzero]])
  ∧ int_values (NDArray 1 [[fzero]]) = Some (NDArray 1 [[0]])
  ∧ Exact.sketch_of cancelling_ints 1 (drawn_buckets cancelling_draws)
      (signs_of cancelling_draws)
    = NDArray 1 [[1]].
Proof. by vm_compute. Qed.

(** C6.  For every matrix [A] of integers, every integer [alpha] and every
    assignment, when the absolute values of each row of [A] and of
    [alpha * A] add up to less than [2^53], the sketch of [alpha * A] and
    [alpha] times the sketch of [A] under the same assignment are the same
    matrix of integers. *)
Theorem countSketchInMemroy_linear np matrixA A alpha s rnd :
  valid_numpy np → 0 < s → wf_ndarray matrixA → valid_draws matrixA s rnd →
  int_values matrixA = Some A → Z.abs alpha < 2 ^ 53 →
  bounded_rows A → bounded_rows (Exact.np_scale alpha A) →
  ∃ C C' E,
    countSketchInMemroy np matrixA s rnd = Ok C
    ∧ countSketchInMemroy np (np_scale (float_of_int alpha) matrixA) s rnd = Ok C'
    ∧ int_values C = Some E
    ∧ int_values C' = Some (Exact.np_scale alpha E)
    ∧ int_values (np_scale (float_of_int alpha) C) = Some (Exact.np_scale alpha E).
Proof.
  intros Hnp Hs Hwf Hv HA Ha HbA HbS.
  destruct (valid_draws_lengths _ _ _ Hv) as (Hh & Hb & Hrange & Hbits).
  destruct (countSketchInMemroy_exact np matrixA A s rnd) as (C & HC & HCv);
    try done.
  pose proof (int_values_wf _ _ HA Hwf) as HwfA.
  pose proof HA as HA'. apply int_values_inv in HA' as [Hn Hcols].
  pose proof (Forall2_length _ _ _ Hcols) as Hlen.
  assert (wf_ndarray (Exact.np_scale alpha A)) as HwfS.
  { unfold wf_ndarray, Exact.np_scale. simpl. apply Forall_fmap.
    eapply Forall_impl; [exact HwfA|]. intros c Hc. simpl.
    unfold Exact.scale. by rewrite length_fmap. }
  assert (int_values (np_scale (float_of_int alpha) matrixA)
          = Some (Exact.np_scale alpha A)) as HS.
  { apply int_values_np_scale; [done..|].
    pose proof (entries_bounded _ HwfS HbS) as He.
    unfold Exact.np_scale in He. simpl in He.
    apply Forall_forall. intros c Hc. apply Forall_forall. intros z Hz.
    assert (Exact.scale alpha c ∈ Exact.scale alpha <$> columns A) as Hsc
      by (apply list_elem_of_fmap; by exists c).
    pose proof (proj1 (Forall_forall _ _) He _ Hsc) as Hall.
    apply (proj1 (Forall_forall _ _) Hall). unfold Exact.scale.
    apply list_elem_of_fmap. by exists z. }
  destruct (countSketchInMemroy_exact np (np_scale (float_of_int alpha) matrixA)
              (Exact.np_scale alpha A) s rnd) as (C' & HC' & HCv'); try done.
  { destruct Hv as [[? ?] [? ?]]. repeat split; rewrite ?np_scale_columns; done. }
  exists C, C', (Exact.sketch_of A s (drawn_buckets rnd) (signs_of rnd)).
  split; [done|]. split; [done|]. split; [done|].
  split; [by rewrite HCv', sketch_of_scale|].
  apply int_values_np_scale; [done..|].
  unfold Exact.sketch_of, tabulate. simpl.
  apply Forall_forall. intros c Hc.
  apply list_elem_of_fmap in Hc as (i & -> & _).
  apply Forall_forall. intros z Hz.
  apply list_elem_of_fmap in Hz as (r & -> & Hr).
  apply elem_of_seq in Hr.
  assert (r < nrows (Exact.np_scale alpha A))%nat as Hr' by (simpl; lia).
  specialize (HbS r Hr'). rewrite exact_row_scale, Zsum_abs_scale in HbS.
  pose proof (bucket_entry_bound (columns A) (drawn_buckets rnd) (signs_of rnd) i r)
    as Hbe.
  rewrite Z.abs_mul.
  eapply Z.le_lt_trans; [|exact HbS].
  apply Z.mul_le_mono_nonneg_l; [lia|]. apply Hbe; try lia.
  - unfold signs_of. rewrite length_fmap. lia.
  - by apply signs_of_Forall.
Qed.

Lemma countSketchInMemroy_linear_witness :
  ∃ C C' E,
    countSketchInMemroy example_numpy example_matrix 2 example_draws = Ok C
    ∧ countSketchInMemroy example_numpy (np_scale (float_of_int 3) example_matrix) 2
        example_draws = Ok C'
    ∧ int_values C = Some E
    ∧ int_values C' = Some (Exact.np_scale 3 E)
    ∧ int_values (np_scale (float_of_int 3) C) = Some (Exact.np_scale 3 E).
Proof.
  apply (countSketchInMemroy_linear example_numpy example_matrix example_ints 3 2
           example_draws);
    [exact example_numpy_valid|lia|exact example_wf|exact example_valid_draws
    |exact example_int_values|lia|exact example_bounded|].
  intros [|[|r]] Hr; [by vm_compute..|simpl in Hr; lia].
Defined.

(** The matrix with the row [10^16, 1], one bucket and [alpha = 3]: the
    sketch of [3 * A] is [3 * 10^16 + 4], and [3] times the sketch of [A] is
    [3 * 10^16]. *)
Lemma countSketchInMemroy_linear_rounds :
  countSketchInMemroy example_numpy (np_scale (float_of_int 3) large_matrix) 1
    large_draws
  = Ok (float_array (NDArray 1 [[3 * 10 ^ 16 + 4]]))
  ∧ (np_scale (float_of_int 3)
       <$> countSketchInMemroy example_numpy large_matrix 1 large_draws)
    = Ok (float_array (NDArray 1 [[3 * 10 ^ 16]]))
  ∧ float_array (NDArray 1 [[3 * 10 ^ 16 + 4]]) ≠ float_array (NDArray 1 [[3 * 10 ^ 16]]).
Proof. by vm_compute. Qed.

(** C7.  For every matrix [A] of integers whose rows add up, in absolute
    value, to less than [2^53], every assignment and every partition of the
    columns, each with the bucket and sign of its index, into two sets: the
    mapper emits the pairs of the two sets, and [reduceByKey] with
    [v1 + v2] returns on the whole matrix in one partition and on the two
    sets in two partitions the same keys and, key by key, vectors of the
    same integers, which are the sums of what it returns for each set alone
    (a key absent from a set adding nothing) and the entries of the column
    of the key in the sketch of [A]; whatever the order in which Spark
    merges and lists. *)
Theorem reduceByKey_column_additive sc matrixA A s rnd set1 set2 :
  valid_spark sc → 0 < s → wf_ndarray matrixA → valid_draws matrixA s rnd →
  int_values matrixA = Some A → bounded_rows A →
  set1 ++ set2 ≡ₚ tagged_columns matrixA rnd →
  rdd_map (mapper s) [set1; set2] = Ok [emitted <$> set1; emitted <$> set2]
  ∧ ∃ whole out1 out2 merged,
      reduceByKey sc vadd [emitted <$> tagged_columns matrixA rnd] = Ok [whole]
      ∧ reduceByKey sc vadd [emitted <$> set1] = Ok [out1]
      ∧ reduceByKey sc vadd [emitted <$> set2] = Ok [out2]
      ∧ reduceByKey sc vadd [emitted <$> set1; emitted <$> set2] = Ok [merged]
      ∧ merged.*1 ≡ₚ whole.*1
      ∧ ∀ k i, (i < nrows matrixA)%nat →
          ∃ z1 z2,
            int_entry out1 k i = Some z1
            ∧ int_entry out2 k i = Some z2
            ∧ int_entry merged k i = Some (z1 + z2)
            ∧ int_entry whole k i = Some (z1 + z2)
            ∧ z1 + z2
              = Exact.bucket_entry (columns A) (drawn_buckets rnd) (signs_of rnd) k i.
Proof.
  intros Hsc Hs Hwf Hv HA Hb Hperm.
  split; [by apply rdd_map_emitted|].
  destruct (emitted_columns matrixA A s rnd Hwf Hv HA Hb)
    as (HintT & HtotalT & HweightT & _).
  set (m := nrows matrixA) in *.
  set (T := tagged_columns matrixA rnd) in *.
  set (e1 := emitted <$> set1). set (e2 := emitted <$> set2).
  assert (e1 ++ e2 ≡ₚ emitted <$> T) as HpermE.
  { unfold e1, e2. by rewrite <- fmap_app, Hperm. }
  assert (Forall (int_pair m) (e1 ++ e2)) as Hint12.
  { apply Forall_forall. intros p Hp. apply (proj1 (Forall_forall _ _) HintT).
    by apply (elem_of_Permutation_proper _ _ _ HpermE). }
  apply Forall_app in Hint12 as Hint12'. destruct Hint12' as [Hint1 Hint2].
  assert (∀ i, (i < m)%nat → row_weight (e1 ++ e2) i < 2 ^ 53) as Hweight12.
  { intros i Hi. rewrite (row_weight_Permutation _ _ i HpermE). by apply HweightT. }
  destruct (reduceByKey_entries sc m [emitted <$> T] Hsc) as (whole & Hwhole & Hkw & Hew).
  { simpl. by rewrite app_nil_r. }
  { intros i Hi. simpl. rewrite app_nil_r. by apply HweightT. }
  destruct (reduceByKey_entries sc m [e1] Hsc) as (out1 & Hout1 & _ & He1).
  { simpl. by rewrite app_nil_r. }
  { intros i Hi. simpl. rewrite app_nil_r. specialize (Hweight12 i Hi).
    rewrite row_weight_app in Hweight12. pose proof (row_weight_nonneg e2 i). lia. }
  destruct (reduceByKey_entries sc m [e2] Hsc) as (out2 & Hout2 & _ & He2).
  { simpl. by rewrite app_nil_r. }
  { intros i Hi. simpl. rewrite app_nil_r. specialize (Hweight12 i Hi).
    rewrite row_weight_app in Hweight12. pose proof (row_weight_nonneg e1 i). lia. }
  destruct (reduceByKey_entries sc m [e1; e2] Hsc) as (merged & Hmerged & Hkm & Hem).
  { simpl. by rewrite app_nil_r. }
  { intros i Hi. simpl. rewrite app_nil_r. by apply Hweight12. }
  exists whole, out1, out2, merged.
  split; [done|]. split; [done|]. split; [done|]. split; [done|].
  simpl in Hkw, Hkm, Hew, He1, He2, Hem. rewrite app_nil_r in *.
  split.
  { rewrite Hkm, Hkw. apply remove_dups_Permutation. by rewrite HpermE. }
  intros k i Hi. exists (key_total e1 k i), (key_total e2 k i).
  split; [by apply He1|]. split; [by apply He2|].
  rewrite <- key_total_app. split; [by apply Hem|].
  rewrite (key_total_Permutation _ _ k i HpermE). split; [by apply Hew|].
  apply HtotalT.
Qed.

Lemma reduceByKey_column_additive_witness :
  ∃ whole out1 out2 merged,
    reduceByKey example_spark vadd
      [emitted <$> tagged_columns example_matrix example_draws] = Ok [whole]
    ∧ reduceByKey example_spark vadd
        [emitted <$> take 1 (tagged_columns example_matrix example_draws)] = Ok [out1]
    ∧ reduceByKey example_spark vadd
        [emitted <$> drop 1 (tagged_columns example_matrix example_draws)] = Ok [out2]
    ∧ reduceByKey example_spark vadd
        [emitted <$> take 1 (tagged_columns example_matrix example_draws);
         emitted <$> drop 1 (tagged_columns example_matrix example_draws)] = Ok [merged]
    ∧ merged.*1 ≡ₚ whole.*1
    ∧ ∀ k i, (i < 2)%nat →
        ∃ z1 z2,
          int_entry out1 k i = Some z1
          ∧ int_entry out2 k i = Some z2
          ∧ int_entry merged k i = Some (z1 + z2)
          ∧ int_entry whole k i = Some (z1 + z2)
          ∧ z1 + z2 = Exact.bucket_entry (columns example_ints) [1; 0; 1] [1; -1; 1] k i.
Proof.
  apply (reduceByKey_column_additive example_spark example_matrix example_ints 2
           example_draws (take 1 (tagged_columns example_matrix example_draws))
           (drop 1 (tagged_columns example_matrix example_draws)));
    [exact example_spark_valid|lia|exact example_wf|exact example_valid_draws
    |exact example_int_values|exact example_bounded|].
  by rewrite take_drop.
Defined.

(** The matrix with the row [1, 10^16, 1], all columns in bucket [0] with
    sign [+1]: on the whole matrix in one partition the result for the key
    is [10^16]; on columns [0] and [2] in one partition and column [1] in
    another, it is [10^16 + 2]. *)
Lemma reduceByKey_column_additive_rounds :
  int_values split_matrix = Some split_ints
  ∧ split_outer ++ split_middle ≡ₚ tagged_columns split_matrix split_draws
  ∧ reduceByKey example_spark vadd
      [emitted <$> tagged_columns split_matrix split_draws]
    = Ok [[(0, [float_of_int (10 ^ 16)])]]
  ∧ reduceByKey example_spark vadd [emitted <$> split_outer; emitted <$> split_middle]
    = Ok [[(0, [float_of_int (10 ^ 16 + 2)])]]
  ∧ int_entry [(0, [float_of_int (10 ^ 16)])] 0 0 = Some (10 ^ 16)
  ∧ int_entry [(0, [float_of_int (10 ^ 16 + 2)])] 0 0 = Some (10 ^ 16 + 2).
Proof.
  split; [by vm_compute|]. split; [|by vm_compute].
  change (tagged_columns split_matrix split_draws)
    with ([([float_of_int 1], (0, 1))] ++ split_middle ++ [([float_of_int 1], (0, 1))]).
  change split_outer
    with ([([float_of_int 1], (0, 1))] ++ [([float_of_int 1], (0, 1)) : vector * (Z * Z)]).
  rewrite <- app_assoc. apply Permutation_app_head, Permutation_app_comm.
Qed.

(** C8.  Neither sketcher changes the matrix of its caller: whatever the
    outcome of the run, the array referenced by the argument (and every
    other array that exists before the call) holds the same entries
    afterwards; the sketch, when the run returns one, is a new array, and
    the sign flip of the in-memory sketcher goes into a new array as well. *)
Theorem sketchers_leave_input_unchanged np (σ : heap) matrixA a s rnd :
  σ !! matrixA = Some a →
  let batch := countSketchInMemroy_ref np matrixA s rnd σ in
  let streaming := countSketchStreaming_ref np matrixA s rnd σ in
  batch.2 !! matrixA = Some a
  ∧ streaming.2 !! matrixA = Some a
  ∧ σ ⊆ batch.2
  ∧ σ ⊆ streaming.2
  ∧ (∀ C, countSketchInMemroy np a s rnd = Ok C →
       ∃ matrixC, batch.1 = Ok matrixC ∧ batch.2 !! matrixC = Some C
                  ∧ σ !! matrixC = None)
  ∧ (∀ C, countSketchStreaming np a s rnd = Ok C →
       ∃ matrixC, streaming.1 = Ok matrixC ∧ streaming.2 !! matrixC = Some C
                  ∧ σ !! matrixC = None).
Proof.
  intros Ha batch streaming. subst batch streaming.
  destruct (countSketchInMemroy_ref_spec np σ matrixA a s rnd Ha)
    as (r1 & σ1 & -> & Hsub1 & Hres1).
  destruct (countSketchStreaming_ref_spec np σ matrixA a s rnd Ha)
    as (r2 & σ2 & -> & Hsub2 & Hres2).
  cbn [fst snd]. repeat split; try done.
  - by eapply lookup_weaken.
  - by eapply lookup_weaken.
  - intros C HC. by rewrite HC in Hres1.
  - intros C HC. by rewrite HC in Hres2.
Qed.

Lemma sketchers_leave_input_unchanged_witness :
  (countSketchInMemroy_ref example_numpy 0 2 example_draws
     {[ 0%nat := example_matrix ]}).2 !! 0%nat
  = Some example_matrix
  ∧ (countSketchStreaming_ref example_numpy 0 2 example_draws
       {[ 0%nat := example_matrix ]}).2 !! 0%nat
    = Some example_matrix.
Proof.
  pose proof (sketchers_leave_input_unchanged example_numpy
                {[ 0%nat := example_matrix ]} 0
                example_matrix 2 example_draws) as H.
  destruct H as (H1 & H2 & _).
  - apply lookup_singleton_eq.
  - split; [exact H1|exact H2].
Defined.




(** C10.  In the streaming sketcher, for [s > 0], every bucket used to
    index the accumulator lies in [[0, s)], every sign is [-1] or [+1], every
    write into the accumulator is in bounds, and the run returns a matrix:
    no indexing error is raised. *)
Theorem countSketchStreaming_in_bounds np matrixA s rnd :
  0 < s → wf_ndarray matrixA → valid_draws matrixA s rnd →
  (∀ (j : nat) h, drawn_buckets rnd !! j = Some h →
     0 ≤ h < s ∧ normalize_index (Z.to_nat s) h = Ok (Z.to_nat h))
  ∧ (∀ (j : nat) g, signs_of rnd !! j = Some g → g = -1 ∨ g = 1)
  ∧ (∀ k : nat, (k ≤ length (columns matrixA))%nat →
       ∃ Ck, for_each (range (Z.of_nat k))
               (countSketchStreaming_step matrixA (drawn_buckets rnd) (signs_of rnd))
               (NDArray (nrows matrixA) (replicate (Z.to_nat s) (zeros (nrows matrixA))))
             = Ok Ck)
  ∧ ∃ C, countSketchStreaming np matrixA s rnd = Ok C.
Proof.
  intros Hs Hwf Hv.
  destruct (valid_draws_lengths _ _ _ Hv) as (Hh & Hb & Hrange & Hbits).
  split; [|split; [|split]].
  - intros j h Hj. pose proof (Forall_lookup_1 _ _ _ _ Hrange Hj) as Hr.
    simpl in Hr. split; [done|]. apply normalize_index_in_range. lia.
  - intros j g Hg. destruct (signs_of_lookup _ _ _ Hbits Hg); auto.
  - intros k Hk. eexists. rewrite tabulate_zero.
    apply countSketchStreaming_prefix; try done.
    unfold signs_of. by rewrite length_fmap.
  - eexists. by apply countSketchStreaming_closed.
Qed.

Lemma countSketchStreaming_in_bounds_witness :
  ∃ C, countSketchStreaming example_numpy example_matrix 2 example_draws = Ok C.
Proof.
  destruct (countSketchStreaming_in_bounds example_numpy example_matrix 2 example_draws)
    as (_ & _ & _ & H); [lia|exact example_wf|exact example_valid_draws|].
  exact H.
Defined.

(** * Further properties of the sketchers *)

(** X1.  On a matrix of integers whose rows add up, in absolute value, to
    less than [2^53], with [s > 0] and the same draws, the in-memory and the
    streaming sketcher both return, and return matrices of the same
    integers: the sketch of the matrix in the arithmetic of the
    integers. *)
Theorem sketchers_agree np matrixA A s rnd :
  valid_numpy np → 0 < s → wf_ndarray matrixA → valid_draws matrixA s rnd →
  int_values matrixA = Some A → bounded_rows A →
  ∃ C C',
    countSketchInMemroy np matrixA s rnd = Ok C
    ∧ countSketchStreaming np matrixA s rnd = Ok C'
    ∧ int_values C = Some (Exact.sketch_of A s (drawn_buckets rnd) (signs_of rnd))
    ∧ int_values C' = int_values C.
Proof.
  intros Hnp Hs Hwf Hv HA Hb.
  destruct (countSketchInMemroy_exact np matrixA A s rnd) as (C & HC & HCv); try done.
  destruct (countSketchStreaming_exact np matrixA A s rnd) as (C' & HC' & HCv');
    try done.
  exists C, C'. by rewrite HCv, HCv'.
Qed.

Lemma sketchers_agree_witness :
  ∃ C C',
    countSketchInMemroy example_numpy example_matrix 2 example_draws = Ok C
    ∧ countSketchStreaming example_numpy example_matrix 2 example_draws = Ok C'
    ∧ int_values C = Some (Exact.sketch_of example_ints 2 [1; 0; 1] [1; -1; 1])
    ∧ int_values C' = int_values C.
Proof.
  apply (sketchers_agree example_numpy example_matrix example_ints 2 example_draws);
    [exact example_numpy_valid|lia|exact example_wf|exact example_valid_draws
    |exact example_int_values|exact example_bounded].
Defined.

(** X2.  The in-memory sketch is a rectangular array of [m] rows and [s]
    columns, whatever the number of columns of the input; for an input
    without columns it is [np.zeros([m, s])]. *)
Theorem countSketchInMemroy_rectangular np matrixA s rnd :
  0 < s → valid_draws matrixA s rnd →
  ∃ C, countSketchInMemroy np matrixA s rnd = Ok C
       ∧ shape C = (nrows matrixA, Z.to_nat s)
       ∧ wf_ndarray C
       ∧ (valid_numpy np → columns matrixA = [] →
          np_zeros (nrows matrixA) s = Ok C).
Proof.
  intros Hs Hv.
  destruct (countSketchInMemroy_shape np matrixA s rnd Hs Hv) as (C & HC & Hsh & Hwf & Hz).
  exists C. split; [done|]. split; [done|]. split; [done|].
  intros Hnp Hn. unfold np_zeros. rewrite bool_decide_false by lia.
  by rewrite (Hz Hnp Hn).
Qed.

Lemma countSketchInMemroy_rectangular_witness :
  ∃ C, countSketchInMemroy example_numpy example_matrix 2 example_draws = Ok C
       ∧ shape C = (2%nat, 2%nat)
       ∧ wf_ndarray C
       ∧ (valid_numpy example_numpy → columns example_matrix = [] →
          np_zeros 2 2 = Ok C).
Proof.
  apply (countSketchInMemroy_rectangular example_numpy example_matrix 2 example_draws);
    [lia|exact example_valid_draws].
Defined.

(** X3.  In the in-memory sketch, the column of a bucket in [[0, s)] that
    was drawn for no column of the matrix is the zero vector. *)
Theorem countSketchInMemroy_zero_column np matrixA s rnd i :
  valid_numpy np → 0 < s → valid_draws matrixA s rnd →
  0 ≤ i < s → i ∉ drawn_buckets rnd →
  ∃ C, countSketchInMemroy np matrixA s rnd = Ok C
       ∧ get_column C i = Ok (zeros (nrows matrixA)).
Proof. apply countSketchInMemroy_empty_bucket. Qed.

Lemma countSketchInMemroy_zero_column_witness :
  ∃ C, countSketchInMemroy example_numpy single_column 2 single_draws = Ok C
       ∧ get_column C 0 = Ok (zeros 2).
Proof.
  apply (countSketchInMemroy_zero_column example_numpy single_column 2 single_draws 0);
    [exact example_numpy_valid|lia|exact single_valid_draws|lia|].
  intros H. apply list_elem_of_singleton in H. discriminate.
Defined.

(** X4.  In the streaming sketch, the column of a bucket in [[0, s)] that
    was drawn for no column of the matrix is the zero vector. *)
Theorem countSketchStreaming_zero_column np matrixA s rnd i :
  0 < s → wf_ndarray matrixA → valid_draws matrixA s rnd →
  0 ≤ i < s → i ∉ drawn_buckets rnd →
  ∃ C, countSketchStreaming np matrixA s rnd = Ok C
       ∧ get_column C i = Ok (zeros (nrows matrixA)).
Proof. apply countSketchStreaming_empty_bucket. Qed.

Lemma countSketchStreaming_zero_column_witness :
  ∃ C, countSketchStreaming example_numpy single_column 2 single_draws = Ok C
       ∧ get_column C 0 = Ok (zeros 2).
Proof.
  apply (countSketchStreaming_zero_column example_numpy single_column 2 single_draws 0);
    [lia|exact single_wf|exact single_valid_draws|lia|].
  intros H. apply list_elem_of_singleton in H. discriminate.
Defined.

(** X5.  The map-reduce sketcher draws inside the mapper: for [s ≤ 0], on an
    RDD that holds at least one vector, the task fails and the caller gets
    [Py4JJavaError]; on an RDD without vectors it returns the empty array,
    for every [s]. *)
Theorem countSketchMapReduce_edges sc parts s :
  (s ≤ 0 → concat parts ≠ [] → countSketchMapReduce sc parts s = Raise Py4JJavaError)
  ∧ (valid_spark sc → concat parts = [] →
     countSketchMapReduce sc parts s = Ok (NDArray 0 [])).
Proof.
  split.
  - intros Hs Hne. unfold countSketchMapReduce.
    rewrite (rdd_map_all_raise (mapper s) ValueError); [done| |done].
    intros x. by apply mapper_raises.
  - apply countSketchMapReduce_no_vector.
Qed.

Lemma countSketchMapReduce_edges_witness :
  countSketchMapReduce example_spark single_rdd 0 = Raise Py4JJavaError
  ∧ countSketchMapReduce example_spark [[]; []] 0 = Ok (NDArray 0 []).
Proof.
  pose proof (countSketchMapReduce_edges example_spark single_rdd 0) as [H1 _].
  pose proof (countSketchMapReduce_edges example_spark [[]; []] 0) as [_ H2].
  split; [apply H1; [lia|discriminate]|apply H2; [exact example_spark_valid|done]].
Defined.

(** X6.  On a matrix of integers whose rows add up, in absolute value, to
    less than [2^53], with [s > 0], however the columns are partitioned and
    in whatever order Spark merges and lists, the map-reduce sketcher
    returns one column for each distinct bucket drawn, in the order of some
    list of these buckets; the column of bucket [k] holds the integers of
    column [k] of the sketch of the matrix; so the result has at most [n]
    and at most [s] columns. *)
Theorem countSketchMapReduce_columns sc matrixA A s rnd parts :
  valid_spark sc → 0 < s → wf_ndarray matrixA → valid_draws matrixA s rnd →
  int_values matrixA = Some A → bounded_rows A →
  partitioning matrixA rnd parts →
  ∃ C keys,
    countSketchMapReduce sc parts s = Ok C
    ∧ keys ≡ₚ remove_dups (drawn_buckets rnd)
    ∧ (columns matrixA ≠ [] → nrows C = nrows matrixA)
    ∧ Forall2 (λ (c : vector) k,
                 int_vector (nrows matrixA) c
                   (Exact.bucket_entry (columns A) (drawn_buckets rnd) (signs_of rnd) k))
        (columns C) keys
    ∧ (length (columns C) ≤ length (columns matrixA))%nat
    ∧ (length (columns C) ≤ Z.to_nat s)%nat.
Proof.
  intros Hsc Hs Hwf Hv HA Hb Hparts.
  destruct (emitted_columns matrixA A s rnd Hwf Hv HA Hb)
    as (HintT & HtotalT & HweightT & HkeysT).
  destruct (valid_draws_lengths _ _ _ Hv) as (Hh & Hbl & Hrange & Hbits).
  set (m := nrows matrixA) in *.
  set (r := fmap (M:=list) emitted <$> parts).
  assert (concat r ≡ₚ emitted <$> tagged_columns matrixA rnd) as Hperm.
  { unfold r. rewrite concat_fmap. unfold partitioning in Hparts. by rewrite Hparts. }
  destruct (reduceByKey_exact sc m r Hsc) as (out & Hout & Hk & Hall).
  { apply Forall_forall. intros p Hp. apply (proj1 (Forall_forall _ _) HintT).
    by apply (elem_of_Permutation_proper _ _ _ Hperm). }
  { intros i Hi. rewrite (row_weight_Permutation _ _ i Hperm). by apply HweightT. }
  assert (out.*1 ≡ₚ remove_dups (drawn_buckets rnd)) as Hkeys.
  { rewrite Hk. apply remove_dups_Permutation. by rewrite Hperm, HkeysT. }
  assert (countSketchMapReduce sc parts s = asarray_T out.*2) as ->.
  { unfold countSketchMapReduce. rewrite rdd_map_emitted by done.
    cbn [mbind result_bind]. fold r. rewrite Hout. cbn [mbind result_bind].
    unfold rdd_map. cbn [mapM]. rewrite (mapM_Ok _ snd) by done.
    cbn [mbind result_bind mret result_ret collect concat]. by rewrite app_nil_r. }
  assert (Forall2 (λ (c : vector) k,
                     int_vector m c
                       (Exact.bucket_entry (columns A) (drawn_buckets rnd)
                          (signs_of rnd) k)) out.*2 out.*1) as Hcols.
  { apply Forall2_fmap, Forall_Forall2_diag.
    eapply Forall_impl; [exact Hall|]. intros [k v] Hv'. simpl in *.
    eapply int_vector_ext; [exact Hv'|]. intros i _.
    rewrite (key_total_Permutation _ _ k i Hperm). apply HtotalT. }
  assert (length out.*2 = length (remove_dups (drawn_buckets rnd))) as Hwidth.
  { rewrite length_fmap, <- (length_fmap fst). by rewrite Hkeys. }
  assert (length out.*2 ≤ length (columns matrixA))%nat as Hw1.
  { rewrite Hwidth, <- Hh. by apply remove_dups_length_le. }
  assert (length out.*2 ≤ Z.to_nat s)%nat as Hw2.
  { rewrite Hwidth, <- range_length. apply remove_dups_length_le.
    intros h Hin. apply elem_of_range. by apply (proj1 (Forall_forall _ _) Hrange). }
  destruct out as [|[k v] out'] eqn:Eout.
  - exists (NDArray 0 []), []. simpl. split; [done|]. split; [done|]. split.
    + intros Hne. exfalso. apply Hne. apply length_zero_iff_nil.
      rewrite <- Hh. simpl in Hwidth.
      destruct (drawn_buckets rnd) as [|h hs]; [done|].
      assert (h ∈ remove_dups (h :: hs)) as Hin by (apply elem_of_remove_dups; left).
      destruct (remove_dups (h :: hs)); [by apply elem_of_nil in Hin|done].
    + split; [constructor|]. split; lia.
  - assert (Forall (λ w : vector, length w = m) ((k, v) :: out').*2) as Hlens.
    { apply Forall_fmap. eapply Forall_impl; [exact Hall|]. by intros [? ?] [? _]. }
    exists (NDArray m ((k, v) :: out').*2), ((k, v) :: out').*1.
    split.
    + change (((k, v) :: out').*2) with (v :: out'.*2) in Hlens |- *.
      unfold asarray_T. pose proof Hlens as Hlens'.
      apply Forall_cons in Hlens' as [Hv' _].
      rewrite bool_decide_true; [by rewrite Hv'|].
      eapply Forall_impl; [exact Hlens|]. intros w Hw. simpl in *. congruence.
    + split; [done|]. split; [done|]. split; [done|]. by split.
Qed.

Lemma countSketchMapReduce_columns_witness :
  ∃ C keys,
    countSketchMapReduce example_spark [tagged_columns example_matrix example_draws] 2
    = Ok C
    ∧ keys ≡ₚ remove_dups [1; 0; 1]
    ∧ (columns example_matrix ≠ [] → nrows C = 2%nat)
    ∧ Forall2 (λ (c : vector) k,
                 int_vector 2 c
                   (Exact.bucket_entry (columns example_ints) [1; 0; 1] [1; -1; 1] k))
        (columns C) keys
    ∧ (length (columns C) ≤ 3)%nat
    ∧ (length (columns C) ≤ 2)%nat.
Proof.
  apply (countSketchMapReduce_columns example_spark example_matrix example_ints 2
           example_draws [tagged_columns example_matrix example_draws]);
    [exact example_spark_valid|lia|exact example_wf|exact example_valid_draws
    |exact example_int_values|exact example_bounded|].
  unfold partitioning. cbn [concat]. by rewrite app_nil_r.
Defined.

(** X7.  On matrices of integers whose rows add up, in absolute value, to
    less than [2^53], the sketch does not depend on the order of the
    columns: rearranging the columns together with their draws leaves the
    integers of the in-memory and of the streaming sketch unchanged. *)
Theorem sketch_of_rearranged_columns np matrixA matrixB A B s rnd rnd' :
  valid_numpy np → 0 < s →
  wf_ndarray matrixA → valid_draws matrixA s rnd →
  int_values matrixA = Some A → bounded_rows A →
  wf_ndarray matrixB → valid_draws matrixB s rnd' →
  int_values matrixB = Some B → bounded_rows B →
  nrows matrixB = nrows matrixA →
  tagged_columns matrixB rnd' ≡ₚ tagged_columns matrixA rnd →
  ∃ C C' D D',
    countSketchInMemroy np matrixA s rnd = Ok C
    ∧ countSketchInMemroy np matrixB s rnd' = Ok C'
    ∧ countSketchStreaming np matrixA s rnd = Ok D
    ∧ countSketchStreaming np matrixB s rnd' = Ok D'
    ∧ int_values C = Some (Exact.sketch_of A s (drawn_buckets rnd) (signs_of rnd))
    ∧ int_values C' = int_values C
    ∧ int_values D = int_values C
    ∧ int_values D' = int_values C.
Proof.
  intros Hnp Hs HwfA HvA HA HbA HwfB HvB HB HbB Hn Hperm.
  destruct (countSketchInMemroy_exact np matrixA A s rnd) as (C & HC & HCv); try done.
  destruct (countSketchInMemroy_exact np matrixB B s rnd') as (C' & HC' & HCv');
    try done.
  destruct (countSketchStreaming_exact np matrixA A s rnd) as (D & HD & HDv); try done.
  destruct (countSketchStreaming_exact np matrixB B s rnd') as (D' & HD' & HDv');
    try done.
  assert (Exact.sketch_of B s (drawn_buckets rnd') (signs_of rnd')
          = Exact.sketch_of A s (drawn_buckets rnd) (signs_of rnd)) as Heq.
  { destruct (emitted_columns matrixA A s rnd HwfA HvA HA HbA) as (_ & HtA & _).
    destruct (emitted_columns matrixB B s rnd' HwfB HvB HB HbB) as (_ & HtB & _).
    apply int_values_inv in HA as [HnA _]. apply int_values_inv in HB as [HnB _].
    unfold Exact.sketch_of. rewrite <- HnA, <- HnB, Hn.
    apply tabulate_ext. intros k i _ _. rewrite <- HtA, <- HtB.
    apply key_total_Permutation. by rewrite Hperm. }
  exists C, C', D, D'. rewrite HCv, HCv', HDv, HDv', Heq. by repeat split.
Qed.

Lemma sketch_of_rearranged_columns_witness :
  ∃ C C' D D',
    countSketchInMemroy example_numpy example_matrix 2 example_draws = Ok C
    ∧ countSketchInMemroy example_numpy rearranged_matrix 2 rearranged_draws = Ok C'
    ∧ countSketchStreaming example_numpy example_matrix 2 example_draws = Ok D
    ∧ countSketchStreaming example_numpy rearranged_matrix 2 rearranged_draws = Ok D'
    ∧ int_values C = Some (Exact.sketch_of example_ints 2 [1; 0; 1] [1; -1; 1])
    ∧ int_values C' = int_values C
    ∧ int_values D = int_values C
    ∧ int_values D' = int_values C.
Proof.
  apply (sketch_of_rearranged_columns example_numpy example_matrix rearranged_matrix
           example_ints rearranged_ints 2 example_draws rearranged_draws);
    [exact example_numpy_valid|lia|exact example_wf|exact example_valid_draws
    |exact example_int_values|exact example_bounded
    |repeat constructor|repeat split; simpl; repeat constructor; lia
    |reflexivity| |reflexivity|].
  - intros [|[|r]] Hr; [by vm_compute..|simpl in Hr; lia].
  - apply perm_swap.
Defined.

(** X8.  On a matrix of integers whose rows add up, in absolute value, to
    less than [2^53], for every split of the columns by a boolean mask, each
    column keeping its draws, the in-memory sketches of the whole matrix and
    of the two parts are matrices of integers, and the sketch of the whole
    is the elementwise sum of the sketches of the parts. *)
Theorem countSketchInMemroy_additive np matrixA A s rnd mask :
  valid_numpy np → 0 < s → valid_draws matrixA s rnd →
  int_values matrixA = Some A → bounded_rows A →
  length mask = length (columns matrixA) →
  ∃ C C1 C2 E1 E2,
    countSketchInMemroy np matrixA s rnd = Ok C
    ∧ countSketchInMemroy np (sub_matrix mask matrixA) s (sub_draws mask rnd) = Ok C1
    ∧ countSketchInMemroy np (sub_matrix (negb <$> mask) matrixA) s
        (sub_draws (negb <$> mask) rnd) = Ok C2
    ∧ int_values C1 = Some E1
    ∧ int_values C2 = Some E2
    ∧ int_values C = Some (Exact.np_add E1 E2).
Proof.
  intros Hnp Hs Hv HA Hb Hmask.
  destruct (valid_draws_lengths _ _ _ Hv) as (Hh & Hbl & _ & _).
  destruct (countSketchInMemroy_exact np matrixA A s rnd) as (C & HC & HCv); try done.
  destruct (sub_matrix_exact mask matrixA A HA Hb) as [HA1 Hb1].
  destruct (sub_matrix_exact (negb <$> mask) matrixA A HA Hb) as [HA2 Hb2].
  destruct (countSketchInMemroy_exact np (sub_matrix mask matrixA) (sub_matrix mask A) s
              (sub_draws mask rnd)) as (C1 & HC1 & HCv1);
    [done|done|by apply sub_draws_valid|done|done|].
  destruct (countSketchInMemroy_exact np (sub_matrix (negb <$> mask) matrixA)
              (sub_matrix (negb <$> mask) A) s (sub_draws (negb <$> mask) rnd))
    as (C2 & HC2 & HCv2); [done|done|by apply sub_draws_valid|done|done|].
  eexists C, C1, C2, _, _.
  split; [done|]. split; [done|]. split; [done|]. split; [done|]. split; [done|].
  rewrite HCv, !signs_of_sub_draws. apply int_values_inv in HA as [_ Hcols].
  pose proof (Forall2_length _ _ _ Hcols) as Hlen.
  apply f_equal, sketch_of_masked; unfold signs_of; rewrite ?length_fmap; lia.
Qed.

Lemma countSketchInMemroy_additive_witness :
  ∃ C C1 C2 E1 E2,
    countSketchInMemroy example_numpy example_matrix 2 example_draws = Ok C
    ∧ countSketchInMemroy example_numpy
        (sub_matrix [true; false; false] example_matrix) 2
        (sub_draws [true; false; false] example_draws) = Ok C1
    ∧ countSketchInMemroy example_numpy
        (sub_matrix (negb <$> [true; false; false]) example_matrix) 2
        (sub_draws (negb <$> [true; false; false]) example_draws) = Ok C2
    ∧ int_values C1 = Some E1
    ∧ int_values C2 = Some E2
    ∧ int_values C = Some (Exact.np_add E1 E2).
Proof.
  apply (countSketchInMemroy_additive example_numpy example_matrix example_ints 2
           example_draws [true; false; false]);
    [exact example_numpy_valid|lia|exact example_valid_draws
    |exact example_int_values|exact example_bounded|reflexivity].
Defined.

(** X9.  In [float64] the in-memory and the streaming sketcher can return
    different matrices on the same matrix and draws.  On the row
    [10^16, 1, 1, 1, 1, 1, 1, 1, 1] with one bucket and signs [+1], the
    streaming sketcher returns [10^16]; the in-memory sketcher returns
    [10^16 + 8] when [np.sum] adds the first number to the sum, by pairs, of
    the other eight. *)
Theorem sketchers_differ_in_float64 :
  valid_numpy pairwise_numpy
  ∧ countSketchInMemroy pairwise_numpy ones_matrix 1 ones_draws
    = Ok (float_array (NDArray 1 [[10 ^ 16 + 8]]))
  ∧ countSketchStreaming pairwise_numpy ones_matrix 1 ones_draws
    = Ok (float_array (NDArray 1 [[10 ^ 16]]))
  ∧ float_array (NDArray 1 [[10 ^ 16 + 8]]) ≠ float_array (NDArray 1 [[10 ^ 16]]).
Proof.
  split; [|by vm_compute].
  intros r k. unfold valid_plan, pairwise_numpy. simpl.
  destruct (decide (k = 9%nat)) as [->|Hk]; [done|].
  by rewrite items_left_to_right.
Qed.
